(** * Memory subsystem of the zpi coding agent: a shallow embedding

    Sources embedded here:
    - [packages/coding-agent/src/core/memory.ts]        (store, ids, search,
      compaction, prompt section)
    - [packages/coding-agent/src/core/tools/memory.ts]  (memory_write,
      memory_read, memory_update, memory_delete)

    Conventions of the embedding.
    - A JavaScript string is a [list ascii]: a sequence of code units, here
      restricted to the code units below 256 (Latin-1).  [toLowerCase] and the
      regular expression class [\s] are modelled on that range.
    - The numbers of [generateId] are doubles: [Num.number] holds the
      integer-valued doubles and the infinities, [parseInt] and [+ 1] round
      to the nearest double and [String] writes the shortest digits, so
      that the allocator behaves as the program does beyond 2^53 too.  The
      counters of templates ([i + 1] for an array index) are plain [Z].
    - Arrays are lists; a [Map] is an association list with the insertion
      order and the overwrite-in-place behaviour of [Map.prototype.set].
    - Mutation of a record held in an array is a list update at its index. *)

From Stdlib Require Import Ascii String ZArith Lia Bool DecimalString DecimalPos.
From stdpp Require Import base tactics option list.

Set Default Proof Using "Type".

Abbreviation str := (list ascii) (only parsing).

(** String literals of the source, as code-unit lists. *)
Definition lit (s : string) : list ascii := list_ascii_of_string s.
Arguments lit s%_string.

#[global] Instance ascii_eq_dec : EqDecision ascii := ascii_dec.

(** ** String primitives of the JavaScript runtime *)

Module Js.

(** [String.prototype.toLowerCase], one code unit at a time: on Latin-1 the
    upper-case letters are A-Z, U+00C0-U+00D6 and U+00D8-U+00DE, and each
    maps to the code unit 32 above it. *)
Definition lowerChar (c : ascii) : ascii :=
  let n := nat_of_ascii c in
  if ((65 <=? n) && (n <=? 90))
     || ((192 <=? n) && (n <=? 222) && negb (n =? 215))
  then ascii_of_nat (n + 32) else c.

Definition toLowerCase (s : str) : str := map lowerChar s.

(** The class [\s] of regular expressions, on code units below 256:
    TAB, LF, VT, FF, CR, SPACE and NO-BREAK SPACE. *)
Definition isSpace (c : ascii) : bool :=
  let n := nat_of_ascii c in
  ((9 <=? n) && (n <=? 13)) || (n =? 32) || (n =? 160).

(** [s.split(/\s+/)]: the pieces between maximal runs of white space.  A
    run at either end of the string leaves an empty piece there, and the
    empty string splits into one empty piece.  [cur] is the piece being
    read (reversed), [inRun] tells that the previous code unit was white
    space. *)
Fixpoint splitWsFrom (cur : str) (inRun : bool) (s : str) : list str :=
  match s with
  | [] => [rev cur]
  | c :: r =>
      if isSpace c
      then if inRun then splitWsFrom [] true r
           else rev cur :: splitWsFrom [] true r
      else splitWsFrom (c :: cur) false r
  end.

Definition splitWs (s : str) : list str := splitWsFrom [] false s.

(** [Boolean(s)] for a string: true unless the string is empty. *)
Definition truthy (s : str) : bool :=
  match s with [] => false | _ => true end.

(** [s.startsWith(w)] and [s.includes(w)]. *)
Fixpoint startsWith (s w : str) {struct w} : bool :=
  match w, s with
  | [], _ => true
  | _ :: _, [] => false
  | b :: w', a :: s' => bool_decide (a = b) && startsWith s' w'
  end.

Fixpoint includes (s w : str) : bool :=
  startsWith s w
  || match s with
     | [] => false
     | _ :: r => includes r w
     end.

(** [parts.join(sep)]. *)
Fixpoint join (sep : str) (parts : list str) : str :=
  match parts with
  | [] => []
  | [p] => p
  | p :: rest => p ++ sep ++ join sep rest
  end.

(** [s.split(",")] and the like: split at every occurrence of one
    separator code unit; the empty string gives one empty piece. *)
Fixpoint splitChar (sep : ascii) (s : str) : list str :=
  match s with
  | [] => [[]]
  | c :: r =>
      if bool_decide (c = sep) then [] :: splitChar sep r
      else match splitChar sep r with
           | [] => [[c]]
           | p :: ps => (c :: p) :: ps
           end
  end.

(** [[...new Set(xs)]]: the distinct elements in order of first
    occurrence.  [setAdd] is [Set.prototype.add]. *)
Definition setAdd `{EqDecision A} (seen : list A) (x : A) : list A :=
  if bool_decide (x ∈ seen) then seen else seen ++ [x].

Definition newSet `{EqDecision A} (xs : list A) : list A :=
  fold_left setAdd xs [].

End Js.

(** ** Data model  (memory.ts, Types) *)

Record Reflection := {
  mistakes : list str;
  lessons : list str;
}.

Record ProceduralMemory := {
  proc_id : str;
  proc_name : str;
  proc_trigger : str;
  proc_steps : list str;
  proc_tags : list str;
  proc_created : str;
  proc_updated : str;
  proc_sourceSession : str;
}.

Record EpisodicMemory := {
  ep_id : str;
  ep_summary : str;
  ep_details : list str;
  ep_reflection : option Reflection;
  ep_tags : list str;
  ep_date : str;
  ep_sourceSession : str;
}.

Inductive Category := preference | architecture | convention | fact.

Record SemanticMemory := {
  sem_id : str;
  sem_category : Category;
  sem_text : str;
  sem_tags : list str;
  sem_created : str;
  sem_sourceSession : str;
}.

Record MemoryStore (T : Type) := { memories : list T }.
Arguments memories {T} _.

Inductive MemoryType := procedural | episodic | semantic.
Inductive MemoryScope := project | global.

#[global] Instance Reflection_eq_dec : EqDecision Reflection.
Proof. solve_decision. Defined.
#[global] Instance Category_eq_dec : EqDecision Category.
Proof. solve_decision. Defined.
#[global] Instance MemoryType_eq_dec : EqDecision MemoryType.
Proof. solve_decision. Defined.
#[global] Instance ProceduralMemory_eq_dec : EqDecision ProceduralMemory.
Proof. solve_decision. Defined.
#[global] Instance EpisodicMemory_eq_dec : EqDecision EpisodicMemory.
Proof. solve_decision. Defined.
#[global] Instance SemanticMemory_eq_dec : EqDecision SemanticMemory.
Proof. solve_decision. Defined.

(** The structural types [{ id: string }] and [{ tags: string[] }] that
    [generateId] and [searchMemories] ask of their records. *)
Class HasId (T : Type) := getId : T → str.
Class HasTags (T : Type) := getTags : T → list str.

#[global] Instance proc_HasId : HasId ProceduralMemory := proc_id.
#[global] Instance ep_HasId : HasId EpisodicMemory := ep_id.
#[global] Instance sem_HasId : HasId SemanticMemory := sem_id.
#[global] Instance proc_HasTags : HasTags ProceduralMemory := proc_tags.
#[global] Instance ep_HasTags : HasTags EpisodicMemory := ep_tags.
#[global] Instance sem_HasTags : HasTags SemanticMemory := sem_tags.

(** ** Identifier allocation  (memory.ts, generateId) *)

Module Num.

Definition isDigit (c : ascii) : bool :=
  let n := nat_of_ascii c in (48 <=? n) && (n <=? 57).

Definition digitVal (c : ascii) : Z := Z.of_nat (nat_of_ascii c) - 48.

(** Value of the longest prefix of decimal digits of [s], read after the
    digits already accumulated in [acc]. *)
Fixpoint readDigits (acc : Z) (s : str) : Z :=
  match s with
  | c :: r => if isDigit c then readDigits (10 * acc + digitVal c) r else acc
  | [] => acc
  end.

Fixpoint trimStart (s : str) : str :=
  match s with
  | c :: r => if Js.isSpace c then trimStart r else s
  | [] => []
  end.

(** The integer [parseInt(s, 10)] reads, before it is made a number: skip
    leading white space, read an optional sign, then the longest run of
    decimal digits; [None] stands for [NaN], the result when no digit
    follows. *)
Definition parseIntExact (s : str) : option Z :=
  let t := trimStart s in
  let '(sign, body) :=
    match t with
    | c :: r =>
        if bool_decide (c = "-"%char) then ((-1)%Z, r)
        else if bool_decide (c = "+"%char) then (1%Z, r)
        else (1%Z, t)
    | [] => (1%Z, t)
    end in
  match body with
  | c :: _ => if isDigit c then Some (sign * readDigits 0 body)%Z else None
  | [] => None
  end.

(** [String(n)] for an integer [n] below 2^53 in absolute value: its
    decimal digits. *)
Definition toString (n : Z) : str :=
  list_ascii_of_string (NilZero.string_of_int (Z.to_int n)).

(** [Number.MAX_SAFE_INTEGER]. *)
Definition maxSafeInteger : Z := 2 ^ 53 - 1.

(** The numbers [generateId] computes with: the doubles whose value is an
    integer, and the two infinities.  The sign of zero is not kept: no
    comparison and no text made here tells the two zeros apart. *)
Inductive number :=
  | Finite (z : Z)
  | PosInfinity
  | NegInfinity.

(** The double nearest to a non-negative integer, ties to the even
    significand: 53 bits are kept.  The result is 2^1024 or more exactly
    when the integer rounds to infinity. *)
Definition roundToDouble (z : Z) : Z :=
  if (z <? 2 ^ 53)%Z then z
  else
    let shift := (Z.log2 z - 52)%Z in
    let q := Z.shiftr z shift in
    let r := Z.land z (Z.ones shift) in
    let half := Z.shiftl 1 (shift - 1) in
    let q' := if (half <? r)%Z || ((r =? half)%Z && Z.odd q) then (q + 1)%Z else q in
    Z.shiftl q' shift.

(** The number value of an integer. *)
Definition toNumber (z : Z) : number :=
  let m := roundToDouble (Z.abs z) in
  if (2 ^ 1024 <=? m)%Z
  then (if (z <? 0)%Z then NegInfinity else PosInfinity)
  else Finite (Z.sgn z * m).

(** [parseInt(s, 10)]: the number nearest to the integer read, every digit
    taken into account, as Node does. *)
Definition parseInt (s : str) : option number := toNumber <$> parseIntExact s.

(** [a > b]. *)
Definition gt (a b : number) : bool :=
  match a, b with
  | Finite x, Finite y => (y <? x)%Z
  | PosInfinity, PosInfinity => false
  | PosInfinity, _ => true
  | Finite _, NegInfinity => true
  | _, _ => false
  end.

(** [n + 1]. *)
Definition add1 (n : number) : number :=
  match n with
  | Finite z => toNumber (z + 1)
  | _ => n
  end.

(** [String(x)] for a positive integer-valued double [x] of 2^53 or more:
    the text has the fewest significant digits [s] (there are [k] of them)
    that still denote [x], with [n] the position of the decimal point; of
    two candidates the one nearer to [x] is taken. *)
Definition digitCount (x : Z) : Z := Z.of_nat (length (toString x)).

Definition candidates (x k : Z) : list (Z * Z) :=
  let n := digitCount x in
  let lo := (x / 10 ^ (n - k))%Z in
  let hi := (lo + 1)%Z in
  filter (λ c, roundToDouble (c.1 * 10 ^ (c.2 - k)) = x)
    [ (lo, n); (if (hi =? 10 ^ k)%Z then (10 ^ (k - 1), n + 1) else (hi, n))%Z ].

Definition closest (x k : Z) (cs : list (Z * Z)) : option (Z * Z) :=
  match cs with
  | [] => None
  | [c] => Some c
  | c1 :: c2 :: _ =>
      let d1 := Z.abs (c1.1 * 10 ^ (c1.2 - k) - x) in
      let d2 := Z.abs (c2.1 * 10 ^ (c2.2 - k) - x) in
      if (d1 <? d2)%Z then Some c1
      else if (d2 <? d1)%Z then Some c2
      else if Z.even c1.1 then Some c1 else Some c2
  end.

Fixpoint shortest (x : Z) (k : Z) (fuel : nat) : Z * Z * Z :=
  match fuel with
  | O => (x, digitCount x, digitCount x)
  | S fuel' =>
      match closest x k (candidates x k) with
      | Some (s, n) => (s, n, k)
      | None => shortest x (k + 1) fuel'
      end
  end.

(** Seventeen significant digits tell any two doubles apart.  Up to 21
    places the digits are written out and filled up with zeros, beyond
    that the exponent notation is used. *)
Definition positiveToString (x : Z) : str :=
  if (x <? 2 ^ 53)%Z then toString x
  else
    let '(s, n, k) := shortest x 1 17 in
    if (n <=? 21)%Z then toString s ++ replicate (Z.to_nat (n - k)) "0"%char
    else
      match toString s with
      | d :: rest =>
          d :: (match rest with [] => [] | _ => "."%char :: rest end)
            ++ lit "e+" ++ toString (n - 1)
      | [] => []
      end.

(** [String(v)]. *)
Definition numberToString (v : number) : str :=
  match v with
  | PosInfinity => lit "Infinity"
  | NegInfinity => lit "-Infinity"
  | Finite z =>
      if (z <? 0)%Z then "-"%char :: positiveToString (- z) else positiveToString z
  end.

(** [s.padStart(width, "0")]. *)
Definition padStart0 (width : nat) (s : str) : str :=
  replicate (width - length s) "0"%char ++ s.

End Num.

(** [s.replace(pat, rep)] with a string pattern: only the first occurrence
    is replaced. *)
Fixpoint replaceFirst (pat rep s : str) : str :=
  if Js.startsWith s pat then rep ++ drop (length pat) s
  else match s with
       | [] => []
       | c :: r => c :: replaceFirst pat rep r
       end.

(** The arithmetic is that of the program: [max] is a double, [max + 1]
    is rounded, and [String] writes the result as JavaScript does. *)
Definition generateId `{HasId T} (prefix : str) (store : MemoryStore T) : str :=
  let max :=
    fold_left
      (λ (max : Num.number) (m : T),
         match Num.parseInt (replaceFirst (prefix ++ lit "_") [] (getId m)) with
         | Some num => if Num.gt num max then num else max
         | None => max
         end)
      (memories store) (Num.Finite 0) in
  prefix ++ lit "_" ++ Num.padStart0 3 (Num.numberToString (Num.add1 max)).

(** ** Search  (memory.ts, searchMemories) *)

Section Search.
Context `{HasTags T}.

Definition queryWords (query : str) : list str :=
  let lower := Js.toLowerCase query in
  filter (λ w, Js.truthy w = true) (Js.splitWs lower).

Definition combinedText (getText : T → str) (m : T) : str :=
  let text := Js.toLowerCase (getText m) in
  let tagText := Js.toLowerCase (Js.join (lit " ") (getTags m)) in
  text ++ lit " " ++ tagText.

Definition searchMemories (memories : list T) (query : str)
    (getText : T → str) : list T :=
  let queryWords := queryWords query in
  filter
    (λ m, forallb (λ w, Js.includes (combinedText getText m) w) queryWords = true)
    memories.
End Search.

(** ** Compaction  (memory.ts, compactEpisodicMemories) *)

(** The [Map<string, EpisodicMemory[]>] of the source: entries in insertion
    order, keys unique. *)
Abbreviation TagGroups := (list (str * list EpisodicMemory)) (only parsing).

(** [Map.prototype.delete]. *)
Definition mapDelete {V} (key : str) (m : list (str * V)) : list (str * V) :=
  filter (λ e, e.1 ≠ key) m.

(** [Map.prototype.set]: an existing key keeps its place and gets the new
    value, a new key goes to the end. *)
Fixpoint mapSet {V} (key : str) (v : V) (m : list (str * V)) : list (str * V) :=
  match m with
  | [] => [(key, v)]
  | (k, x) :: r =>
      if bool_decide (k = key) then (k, v) :: r else (k, x) :: mapSet key v r
  end.

(** [new Set(key.split(","))]. *)
Definition groupTagsOf (key : str) : list str :=
  Js.newSet (Js.splitChar ","%char key).

(** [m.tags.some((t) => groupTags.has(t))]. *)
Definition sharesTag (m : EpisodicMemory) (key : str) : bool :=
  existsb (λ t, bool_decide (t ∈ groupTagsOf key)) (ep_tags m).

(** One turn of the outer loop: the record joins the first group whose key
    shares a tag with it (and the loop over the groups stops there), or opens
    a group of its own. *)
Definition placeMemory (tagGroups : TagGroups) (m : EpisodicMemory) : TagGroups :=
  match list_find (λ e, sharesTag m e.1 = true) tagGroups with
  | Some (_, (key, group)) =>
      let groupTags := groupTagsOf key in
      let group := group ++ [m] in
      let mergedTags := Js.newSet (groupTags ++ ep_tags m) in
      mapSet (Js.join (lit ",") mergedTags) group (mapDelete key tagGroups)
  | None =>
      let joined := Js.join (lit ",") (ep_tags m) in
      mapSet (if Js.truthy joined then joined else ep_id m) [m] tagGroups
  end.

Definition buildTagGroups (memories : list EpisodicMemory) : TagGroups :=
  fold_left placeMemory memories [].

Definition reflectionMistakes (m : EpisodicMemory) : list str :=
  match ep_reflection m with Some r => mistakes r | None => [] end.

Definition reflectionLessons (m : EpisodicMemory) : list str :=
  match ep_reflection m with Some r => lessons r | None => [] end.

(** The body of the second loop: what one group contributes to the output. *)
Definition consolidate (group : list EpisodicMemory) : list EpisodicMemory :=
  match group with
  | [] => []
  | [m] => [m]
  | first :: _ =>
      let allDetails := flat_map ep_details group in
      let allTags := Js.newSet (flat_map ep_tags group) in
      let allMistakes := flat_map reflectionMistakes group in
      let allLessons := flat_map reflectionLessons group in
      let summaries := map ep_summary group in
      let final := List.last group first in
      [ {| ep_id := ep_id first;
           ep_summary := lit "Consolidated: " ++ Js.join (lit "; ") summaries;
           ep_details := Js.newSet allDetails;
           ep_reflection :=
             if (0 <? length allMistakes) || (0 <? length allLessons)
             then Some {| mistakes := Js.newSet allMistakes;
                          lessons := Js.newSet allLessons |}
             else None;
           ep_tags := allTags;
           ep_date := ep_date final;
           ep_sourceSession := ep_sourceSession final |} ]
  end.

Definition compactEpisodicMemories (memories : list EpisodicMemory)
    : list EpisodicMemory :=
  if length memories <=? 1 then memories
  else flat_map consolidate (map snd (buildTagGroups memories)).

(** ** Storage  (memory.ts, loadStore)

    What [loadStore] hands back at run time is whatever [JSON.parse]
    produced: the cast [as MemoryStore<T>] is erased by the compiler.  The
    result is therefore a JSON value. *)

#[warnings="-register-all"]
Inductive json :=
  | JNull
  | JBool (b : bool)
  | JNumber (lexeme : str)
  | JString (s : str)
  | JArray (items : list json)
  | JObject (members : list (str * json)).

(** A node of the file system: a readable file with its text, or something
    that exists and makes [readFileSync] throw (a directory, a file without
    read permission). *)
Inductive Node :=
  | File (contents : str)
  | Unreadable.

Abbreviation FileSystem := (str → option Node) (only parsing).

(** [{ memories: [] }]. *)
Definition emptyStore : json := JObject [(lit "memories", JArray [])].

(** Property lookup on a JSON value: the last member with that name wins, as
    [JSON.parse] builds objects. *)
Definition jsonGet (name : str) (v : json) : option json :=
  match v with
  | JObject members =>
      snd <$> List.find (λ e, bool_decide (e.1 = name)) (rev members)
  | _ => None
  end.

(** The shape [MemoryStore<T>]: an object whose [memories] is an array. *)
Definition hasStoreShape (v : json) : Prop :=
  ∃ items, jsonGet (lit "memories") v = Some (JArray items).

Section Storage.
(** The environment: [os.homedir()], the constant [CONFIG_DIR_NAME] of
    [../config.js], [path.join] and [JSON.parse] ([None] when it throws). *)
Variable homedir : str.
Variable CONFIG_DIR_NAME : str.
Variable pathJoin : list str → str.
Variable JSON_parse : str → option json.

Definition getGlobalMemoryDir : str :=
  pathJoin [homedir; CONFIG_DIR_NAME; lit "agent"; lit "memory"].

Definition getProjectMemoryDir (cwd : str) : str :=
  pathJoin [cwd; CONFIG_DIR_NAME; lit "memory"].

Definition getMemoryDir (cwd : str) (scope : MemoryScope) : str :=
  match scope with
  | global => getGlobalMemoryDir
  | project => getProjectMemoryDir cwd
  end.

Definition storePath (cwd filename : str) (scope : MemoryScope) : str :=
  pathJoin [getMemoryDir cwd scope; filename].

Definition loadStore (fs : FileSystem) (cwd filename : str)
    (scope : MemoryScope) : json :=
  let filepath := storePath cwd filename scope in
  match fs filepath with
  | None => emptyStore
  | Some Unreadable => emptyStore
  | Some (File raw) =>
      match JSON_parse raw with
      | Some v => v
      | None => emptyStore
      end
  end.
End Storage.

(** A reader for a fragment of JSON, enough to give [JSON.parse] a concrete
    instance: white space, [null], [true], [false], unsigned integers (kept
    as their lexeme), strings without escape sequences, arrays and objects.
    Text outside the fragment is refused. *)
Module JsonText.

Definition dquote : ascii := "034"%char.

Definition isWs (c : ascii) : bool :=
  let n := nat_of_ascii c in (n =? 32) || (n =? 9) || (n =? 10) || (n =? 13).

Fixpoint skipWs (s : str) : str :=
  match s with
  | c :: r => if isWs c then skipWs r else s
  | [] => []
  end.

Fixpoint spanDigits (s : str) : str * str :=
  match s with
  | c :: r =>
      if Num.isDigit c then let '(d, rest) := spanDigits r in (c :: d, rest)
      else ([], s)
  | [] => ([], [])
  end.

(** The text of a string literal up to its closing quote. *)
Fixpoint readString (s : str) : option (str * str) :=
  match s with
  | [] => None
  | c :: r =>
      if bool_decide (c = dquote) then Some ([], r)
      else if bool_decide (c = "\"%char) || (nat_of_ascii c <? 32) then None
      else '(t, rest) ← readString r; Some (c :: t, rest)
  end.

Definition expect (c : ascii) (s : str) : option str :=
  match skipWs s with
  | d :: r => if bool_decide (d = c) then Some r else None
  | [] => None
  end.

Section Items.
Variable readValue : str → option (json * str).

(** Elements after the first one of an array, up to the bracket. *)
Fixpoint readElements (n : nat) (acc : list json) (s : str)
    : option (json * str) :=
  match n with
  | 0 => None
  | S n' =>
      match skipWs s with
      | c :: r =>
          if bool_decide (c = "]"%char) then Some (JArray (rev acc), r)
          else if bool_decide (c = ","%char) then
            '(v, rest) ← readValue r; readElements n' (v :: acc) rest
          else None
      | [] => None
      end
  end.

Definition readMember (s : str) : option ((str * json) * str) :=
  r ← expect dquote s;
  '(name, r) ← readString r;
  r ← expect ":"%char r;
  '(v, r) ← readValue r;
  Some ((name, v), r).

(** Members after the first one of an object, up to the brace. *)
Fixpoint readMembers (n : nat) (acc : list (str * json)) (s : str)
    : option (json * str) :=
  match n with
  | 0 => None
  | S n' =>
      match skipWs s with
      | c :: r =>
          if bool_decide (c = "}"%char) then Some (JObject (rev acc), r)
          else if bool_decide (c = ","%char) then
            '(mv, rest) ← readMember r; readMembers n' (mv :: acc) rest
          else None
      | [] => None
      end
  end.
End Items.

Definition literal (w : str) (v : json) (s : str) : option (json * str) :=
  if Js.startsWith s w then Some (v, drop (length w) s) else None.

(** One value; [depth] bounds the nesting. *)
Fixpoint readValue (depth : nat) (s : str) : option (json * str) :=
  match depth with
  | 0 => None
  | S d =>
      let s := skipWs s in
      match s with
      | [] => None
      | c :: r =>
          if bool_decide (c = "n"%char) then literal (lit "null") JNull s
          else if bool_decide (c = "t"%char) then literal (lit "true") (JBool true) s
          else if bool_decide (c = "f"%char) then literal (lit "false") (JBool false) s
          else if bool_decide (c = dquote) then
            '(t, rest) ← readString r; Some (JString t, rest)
          else if Num.isDigit c then
            let '(digits, rest) := spanDigits s in
            match digits with
            | z :: _ :: _ =>
                if bool_decide (z = "0"%char) then None
                else Some (JNumber digits, rest)
            | _ => Some (JNumber digits, rest)
            end
          else if bool_decide (c = "["%char) then
            match skipWs r with
            | e :: r' =>
                if bool_decide (e = "]"%char) then Some (JArray [], r')
                else '(v, rest) ← readValue d r;
                     readElements (readValue d) (length rest) [v] rest
            | [] => None
            end
          else if bool_decide (c = "{"%char) then
            match skipWs r with
            | e :: r' =>
                if bool_decide (e = "}"%char) then Some (JObject [], r')
                else '(mv, rest) ← readMember (readValue d) r;
                     readMembers (readValue d) (length rest) [mv] rest
            | [] => None
            end
          else None
      end
  end.

(** The whole text must be one value, white space around it allowed. *)
Definition parse (s : str) : option json :=
  '(v, rest) ← readValue (S (length s)) s;
  match skipWs rest with
  | [] => Some v
  | _ => None
  end.

End JsonText.

(** ** The tool layer  (tools/memory.ts)

    The tools run against the three store files of one memory directory (the
    one the context's [cwd] and [scope] select).  [Disk] gives, for each
    file, the collection [loadStore] returns for it, so a file that is absent
    or unparsable is the empty list.  [World] adds what else the tools touch:
    the log of [saveStore] calls and the clock. *)

Definition dq : str := [JsonText.dquote].
Definition nl : str := ["010"%char].

Record Disk := {
  procedural_json : list ProceduralMemory;
  episodic_json : list EpisodicMemory;
  semantic_json : list SemanticMemory;
}.

Record World := {
  disk : Disk;
  saves : list MemoryType;
  ticks : nat;
}.

Definition RecordOf (k : MemoryType) : Type :=
  match k with
  | procedural => ProceduralMemory
  | episodic => EpisodicMemory
  | semantic => SemanticMemory
  end.

#[global] Instance RecordOf_HasId k : HasId (RecordOf k) :=
  match k with
  | procedural => proc_id
  | episodic => ep_id
  | semantic => sem_id
  end.

Definition getStoreFile (type : MemoryType) : str :=
  match type with
  | procedural => lit "procedural.json"
  | episodic => lit "episodic.json"
  | semantic => lit "semantic.json"
  end.

Definition readFile (k : MemoryType) (d : Disk) : list (RecordOf k) :=
  match k with
  | procedural => procedural_json d
  | episodic => episodic_json d
  | semantic => semantic_json d
  end.

Definition writeFile (k : MemoryType) : list (RecordOf k) → Disk → Disk :=
  match k with
  | procedural => λ v d,
      {| procedural_json := v; episodic_json := episodic_json d;
         semantic_json := semantic_json d |}
  | episodic => λ v d,
      {| procedural_json := procedural_json d; episodic_json := v;
         semantic_json := semantic_json d |}
  | semantic => λ v d,
      {| procedural_json := procedural_json d; episodic_json := episodic_json d;
         semantic_json := v |}
  end.

(** A state monad over [World] for the code that loads, changes and saves. *)
Definition M (A : Type) : Type := World → A * World.

#[global] Instance M_ret : MRet M := λ A (a : A) w, (a, w).
#[global] Instance M_bind : MBind M :=
  λ A B (f : A → M B) (m : M A) w, let '(a, w') := m w in f a w'.

Inductive Action := created | updated | duplicate.

Inductive Details :=
  | NoDetails
  | Written (action : Action) (id : str)
  | Deleted (deleted : bool).

Record ToolResult := {
  text : str;
  details : Details;
}.

Record MemoryToolContext := {
  cwd : str;
  sessionId : str;
  scope : MemoryScope;
}.

(** The parameter bag of [memory_write]; an absent property is [None]. *)
Record MemoryWriteInput := {
  w_type : MemoryType;
  w_name : option str;
  w_trigger : option str;
  w_steps : option (list str);
  w_summary : option str;
  w_details : option (list str);
  w_category : option Category;
  w_text : option str;
  w_tags : option (list str);
  w_reflection_mistakes : option (list str);
  w_reflection_lessons : option (list str);
}.

Definition categoryName (c : Category) : str :=
  match c with
  | preference => lit "preference"
  | architecture => lit "architecture"
  | convention => lit "convention"
  | fact => lit "fact"
  end.

Section Tools.
(** The clock: the text [new Date().toISOString()] gives at its [n]-th
    reading. *)
Variable timeline : nat → str.

Definition loadStoreOf (k : MemoryType) : M (MemoryStore (RecordOf k)) :=
  λ w, ({| memories := readFile k (disk w) |}, w).

Definition saveStore (k : MemoryType) (store : MemoryStore (RecordOf k))
    : M unit :=
  λ w, (tt, {| disk := writeFile k (memories store) (disk w);
               saves := saves w ++ [k];
               ticks := ticks w |}).

Definition nowISO : M str :=
  λ w, (timeline (ticks w),
        {| disk := disk w; saves := saves w; ticks := S (ticks w) |}).

(** [!params.x] for an optional string, and [xs?.length] read as a
    condition for an optional array. *)
Definition present (o : option str) : option str :=
  match o with
  | Some s => if Js.truthy s then Some s else None
  | None => None
  end.

Definition hasItems (o : option (list str)) : bool :=
  match o with
  | Some (_ :: _) => true
  | _ => false
  end.

Definition errorResult (message : str) : ToolResult :=
  {| text := message; details := NoDetails |}.

Definition writeProcedural (ctx : MemoryToolContext)
    (params : MemoryWriteInput) : M ToolResult :=
  let tags := default [] (w_tags params) in
  match present (w_name params), present (w_trigger params), w_steps params with
  | Some name, Some trigger, Some (step :: more) =>
      let steps := step :: more in
      (store ← loadStoreOf procedural;
       match list_find (λ m, proc_name m = name) (memories store) with
       | Some (i, existing) =>
           now ← nowISO;
           let existing' :=
             {| proc_id := proc_id existing;
                proc_name := proc_name existing;
                proc_trigger := trigger;
                proc_steps := steps;
                proc_tags := Js.newSet (proc_tags existing ++ tags);
                proc_created := proc_created existing;
                proc_updated := now;
                proc_sourceSession := proc_sourceSession existing |} in
           saveStore procedural {| memories := <[i := existing']> (memories store) |};;
           mret {| text := lit "Updated procedural memory [" ++ proc_id existing
                            ++ lit "] " ++ dq ++ name ++ dq ++ lit ".";
                  details := Written updated (proc_id existing) |}
       | None =>
           let id := generateId (lit "proc") store in
           created_ ← nowISO;
           updated_ ← nowISO;
           saveStore procedural
             {| memories := memories store ++
                  [ {| proc_id := id;
                       proc_name := name;
                       proc_trigger := trigger;
                       proc_steps := steps;
                       proc_tags := tags;
                       proc_created := created_;
                       proc_updated := updated_;
                       proc_sourceSession := sessionId ctx |} ] |};;
           mret {| text := lit "Saved procedural memory [" ++ id ++ lit "] "
                            ++ dq ++ name ++ dq ++ lit ".";
                  details := Written created id |}
       end)
  | _, _, _ =>
      mret (errorResult (lit "Error: procedural memory requires name, trigger, and steps."))
  end.

Definition writeEpisodic (ctx : MemoryToolContext)
    (params : MemoryWriteInput) : M ToolResult :=
  let tags := default [] (w_tags params) in
  match present (w_summary params) with
  | None => mret (errorResult (lit "Error: episodic memory requires a summary."))
  | Some summary =>
      (store ← loadStoreOf episodic;
       let id := generateId (lit "ep") store in
       let reflection :=
         if hasItems (w_reflection_mistakes params)
            || hasItems (w_reflection_lessons params)
         then Some {| mistakes := default [] (w_reflection_mistakes params);
                      lessons := default [] (w_reflection_lessons params) |}
         else None in
       now ← nowISO;
       saveStore episodic
         {| memories := memories store ++
              [ {| ep_id := id;
                   ep_summary := summary;
                   ep_details := default [] (w_details params);
                   ep_reflection := reflection;
                   ep_tags := tags;
                   ep_date := default [] (head (Js.splitChar "T"%char now));
                   ep_sourceSession := sessionId ctx |} ] |};;
       mret {| text := lit "Saved episodic memory [" ++ id ++ lit "] "
                        ++ dq ++ summary ++ dq ++ lit ".";
              details := Written created id |})
  end.

Definition writeSemantic (ctx : MemoryToolContext)
    (params : MemoryWriteInput) : M ToolResult :=
  let tags := default [] (w_tags params) in
  match present (w_text params), w_category params with
  | Some text_, Some category =>
      (store ← loadStoreOf semantic;
       match list_find
               (λ m, sem_category m = category
                     ∧ Js.toLowerCase (sem_text m) = Js.toLowerCase text_)
               (memories store) with
       | Some (_, existing) =>
           mret {| text := lit "This semantic memory already exists ["
                            ++ sem_id existing ++ lit "].";
                  details := Written duplicate (sem_id existing) |}
       | None =>
           let id := generateId (lit "sem") store in
           now ← nowISO;
           saveStore semantic
             {| memories := memories store ++
                  [ {| sem_id := id;
                       sem_category := category;
                       sem_text := text_;
                       sem_tags := tags;
                       sem_created := now;
                       sem_sourceSession := sessionId ctx |} ] |};;
           mret {| text := lit "Saved semantic memory [" ++ id ++ lit "] ("
                            ++ categoryName category ++ lit "): "
                            ++ dq ++ text_ ++ dq ++ lit ".";
                  details := Written created id |}
       end)
  | _, _ => mret (errorResult (lit "Error: semantic memory requires text and category."))
  end.

(** [memoryWriteTool.execute]. *)
Definition memoryWrite (ctx : MemoryToolContext)
    (params : MemoryWriteInput) : M ToolResult :=
  match w_type params with
  | procedural => writeProcedural ctx params
  | episodic => writeEpisodic ctx params
  | semantic => writeSemantic ctx params
  end.

(** [memoryDeleteTool.execute]: the loop over the three files. *)
Fixpoint deleteFrom (files : list MemoryType) (id : str) : M ToolResult :=
  match files with
  | [] =>
      mret {| text := lit "No memory found with ID " ++ dq ++ id ++ dq ++ lit ".";
             details := Deleted false |}
  | file :: rest =>
      (store ← loadStoreOf file;
       match list_find (λ m, getId m = id) (memories store) with
       | Some (idx, _) =>
           saveStore file {| memories := delete idx (memories store) |};;
           mret {| text := lit "Deleted memory [" ++ id ++ lit "] from "
                            ++ replaceFirst (lit ".json") [] (getStoreFile file)
                            ++ lit ".";
                  details := Deleted true |}
       | None => deleteFrom rest id
       end)
  end.

Definition memoryDelete (id : str) : M ToolResult :=
  deleteFrom [procedural; episodic; semantic] id.
End Tools.

(** ** The prompt section  (memory.ts, buildMemoryPromptSection, escapeXml) *)

(** [str.replace(/c/g, rep)] for a pattern of one code unit. *)
Definition replaceAll (c : ascii) (rep : str) (s : str) : str :=
  flat_map (λ x, if bool_decide (x = c) then rep else [x]) s.

Definition escapeXml (s : str) : str :=
  replaceAll "'"%char (lit "&apos;")
    (replaceAll JsonText.dquote (lit "&quot;")
       (replaceAll ">"%char (lit "&gt;")
          (replaceAll "<"%char (lit "&lt;")
             (replaceAll "&"%char (lit "&amp;") s)))).

(** The block returned when the three stores are empty; one list element
    per line of the template literal. *)
Definition emptyMemoryPrompt : str :=
  Js.join nl
  [ [];
    [];
    lit "<memory_system>";
    lit "You have a persistent memory system that stores knowledge across sessions.";
    lit "Currently no memories are stored. Use the memory_write tool to save:";
    lit "1. Procedural memories when the user guides you through a multi-step workflow.";
    lit "2. Semantic memories when the user states a preference, rule, correction, or fact.";
    lit "3. Episodic memories when a significant task completes.";
    lit "</memory_system>" ].

(** The first element of [parts] otherwise. *)
Definition memoryPreamble : str :=
  Js.join nl
  [ [];
    [];
    lit "<memory_system>";
    lit "You have a persistent memory system that stores knowledge across sessions.";
    lit "You MUST use these memories to improve your responses. Do not ask the user";
    lit "to repeat things they have already taught you.";
    [];
    lit "AUTOMATIC MEMORY CAPTURE RULES:";
    lit "1. When the user guides you through a multi-step workflow (correcting steps,";
    lit "   adding steps, reordering), save it as a PROCEDURAL memory using the";
    lit "   memory_write tool. Extract the general workflow, not the specific instance.";
    lit "2. When the user states a preference or rule (" ++ dq ++ lit "always do X" ++ dq ++ lit ", " ++ dq ++ lit "never do Y" ++ dq ++ lit ",";
    lit "   " ++ dq ++ lit "I prefer X" ++ dq ++ lit "), save it as a SEMANTIC memory immediately.";
    lit "3. When the user corrects you or you make a mistake, save the lesson as a";
    lit "   SEMANTIC memory with category " ++ dq ++ lit "convention" ++ dq ++ lit ".";
    lit "4. When a significant task completes, save a summary as an EPISODIC memory.";
    lit "5. If you detect a conflict with an existing memory, ask the user: " ++ dq ++ lit "You";
    lit "   previously told me [old]. You are now saying [new]. Should I update this?" ++ dq;
    lit "   Only update after confirmation.";
    [];
    lit "TIMESTAMP AWARENESS:";
    lit "Each user message includes a timestamp. Use these to detect time gaps.";
    lit "If the user returns after a significant gap (>10 minutes), acknowledge it";
    lit "naturally if relevant. Do not force it if the gap is not relevant." ].

(** [steps.map((s, i) => `${i + 1}. ${s}`)]. *)
Definition numberedSteps (steps : list str) : list str :=
  imap (λ i s, Num.toString (Z.of_nat i + 1) ++ lit ". " ++ s) steps.

Definition semanticLine (m : SemanticMemory) : str :=
  lit "  <memory id=" ++ dq ++ sem_id m ++ dq ++ lit " category=" ++ dq
    ++ categoryName (sem_category m) ++ dq ++ lit ">"
    ++ escapeXml (sem_text m) ++ lit "</memory>".

Definition proceduralLine (m : ProceduralMemory) : str :=
  let steps := Js.join (lit "; ") (numberedSteps (proc_steps m)) in
  lit "  <procedure id=" ++ dq ++ proc_id m ++ dq ++ lit " name=" ++ dq
    ++ escapeXml (proc_name m) ++ dq ++ lit " trigger=" ++ dq
    ++ escapeXml (proc_trigger m) ++ dq ++ lit ">"
    ++ escapeXml steps ++ lit "</procedure>".

Definition episodeText (m : EpisodicMemory) : str :=
  let details := Js.join (lit "; ") (ep_details m) in
  match ep_reflection m with
  | Some r =>
      if 0 <? length (lessons r)
      then details ++ lit " | Lessons: " ++ Js.join (lit "; ") (lessons r)
      else details
  | None => details
  end.

Definition episodeLine (m : EpisodicMemory) : str :=
  lit "  <episode id=" ++ dq ++ ep_id m ++ dq ++ lit " date=" ++ dq
    ++ ep_date m ++ dq ++ lit " summary=" ++ dq
    ++ escapeXml (ep_summary m) ++ dq ++ lit ">"
    ++ escapeXml (episodeText m) ++ lit "</episode>".

(** [xs.slice(-n)]. *)
Definition sliceLast {A} (n : nat) (xs : list A) : list A :=
  drop (length xs - n) xs.

(** The array [parts] at the [return] of the non-empty case. *)
Definition promptParts (d : Disk) : list str :=
  let semantic := semantic_json d in
  let procedural := procedural_json d in
  let episodic := episodic_json d in
  [memoryPreamble]
  ++ (if 0 <? length semantic
      then [nl ++ lit "<semantic_memories>"] ++ map semanticLine semantic
           ++ [lit "</semantic_memories>"]
      else [])
  ++ (if 0 <? length procedural
      then [nl ++ lit "<procedural_memories>"] ++ map proceduralLine procedural
           ++ [lit "</procedural_memories>"]
      else [])
  ++ (if 0 <? length episodic
      then let recent := sliceLast 10 episodic in
           [nl ++ lit "<recent_episodic_memories>"] ++ map episodeLine recent
           ++ [lit "</recent_episodic_memories>"]
      else [])
  ++ [nl ++ lit "</memory_system>"].

(** [buildMemoryPromptSection], on the three collections [loadStore] gave. *)
Definition buildMemoryPromptSection (d : Disk) : str :=
  if (length (semantic_json d) =? 0) && (length (procedural_json d) =? 0)
     && (length (episodic_json d) =? 0)
  then emptyMemoryPrompt
  else Js.join nl (promptParts d).

(** ** Scope resolution  (memory.ts, readZpiConfig, resolveMemoryScope) *)

(** A JSON number lexeme denotes zero when its mantissa, the part before an
    exponent mark, has no digit other than [0]. *)
Definition numberIsZero (lexeme : str) : bool :=
  let isExp (c : ascii) := bool_decide (c = "e"%char) || bool_decide (c = "E"%char) in
  let mantissa := take (default (length lexeme) (fst <$> list_find (λ c, isExp c = true) lexeme))
                       lexeme in
  forallb (λ c, negb (Num.isDigit c) || bool_decide (c = "0"%char)) mantissa.

(** The truth value JavaScript gives a value read by [JSON.parse]. *)
Definition jsonTruthy (v : json) : bool :=
  match v with
  | JNull => false
  | JBool b => b
  | JNumber lexeme => negb (numberIsZero lexeme)
  | JString s => Js.truthy s
  | JArray _ => true
  | JObject _ => true
  end.

(** A scope as the string the program holds at run time. *)
Definition scopeValue (scope : MemoryScope) : json :=
  match scope with
  | project => JString (lit "project")
  | global => JString (lit "global")
  end.

(** [zpiConfig?.memory?.scope]; [None] stands for [undefined]. *)
Definition declaredScope (zpiConfig : option json) : option json :=
  config ← zpiConfig;
  memory ← jsonGet (lit "memory") config;
  jsonGet (lit "scope") memory.

Section Scope.
Variable pathJoin : list str → str.
Variable JSON_parse : str → option json.

(** [None] stands for [undefined]. *)
Definition readZpiConfig (fs : FileSystem) (cwd : str) : option json :=
  let configPath := pathJoin [cwd; lit ".zpi"] in
  match fs configPath with
  | None => None
  | Some Unreadable => None
  | Some (File raw) => JSON_parse raw
  end.

(** The result is the value found under [memory.scope], unchecked, when it
    is truthy. *)
Definition resolveMemoryScope (fs : FileSystem) (cwd : str)
    (settingsScope : MemoryScope) : json :=
  let zpiConfig := readZpiConfig fs cwd in
  match declaredScope zpiConfig with
  | Some declared =>
      if jsonTruthy declared then declared else scopeValue settingsScope
  | None => scopeValue settingsScope
  end.
End Scope.

(** [getMemoryDir] compares its scope with ["global"] and takes every other
    value for the project scope. *)
Definition scopeOfValue (v : json) : MemoryScope :=
  match v with
  | JString s => if bool_decide (s = lit "global") then global else project
  | _ => project
  end.

(** ** Display formatters  (memory.ts) *)

Definition formatProceduralForDisplay (m : ProceduralMemory) : str :=
  let steps :=
    Js.join nl
      (imap (λ i s, lit "  " ++ Num.toString (Z.of_nat i + 1) ++ lit ". " ++ s)
            (proc_steps m)) in
  lit "[" ++ proc_id m ++ lit "] " ++ proc_name m
    ++ nl ++ lit "  Trigger: " ++ proc_trigger m
    ++ nl ++ lit "  Tags: " ++ Js.join (lit ", ") (proc_tags m)
    ++ nl ++ lit "  Steps:" ++ nl ++ steps
    ++ nl ++ lit "  Updated: " ++ proc_updated m.

(** [items.map((x) => `    - ${x}`).join("\n")]. *)
Definition bulletList (items : list str) : str :=
  Js.join nl (map (λ x, lit "    - " ++ x) items).

Definition formatEpisodicForDisplay (m : EpisodicMemory) : str :=
  let text :=
    lit "[" ++ ep_id m ++ lit "] " ++ ep_summary m
      ++ nl ++ lit "  Date: " ++ ep_date m
      ++ nl ++ lit "  Tags: " ++ Js.join (lit ", ") (ep_tags m) in
  let text :=
    if 0 <? length (ep_details m)
    then text ++ nl ++ lit "  Details:" ++ nl ++ bulletList (ep_details m)
    else text in
  match ep_reflection m with
  | Some r =>
      let text :=
        if 0 <? length (mistakes r)
        then text ++ nl ++ lit "  Mistakes:" ++ nl ++ bulletList (mistakes r)
        else text in
      if 0 <? length (lessons r)
      then text ++ nl ++ lit "  Lessons:" ++ nl ++ bulletList (lessons r)
      else text
  | None => text
  end.

Definition formatSemanticForDisplay (m : SemanticMemory) : str :=
  lit "[" ++ sem_id m ++ lit "] (" ++ categoryName (sem_category m) ++ lit ") "
    ++ sem_text m
    ++ nl ++ lit "  Tags: " ++ Js.join (lit ", ") (sem_tags m)
    ++ nl ++ lit "  Created: " ++ sem_created m.

(** The formatter [memory_read] pairs with each store file. *)
Definition formatOf (k : MemoryType) : RecordOf k → str :=
  match k with
  | procedural => formatProceduralForDisplay
  | episodic => formatEpisodicForDisplay
  | semantic => formatSemanticForDisplay
  end.

(** ** Memory counts  (memory.ts, getMemoryCounts) *)

Record MemoryCounts := {
  count_semantic : nat;
  count_procedural : nat;
  count_episodic : nat;
  count_total : nat;
}.

Definition getMemoryCounts (d : Disk) : MemoryCounts :=
  let semantic := length (semantic_json d) in
  let procedural := length (procedural_json d) in
  let episodic := length (episodic_json d) in
  {| count_semantic := semantic; count_procedural := procedural;
     count_episodic := episodic;
     count_total := semantic + procedural + episodic |}.

(** ** memory_read  (tools/memory.ts, memoryReadTool) *)

Inductive ReadType := OnlyType (type : MemoryType) | AllTypes.

Record MemoryReadInput := {
  r_type : option ReadType;
  r_id : option str;
  r_query : option str;
}.

Inductive ReadDetails :=
  | Found (found : bool)
  | Count (count : nat).

Record ReadResult := {
  read_text : str;
  read_details : ReadDetails;
}.

(** [type === "all" || type === kind]. *)
Definition wants (type : ReadType) (kind : MemoryType) : bool :=
  match type with
  | AllTypes => true
  | OnlyType t => bool_decide (t = kind)
  end.

(** The text projections handed to [searchMemories]. *)
Definition proceduralText (m : ProceduralMemory) : str :=
  proc_name m ++ lit " " ++ proc_trigger m ++ lit " "
    ++ Js.join (lit " ") (proc_steps m).

Definition episodicText (m : EpisodicMemory) : str :=
  ep_summary m ++ lit " " ++ Js.join (lit " ") (ep_details m).

Definition semanticText (m : SemanticMemory) : str :=
  categoryName (sem_category m) ++ lit " " ++ sem_text m.

(** The loop over the three stores of the branch [if (params.id)]. *)
Fixpoint readById (stores : list MemoryType) (id : str) : M ReadResult :=
  match stores with
  | [] =>
      mret {| read_text := lit "No memory found with ID " ++ dq ++ id ++ dq ++ lit ".";
              read_details := Found false |}
  | file :: rest =>
      store ← loadStoreOf file;
      match list_find (λ m, getId m = id) (memories store) with
      | Some (_, found) =>
          mret {| read_text := formatOf file found; read_details := Found true |}
      | None => readById rest id
      end
  end.

(** The branch [if (params.query)]. *)
Definition readByQuery (type : ReadType) (query : str) : M ReadResult :=
  fromProcedural ←
    (if wants type procedural
     then store ← loadStoreOf procedural;
          mret (map formatProceduralForDisplay
                  (searchMemories (memories store) query proceduralText))
     else mret []);
  fromEpisodic ←
    (if wants type episodic
     then store ← loadStoreOf episodic;
          mret (map formatEpisodicForDisplay
                  (searchMemories (memories store) query episodicText))
     else mret []);
  fromSemantic ←
    (if wants type semantic
     then store ← loadStoreOf semantic;
          mret (map formatSemanticForDisplay
                  (searchMemories (memories store) query semanticText))
     else mret []);
  let results := fromProcedural ++ fromEpisodic ++ fromSemantic in
  if length results =? 0
  then mret {| read_text := lit "No memories found matching " ++ dq ++ query
                              ++ dq ++ lit ".";
               read_details := Count 0 |}
  else mret {| read_text := Js.join (nl ++ nl) results;
               read_details := Count (length results) |}.

(** One kind of the listing: a header and the records, when there are any. *)
Definition listing (header : str) (lines : list str) : list str :=
  if 0 <? length lines then header :: lines else [].

(** The last branch: everything of the wanted kinds. *)
Definition readAll (type : ReadType) : M ReadResult :=
  fromProcedural ←
    (if wants type procedural
     then store ← loadStoreOf procedural;
          mret (listing (lit "=== Procedural Memories ===")
                  (map formatProceduralForDisplay (memories store)))
     else mret []);
  fromEpisodic ←
    (if wants type episodic
     then store ← loadStoreOf episodic;
          mret (listing (lit "=== Episodic Memories ===")
                  (map formatEpisodicForDisplay (memories store)))
     else mret []);
  fromSemantic ←
    (if wants type semantic
     then store ← loadStoreOf semantic;
          mret (listing (lit "=== Semantic Memories ===")
                  (map formatSemanticForDisplay (memories store)))
     else mret []);
  let results := fromProcedural ++ fromEpisodic ++ fromSemantic in
  if length results =? 0
  then mret {| read_text := lit "No memories stored yet."; read_details := Count 0 |}
  else mret {| read_text := Js.join (nl ++ nl) results;
               read_details := Count (length results) |}.

(** [memoryReadTool.execute]. *)
Definition memoryRead (params : MemoryReadInput) : M ReadResult :=
  match present (r_id params) with
  | Some id => readById [procedural; episodic; semantic] id
  | None =>
      let type := default AllTypes (r_type params) in
      match present (r_query params) with
      | Some query => readByQuery type query
      | None => readAll type
      end
  end.

(** ** memory_update  (tools/memory.ts, memoryUpdateTool) *)

Record MemoryUpdateInput := {
  u_id : str;
  u_text : option str;
  u_steps : option (list str);
  u_trigger : option str;
  u_tags : option (list str);
}.

Record UpdateResult := {
  update_text : str;
  update_updated : bool;
}.

Section Update.
Variable timeline : nat → str.

(** [memoryUpdateTool.execute].  An array given is applied even when empty,
    a string only when it is not empty. *)
Definition memoryUpdate (params : MemoryUpdateInput) : M UpdateResult :=
  procStore ← loadStoreOf procedural;
  match list_find (λ m, proc_id m = u_id params) (memories procStore) with
  | Some (i, proc) =>
      now ← nowISO timeline;
      let proc' :=
        {| proc_id := proc_id proc;
           proc_name := proc_name proc;
           proc_trigger := default (proc_trigger proc) (present (u_trigger params));
           proc_steps := default (proc_steps proc) (u_steps params);
           proc_tags := default (proc_tags proc) (u_tags params);
           proc_created := proc_created proc;
           proc_updated := now;
           proc_sourceSession := proc_sourceSession proc |} in
      saveStore procedural {| memories := <[i := proc']> (memories procStore) |};;
      mret {| update_text := lit "Updated procedural memory [" ++ u_id params ++ lit "].";
              update_updated := true |}
  | None =>
      semStore ← loadStoreOf semantic;
      match list_find (λ m, sem_id m = u_id params) (memories semStore) with
      | Some (i, sem) =>
          let sem' :=
            {| sem_id := sem_id sem;
               sem_category := sem_category sem;
               sem_text := default (sem_text sem) (present (u_text params));
               sem_tags := default (sem_tags sem) (u_tags params);
               sem_created := sem_created sem;
               sem_sourceSession := sem_sourceSession sem |} in
          saveStore semantic {| memories := <[i := sem']> (memories semStore) |};;
          mret {| update_text := lit "Updated semantic memory [" ++ u_id params ++ lit "].";
                  update_updated := true |}
      | None =>
          epStore ← loadStoreOf episodic;
          match list_find (λ m, ep_id m = u_id params) (memories epStore) with
          | Some (i, ep) =>
              let ep' :=
                {| ep_id := ep_id ep;
                   ep_summary := ep_summary ep;
                   ep_details := ep_details ep;
                   ep_reflection := ep_reflection ep;
                   ep_tags := default (ep_tags ep) (u_tags params);
                   ep_date := ep_date ep;
                   ep_sourceSession := ep_sourceSession ep |} in
              saveStore episodic {| memories := <[i := ep']> (memories epStore) |};;
              mret {| update_text := lit "Updated episodic memory [" ++ u_id params
                                       ++ lit "].";
                      update_updated := true |}
          | None =>
              mret {| update_text := lit "No memory found with ID " ++ dq
                                       ++ u_id params ++ dq ++ lit ".";
                      update_updated := false |}
          end
      end
  end.
End Update.

(** * Vocabulary of the properties

    Notions in which the properties below are stated. *)

(** ** Search *)

(** [w] occurs in [s] as a contiguous piece. *)
Definition IsSubstring (w s : str) : Prop := ∃ pre post, s = pre ++ w ++ post.

(** The text a record is matched against, in one piece: the projected
    text, a space, and the tags joined by spaces, all in lower case. *)
Definition haystack `{HasTags T} (getText : T → str) (m : T) : str :=
  Js.toLowerCase (getText m ++ lit " " ++ Js.join (lit " ") (getTags m)).

(** The tokens of a string, said without reference to the code: the string
    is white space, a token, white space, a token and so on, where a token
    is a non-empty run without white space that ends at the end of the
    string or at a white-space code unit. *)
Definition StartsBlank (s : str) : Prop :=
  match s with
  | [] => True
  | c :: _ => Js.isSpace c = true
  end.

Inductive Tokens : str → list str → Prop :=
  | Tokens_blank ws :
      Forall (λ c, Js.isSpace c = true) ws → Tokens ws []
  | Tokens_word ws t rest ts :
      Forall (λ c, Js.isSpace c = true) ws →
      t ≠ [] →
      Forall (λ c, Js.isSpace c = false) t →
      StartsBlank rest →
      Tokens rest ts →
      Tokens (ws ++ t ++ rest) (t :: ts).

(** Records reduced to what the search reads: a text and the tags. *)
#[global] Instance pair_HasTags : HasTags (str * list str) := snd.

(** ** Storage *)

(** The file holds text that [JSON.parse] reads as a value of the shape
    [MemoryStore<T>]. *)
Definition parsesAsStore (JSON_parse : str → option json)
    (node : option Node) : Prop :=
  ∃ raw v, node = Some (File raw) ∧ JSON_parse raw = Some v ∧ hasStoreShape v.

(** ** Identifiers *)

(** The contract of the allocator, in the words of the specification: the
    numeric suffix of an identifier under the prefix, zero for an identifier
    under another prefix or with a suffix that is not a numeral; then one
    more than the maximum, padded to three digits. *)
Definition underPrefix (prefix id : str) : option str :=
  if Js.startsWith id (prefix ++ lit "_")
  then Some (drop (length prefix + 1) id) else None.

(** The value of a suffix that is a numeral: non-empty, digits only. *)
Definition numeralValue (s : str) : option Z :=
  if Js.truthy s && forallb Num.isDigit s then Some (Num.readDigits 0 s) else None.

(** The number of an identifier under the prefix; zero otherwise. *)
Definition suffixNumber (prefix id : str) : Z :=
  default 0%Z (underPrefix prefix id ≫= numeralValue).

(** The next identifier according to the contract. *)
Definition specNextId (prefix : str) (ids : list str) : str :=
  prefix ++ lit "_"
    ++ Num.padStart0 3
         (Num.toString (1 + foldr Z.max 0%Z (map (suffixNumber prefix) ids))).

(** A letter of the basic Latin alphabet. *)
Definition isLetter (c : ascii) : bool :=
  let n := nat_of_ascii c in
  ((65 <=? n) && (n <=? 90)) || ((97 <=? n) && (n <=? 122)).

(** An identifier of the form letters, underscore, digits. *)
Definition canonicalId (id : str) : Prop :=
  ∃ kind digits,
    id = kind ++ lit "_" ++ digits
    ∧ Forall (λ c, isLetter c = true) kind
    ∧ digits ≠ []
    ∧ Forall (λ c, Num.isDigit c = true) digits.

(** A collection reduced to what the allocator reads: the identifiers. *)
#[global] Instance str_HasId : HasId (list ascii) := λ id, id.

(** The integer the loop of [generateId] reads from an identifier: what
    [parseInt] reads once the first occurrence of [prefix_] is taken out,
    zero when that is [NaN]. *)
Definition readNumber (prefix id : str) : Z :=
  default 0%Z (Num.parseIntExact (replaceFirst (prefix ++ lit "_") [] id)).

(** Identifiers whose numbers leave room for one more below
    [Number.MAX_SAFE_INTEGER], where the arithmetic of doubles is exact. *)
Definition safeIds (prefix : str) (ids : list str) : Prop :=
  Forall (λ id, (readNumber prefix id < Num.maxSafeInteger)%Z) ids.

#[global] Instance safeIds_dec prefix ids : Decision (safeIds prefix ids).
Proof. unfold safeIds. apply _. Defined.

(** ** The prompt section *)

(** The markup escape, said one code unit at a time: each of the five
    reserved code units becomes its entity, every other one stays. *)
Definition entityOf (c : ascii) : str :=
  if bool_decide (c = "&"%char) then lit "&amp;"
  else if bool_decide (c = "<"%char) then lit "&lt;"
  else if bool_decide (c = ">"%char) then lit "&gt;"
  else if bool_decide (c = JsonText.dquote) then lit "&quot;"
  else if bool_decide (c = "'"%char) then lit "&apos;"
  else [c].

(** A string with every code unit replaced by its entity. *)
Definition xmlEscaped (s : str) : str := flat_map entityOf s.

(** ** Compaction *)

(** A tag or identifier without a comma, the separator of group keys. *)
Definition commaFree (s : str) : Prop := ","%char ∉ s.

(** The key under which a record opens a group. *)
Definition openKey (m : EpisodicMemory) : str :=
  let joined := Js.join (lit ",") (ep_tags m) in
  if Js.truthy joined then joined else ep_id m.

(** The key a group gets when [m] joins it. *)
Definition joinKey (key : str) (m : EpisodicMemory) : str :=
  Js.join (lit ",") (Js.newSet (groupTagsOf key ++ ep_tags m)).

(** A record without tags (or whose tags join to the empty string) opens a
    group under its identifier. *)
Definition untagged (m : EpisodicMemory) : Prop :=
  Js.truthy (Js.join (lit ",") (ep_tags m)) = false.

#[global] Instance untagged_dec m : Decision (untagged m).
Proof. unfold untagged. apply _. Defined.

(** The parts of the key under which a record opens a group. *)
Definition keyTags (m : EpisodicMemory) : list str :=
  if Js.truthy (Js.join (lit ",") (ep_tags m)) then ep_tags m else [ep_id m].

(** All the tags of a list of records. *)
Definition allTags (ms : list EpisodicMemory) : list str := flat_map ep_tags ms.

(** The identifiers under which the records without tags open groups. *)
Definition ownKeys (ms : list EpisodicMemory) : list str :=
  ep_id <$> filter untagged ms.

(** The records whose group keys cannot clash: no comma inside a tag or an
    identifier, and the identifiers of the records without tags differ from
    each other and from every tag. *)
Definition WellKeyed (ms : list EpisodicMemory) : Prop :=
  Forall (λ m, commaFree (ep_id m) ∧ Forall commaFree (ep_tags m)) ms
  ∧ NoDup (ownKeys ms)
  ∧ Forall (λ x, x ∉ allTags ms) (ownKeys ms).

(** The first part of a group key. *)
Definition keyHead (key : str) : str := hd [] (Js.splitChar ","%char key).

(** A key that is the join of comma-free parts, the first of which comes
    from [pool]. *)
Definition GoodKey (pool : list str) (key : str) : Prop :=
  ∃ t ts, Forall commaFree (t :: ts)
          ∧ key = Js.join (lit ",") (t :: ts)
          ∧ t ∈ pool.

(** Where the heads of the keys come from: the tags of the records seen so
    far and the identifiers of those without tags. *)
Definition keyPool (seen : list EpisodicMemory) : list str :=
  allTags seen ++ ownKeys seen.

(** The state of the first loop after the records [seen]: the keys are
    well formed with pairwise different heads, the last members of the
    groups, read in map order, appear in that order in the input, the
    members of each group are in input order, and the groups partition the
    records seen. *)
Record GroupsInv (seen : list EpisodicMemory)
    (tagGroups : list (str * list EpisodicMemory))
    (lasts : list EpisodicMemory) : Prop := {
  inv_keys : Forall (GoodKey (keyPool seen)) tagGroups.*1;
  inv_heads : NoDup (keyHead <$> tagGroups.*1);
  inv_lasts : last <$> tagGroups.*2 = Some <$> lasts;
  inv_order : lasts `sublist_of` seen;
  inv_members : Forall (λ g, g `sublist_of` seen) tagGroups.*2;
  inv_partition : concat tagGroups.*2 ≡ₚ seen;
}.

(** ** The tools *)

(** The prefix of the identifiers of each kind. *)
Definition idPrefix (k : MemoryType) : str :=
  match k with
  | procedural => lit "proc"
  | episodic => lit "ep"
  | semantic => lit "sem"
  end.

(** The identifiers held by the store file of a kind. *)
Definition idsOf (k : MemoryType) (d : Disk) : list str :=
  getId <$> readFile k d.

(** A write that carries the fields its kind requires: a name, a trigger
    and at least one step; or a summary; or a text and a category. *)
Definition validWrite (params : MemoryWriteInput) : Prop :=
  match w_type params with
  | procedural =>
      is_Some (present (w_name params)) ∧ is_Some (present (w_trigger params))
      ∧ hasItems (w_steps params) = true
  | episodic => is_Some (present (w_summary params))
  | semantic => is_Some (present (w_text params)) ∧ is_Some (w_category params)
  end.

(** What identifies a fact for the duplicate check: its category and its
    text in lower case. *)
Definition factKey (m : SemanticMemory) : Category * str :=
  (sem_category m, Js.toLowerCase (sem_text m)).

(** The store files [memory_delete] and [memory_read] look into before the
    one of a kind. *)
Definition checkedBefore (k : MemoryType) : list MemoryType :=
  match k with
  | procedural => []
  | episodic => [procedural]
  | semantic => [procedural; episodic]
  end.

(** The fields of a record that [memory_update] has no parameter for. *)
Definition procFixed (m : ProceduralMemory) : str * str * str * str :=
  (proc_id m, proc_name m, proc_created m, proc_sourceSession m).

Definition semFixed (m : SemanticMemory) : str * Category * str * str :=
  (sem_id m, sem_category m, sem_created m, sem_sourceSession m).

Definition epFixed (m : EpisodicMemory)
    : str * str * list str * option Reflection * str * str :=
  (ep_id m, ep_summary m, ep_details m, ep_reflection m, ep_date m,
   ep_sourceSession m).

(** Parameters of [memory_read] and [memory_update] with one field set. *)
Definition readId (id : str) : MemoryReadInput :=
  {| r_type := None; r_id := Some id; r_query := None |}.

Definition updateText (id text : str) : MemoryUpdateInput :=
  {| u_id := id; u_text := Some text; u_steps := None; u_trigger := None;
     u_tags := None |}.

(** Every identifier the three store files hold, in the order [memory_read]
    and [memory_delete] go through the files. *)
Definition storedIds (d : Disk) : list str :=
  idsOf procedural d ++ idsOf episodic d ++ idsOf semantic d.

(** The lines a listing has for a kind with [n] records. *)
Definition listed (n : nat) : nat := if 0 <? n then S n else 0.

(** [memory_read] without parameters, and with a query only. *)
Definition listAll : MemoryReadInput :=
  {| r_type := None; r_id := None; r_query := None |}.

Definition readQuery (query : str) : MemoryReadInput :=
  {| r_type := None; r_id := None; r_query := Some query |}.

(** The records held by the groups of a map. *)
Definition groupMembers (tagGroups : list (str * list EpisodicMemory))
    : list EpisodicMemory :=
  concat tagGroups.*2.

(** The map of the first loop when every record has opened its own group. *)
Definition ownGroups (seen : list EpisodicMemory)
    : list (str * list EpisodicMemory) :=
  (λ m, (openKey m, [m])) <$> seen.

(** The text of a [.zpi] file that declares a scope. *)
Definition zpiFile (scope : str) : str :=
  lit "{" ++ dq ++ lit "memory" ++ dq ++ lit ":{" ++ dq ++ lit "scope" ++ dq
    ++ lit ":" ++ dq ++ scope ++ dq ++ lit "}}".

(** * Sample data

    Concrete inputs on which the properties are instantiated. *)

(** A sample environment: a home directory, the configuration directory
    name, [path.join] on already normal segments, and the JSON reader of
    [JsonText]. *)
Module SampleEnv.
Definition homedir : str := lit "/home/dev".
Definition CONFIG_DIR_NAME : str := lit ".pi".
Definition pathJoin (segments : list str) : str := Js.join (lit "/") segments.

Definition load (fs : FileSystem) (cwd filename : str) (scope : MemoryScope)
    : json :=
  loadStore homedir CONFIG_DIR_NAME pathJoin JsonText.parse fs cwd filename scope.

(** A file system with one file. *)
Definition oneFile (path contents : str) : FileSystem :=
  λ p, if bool_decide (p = path) then Some (File contents) else None.

Definition semanticPath : str := lit "/home/dev/.pi/agent/memory/semantic.json".
End SampleEnv.

(** Records, a world and tool parameters. *)
Module Sample.
Definition deployProc : ProceduralMemory :=
  {| proc_id := lit "proc_001"; proc_name := lit "deploy-service";
     proc_trigger := lit "user asks to deploy";
     proc_steps := [lit "build"; lit "push"]; proc_tags := [lit "infra"];
     proc_created := lit "2025-01-01T10:00:00.000Z";
     proc_updated := lit "2025-01-01T10:00:00.000Z";
     proc_sourceSession := lit "session_1" |}.

Definition releaseProc : ProceduralMemory :=
  {| proc_id := lit "proc_002"; proc_name := lit "release";
     proc_trigger := lit "user asks for a release";
     proc_steps := [lit "tag"]; proc_tags := [];
     proc_created := lit "2025-01-02T10:00:00.000Z";
     proc_updated := lit "2025-01-02T10:00:00.000Z";
     proc_sourceSession := lit "session_2" |}.

Definition tabsFact : SemanticMemory :=
  {| sem_id := lit "sem_001"; sem_category := preference;
     sem_text := lit "use tabs"; sem_tags := [];
     sem_created := lit "2025-01-01T10:00:00.000Z";
     sem_sourceSession := lit "session_1" |}.

Definition episode (id : str) (tags : list str) : EpisodicMemory :=
  {| ep_id := id; ep_summary := lit "summary of " ++ id;
     ep_details := [lit "detail of " ++ id]; ep_reflection := None;
     ep_tags := tags; ep_date := lit "2025-01-03";
     ep_sourceSession := lit "session_3" |}.

Definition world : World :=
  {| disk := {| procedural_json := [deployProc; releaseProc];
                episodic_json := [episode (lit "ep_001") [lit "infra"]];
                semantic_json := [tabsFact] |};
     saves := [];
     ticks := 0 |}.

Definition timeline (n : nat) : str :=
  lit "2025-02-01T00:00:0" ++ Num.toString (Z.of_nat n) ++ lit ".000Z".

Definition ctx : MemoryToolContext :=
  {| cwd := lit "/work"; sessionId := lit "session_9"; scope := project |}.

Definition writeProc (name trigger : str) (steps tags : list str)
    : MemoryWriteInput :=
  {| w_type := procedural; w_name := Some name; w_trigger := Some trigger;
     w_steps := Some steps; w_summary := None; w_details := None;
     w_category := None; w_text := None; w_tags := Some tags;
     w_reflection_mistakes := None; w_reflection_lessons := None |}.

Definition writeFact (category : Category) (text : str) : MemoryWriteInput :=
  {| w_type := semantic; w_name := None; w_trigger := None; w_steps := None;
     w_summary := None; w_details := None; w_category := Some category;
     w_text := Some text; w_tags := None; w_reflection_mistakes := None;
     w_reflection_lessons := None |}.

(** A fact and a procedure whose texts hold the five reserved code
    units. *)
Definition markupFact : SemanticMemory :=
  {| sem_id := lit "sem_001"; sem_category := convention;
     sem_text := lit "a<b && c>d, " ++ dq ++ lit "quoted" ++ dq ++ lit ", it's";
     sem_tags := [];
     sem_created := lit "2025-01-01T10:00:00.000Z";
     sem_sourceSession := lit "session_1" |}.

Definition markupProc : ProceduralMemory :=
  {| proc_id := lit "proc_001"; proc_name := lit "build & ship";
     proc_trigger := lit "user says <ship>";
     proc_steps := [lit "run 'make'"; lit "push"]; proc_tags := [];
     proc_created := lit "2025-01-01T10:00:00.000Z";
     proc_updated := lit "2025-01-01T10:00:00.000Z";
     proc_sourceSession := lit "session_1" |}.

(** Eleven episodes whose tag holds a reserved code unit. *)
Definition elevenEpisodes : list EpisodicMemory :=
  map (λ n, episode (lit "ep_0" ++ Num.padStart0 2 (Num.toString (Z.of_nat n)))
              [lit "a<b"])
      (seq 1 11).
End Sample.

(** * Properties *)

(** Closes a decidable closed goal by running its decision procedure. *)
Ltac by_decide := apply (bool_decide_unpack _); vm_compute; exact I.

(** Closes [canonicalId] for an identifier given with its two parts. *)
Ltac canonical kind digits :=
  exists kind, digits;
  split_and!; [reflexivity|repeat constructor|discriminate|repeat constructor].

(** ** Auxiliary facts *)

Lemma list_find_snoc_new {A} (P : A → Prop) `{∀ x, Decision (P x)}
    (l : list A) (x : A) :
  Forall (λ y, ¬ P y) l → P x → list_find P (l ++ [x]) = Some (length l, x).
Proof.
  intros Hl Hx. apply list_find_Some. split; [|split].
  - by rewrite lookup_app_r, Nat.sub_diag.
  - done.
  - intros j y Hj Hlt. rewrite lookup_app_l in Hj by done.
    rewrite Forall_lookup in Hl. by eapply Hl.
Qed.

Lemma toLowerCase_length (s : str) : length (Js.toLowerCase s) = length s.
Proof. unfold Js.toLowerCase. by rewrite length_map. Qed.

Lemma toLowerCase_nonempty (s t : str) :
  Js.toLowerCase s = Js.toLowerCase t → s ≠ [] → t ≠ [].
Proof.
  intros Heq Hs ->. apply Hs.
  apply (f_equal length) in Heq. rewrite !toLowerCase_length in Heq.
  by destruct s.
Qed.

Lemma present_nonempty (s : str) : s ≠ [] → present (Some s) = Some s.
Proof. by destruct s. Qed.

(** ** memory_delete *)

Lemma deleteFrom_absent (files : list MemoryType) (id : str) (w : World) :
  (∀ k, k ∈ files → Forall (λ m, getId m ≠ id) (readFile k (disk w))) →
  deleteFrom files id w
  = ({| text := lit "No memory found with ID " ++ dq ++ id ++ dq ++ lit ".";
        details := Deleted false |}, w).
Proof.
  induction files as [|k files IH]; intros Habs; [done|].
  cbn [deleteFrom]. unfold mbind, M_bind, loadStoreOf. cbn [memories].
  assert (list_find (λ m : RecordOf k, getId m = id) (readFile k (disk w)) = None)
    as ->.
  { apply list_find_None, Habs. left. }
  apply IH. intros k' Hk'. apply Habs. by right.
Qed.

(** C8.  Deleting an identifier that none of the three collections holds
    returns [deleted: false] and leaves the world as it was: the three
    collections are the same and no [saveStore] call is logged. *)
Theorem memoryDelete_absent_is_noop (id : str) (w : World) :
  Forall (λ m, proc_id m ≠ id) (procedural_json (disk w)) →
  Forall (λ m, ep_id m ≠ id) (episodic_json (disk w)) →
  Forall (λ m, sem_id m ≠ id) (semantic_json (disk w)) →
  let '(result, w') := memoryDelete id w in
  details result = Deleted false
  ∧ saves w' = saves w
  ∧ procedural_json (disk w') = procedural_json (disk w)
  ∧ episodic_json (disk w') = episodic_json (disk w)
  ∧ semantic_json (disk w') = semantic_json (disk w)
  ∧ w' = w.
Proof.
  intros Hp He Hs. unfold memoryDelete.
  rewrite deleteFrom_absent; [done|].
  intros [] _; done.
Qed.

Lemma memoryDelete_absent_is_noop_witness :
  let '(result, w') := memoryDelete (lit "sem_404") Sample.world in
  details result = Deleted false
  ∧ saves w' = saves Sample.world
  ∧ procedural_json (disk w') = procedural_json (disk Sample.world)
  ∧ episodic_json (disk w') = episodic_json (disk Sample.world)
  ∧ semantic_json (disk w') = semantic_json (disk Sample.world)
  ∧ w' = Sample.world.
Proof.
  apply (memoryDelete_absent_is_noop (lit "sem_404") Sample.world);
    vm_compute; repeat constructor; discriminate.
Defined.

(** ** memory_write *)

(** C10.  On the update path of a procedural write (the name is the name of
    a stored procedure) the record found keeps its identifier, creation
    time and source session, the collection keeps its length, and every
    other record, like the two other collections, is left as it was. *)
Theorem writeProcedural_update_frame (timeline : nat → str)
    (ctx : MemoryToolContext) (params : MemoryWriteInput) (w : World)
    (name trigger : str) (steps : list str) :
  w_type params = procedural →
  w_name params = Some name → name ≠ [] →
  w_trigger params = Some trigger → trigger ≠ [] →
  w_steps params = Some steps → steps ≠ [] →
  (∃ m, m ∈ procedural_json (disk w) ∧ proc_name m = name) →
  let '(result, w') := memoryWrite timeline ctx params w in
  ∃ i old new,
    procedural_json (disk w) !! i = Some old
    ∧ proc_name old = name
    ∧ (∀ j m, j < i → procedural_json (disk w) !! j = Some m → proc_name m ≠ name)
    ∧ procedural_json (disk w') !! i = Some new
    ∧ proc_id new = proc_id old
    ∧ proc_created new = proc_created old
    ∧ proc_sourceSession new = proc_sourceSession old
    ∧ length (procedural_json (disk w')) = length (procedural_json (disk w))
    ∧ (∀ j, j ≠ i → procedural_json (disk w') !! j = procedural_json (disk w) !! j)
    ∧ episodic_json (disk w') = episodic_json (disk w)
    ∧ semantic_json (disk w') = semantic_json (disk w)
    ∧ details result = Written updated (proc_id old).
Proof.
  intros Hty Hname Hne Htrig Htne Hsteps Hsne (m & Hin & Hm).
  unfold memoryWrite, writeProcedural. rewrite Hty, Hname, Htrig, Hsteps.
  rewrite !present_nonempty by done.
  destruct steps as [|step more]; [done|].
  unfold mbind, M_bind, loadStoreOf. cbn [memories readFile].
  destruct (list_find_elem_of (λ m, proc_name m = name) _ m Hin Hm)
    as [[i old] Hfind].
  rewrite Hfind. cbn.
  apply list_find_Some in Hfind as (Hi & Hold & Hfirst).
  exists i, old.
  eexists. split_and!.
  - done.
  - done.
  - intros j m' Hj Hm'. by eapply Hfirst.
  - apply list_lookup_insert_eq. by eapply lookup_lt_Some.
  - done.
  - done.
  - done.
  - by rewrite length_insert.
  - intros j Hj. by rewrite list_lookup_insert_ne.
  - done.
  - done.
  - done.
Qed.

Lemma writeProcedural_update_frame_witness :
  let params := Sample.writeProc (lit "release") (lit "before a release")
                  [lit "tag"; lit "publish"] [lit "ship"] in
  let '(result, w') := memoryWrite Sample.timeline Sample.ctx params Sample.world in
  ∃ i old new,
    procedural_json (disk Sample.world) !! i = Some old
    ∧ proc_name old = lit "release"
    ∧ (∀ j m, j < i → procedural_json (disk Sample.world) !! j = Some m →
              proc_name m ≠ lit "release")
    ∧ procedural_json (disk w') !! i = Some new
    ∧ proc_id new = proc_id old
    ∧ proc_created new = proc_created old
    ∧ proc_sourceSession new = proc_sourceSession old
    ∧ length (procedural_json (disk w')) = length (procedural_json (disk Sample.world))
    ∧ (∀ j, j ≠ i → procedural_json (disk w') !! j
                     = procedural_json (disk Sample.world) !! j)
    ∧ episodic_json (disk w') = episodic_json (disk Sample.world)
    ∧ semantic_json (disk w') = semantic_json (disk Sample.world)
    ∧ details result = Written updated (proc_id old).
Proof.
  apply (writeProcedural_update_frame Sample.timeline Sample.ctx
           (Sample.writeProc (lit "release") (lit "before a release")
              [lit "tag"; lit "publish"] [lit "ship"])
           Sample.world (lit "release") (lit "before a release")
           [lit "tag"; lit "publish"]);
    try reflexivity; try discriminate.
  exists Sample.releaseProc. split; [|reflexivity].
  right. left.
Defined.

(** C5.  Writing a fact, then writing a fact of the same category whose
    text is the same up to letter case: both calls answer with the same
    identifier, the second call signals [duplicate], saves nothing and
    leaves the world (so the length of the collection) as the first call
    left it. *)
Theorem writeSemantic_twice_is_duplicate (timeline : nat → str)
    (ctx1 ctx2 : MemoryToolContext) (p1 p2 : MemoryWriteInput) (w : World)
    (text1 text2 : str) (category : Category) :
  w_type p1 = semantic → w_type p2 = semantic →
  w_text p1 = Some text1 → w_text p2 = Some text2 →
  w_category p1 = Some category → w_category p2 = Some category →
  text1 ≠ [] →
  Js.toLowerCase text1 = Js.toLowerCase text2 →
  let '(r1, w1) := memoryWrite timeline ctx1 p1 w in
  let '(r2, w2) := memoryWrite timeline ctx2 p2 w1 in
  ∃ id action,
    details r1 = Written action id
    ∧ details r2 = Written duplicate id
    ∧ saves w2 = saves w1
    ∧ length (semantic_json (disk w2)) = length (semantic_json (disk w1))
    ∧ w2 = w1.
Proof.
  intros Ht1 Ht2 Hx1 Hx2 Hc1 Hc2 Hne Hlow.
  pose proof (toLowerCase_nonempty _ _ Hlow Hne) as Hne2.
  unfold memoryWrite, writeSemantic. rewrite Ht1, Ht2, Hx1, Hx2, Hc1, Hc2.
  rewrite !present_nonempty by done.
  unfold mbind, M_bind, loadStoreOf. cbn [memories readFile].
  destruct (list_find _ (semantic_json (disk w))) as [[i existing]|] eqn:Hfind.
  - cbn. unfold mret, M_ret. cbn [memories readFile].
    assert (list_find
              (λ m, sem_category m = category
                    ∧ Js.toLowerCase (sem_text m) = Js.toLowerCase text2)
              (semantic_json (disk w)) = Some (i, existing)) as ->.
    { apply list_find_Some. apply list_find_Some in Hfind as (? & [? ?] & Hfirst).
      split_and!; [done|done|congruence|].
      intros j y Hj Hlt [? ?]. eapply Hfirst; [done|done|]. split; congruence. }
    by exists (sem_id existing), duplicate.
  - cbn. unfold mret, M_ret. cbn [memories readFile].
    rewrite list_find_snoc_new.
    + eexists _, created. done.
    + apply list_find_None in Hfind. eapply Forall_impl; [exact Hfind|].
      cbn. intros m Hm [? ?]. apply Hm. split; congruence.
    + done.
Qed.

Lemma writeSemantic_twice_is_duplicate_witness :
  let '(r1, w1) := memoryWrite Sample.timeline Sample.ctx
                     (Sample.writeFact convention (lit "Use Spaces")) Sample.world in
  let '(r2, w2) := memoryWrite Sample.timeline Sample.ctx
                     (Sample.writeFact convention (lit "use spaces")) w1 in
  ∃ id action,
    details r1 = Written action id
    ∧ details r2 = Written duplicate id
    ∧ saves w2 = saves w1
    ∧ length (semantic_json (disk w2)) = length (semantic_json (disk w1))
    ∧ w2 = w1.
Proof.
  apply (writeSemantic_twice_is_duplicate Sample.timeline Sample.ctx Sample.ctx
           (Sample.writeFact convention (lit "Use Spaces"))
           (Sample.writeFact convention (lit "use spaces"))
           Sample.world (lit "Use Spaces") (lit "use spaces") convention);
    try reflexivity; discriminate.
Defined.

(** ** Search *)

Lemma startsWith_spec (s w : str) :
  Js.startsWith s w = true ↔ ∃ post, s = w ++ post.
Proof.
  revert s. induction w as [|b w IH]; intros s; cbn.
  - split; [by exists s|done].
  - destruct s as [|a s]; cbn.
    + split; [done|]. by intros [post ?].
    + rewrite andb_true_iff, bool_decide_eq_true, IH. split.
      * intros [-> [post ->]]. by exists post.
      * intros [post [= -> ->]]. split; [done|by exists post].
Qed.

Lemma includes_spec (s w : str) : Js.includes s w = true ↔ IsSubstring w s.
Proof.
  unfold IsSubstring. induction s as [|a s IH]; cbn [Js.includes].
  - rewrite orb_false_r, startsWith_spec. split.
    + intros [post ->]. by exists [], post.
    + intros (pre & post & Heq). symmetry in Heq.
      apply app_eq_nil in Heq as [-> [-> ->]%app_eq_nil]. by exists [].
  - rewrite orb_true_iff, startsWith_spec, IH. split.
    + intros [[post ->]|(pre & post & ->)].
      * by exists [], post.
      * by exists (a :: pre), post.
    + intros ([|c pre] & post & Heq).
      * left. by exists post.
      * injection Heq as -> ->. right. by exists pre, post.
Qed.

#[global] Instance IsSubstring_dec (w s : str) : Decision (IsSubstring w s).
Proof.
  refine (cast_if (decide (Js.includes s w = true))); by rewrite <- includes_spec.
Defined.

Lemma isSpace_lowerChar (c : ascii) : Js.isSpace c = true → Js.lowerChar c = c.
Proof.
  destruct c as [[] [] [] [] [] [] [] []]; vm_compute; congruence.
Qed.

Lemma toLowerCase_blank (s : str) :
  Forall (λ c, Js.isSpace c = true) s → Js.toLowerCase s = s.
Proof.
  unfold Js.toLowerCase. induction 1 as [|c s Hc _ IH]; [done|].
  cbn. by rewrite isSpace_lowerChar, IH.
Qed.

Lemma toLowerCase_app (s t : str) :
  Js.toLowerCase (s ++ t) = Js.toLowerCase s ++ Js.toLowerCase t.
Proof. apply map_app. Qed.

Lemma splitWs_blank (s : str) (inRun : bool) :
  Forall (λ c, Js.isSpace c = true) s →
  filter (λ w, Js.truthy w = true) (Js.splitWsFrom [] inRun s) = [].
Proof.
  intros Hs. revert inRun. induction Hs as [|c s Hc _ IH]; intros inRun; [done|].
  cbn [Js.splitWsFrom]. rewrite Hc. destruct inRun; [apply IH|].
  cbv iota. cbn [rev]. rewrite filter_cons_False by done. apply IH.
Qed.

Lemma queryWords_blank (query : str) :
  Forall (λ c, Js.isSpace c = true) query → queryWords query = [].
Proof.
  intros Hq. unfold queryWords, Js.splitWs.
  rewrite toLowerCase_blank by done. by apply splitWs_blank.
Qed.

Lemma filter_all {A} (P : A → Prop) `{∀ x, Decision (P x)} (l : list A) :
  Forall P l → filter P l = l.
Proof.
  induction 1 as [|x l Hx _ IH]; [done|].
  by rewrite filter_cons_True, IH.
Qed.

Lemma filter_ext_in {A} (P Q : A → Prop)
    `{∀ x, Decision (P x)} `{∀ x, Decision (Q x)} (l : list A) :
  (∀ x, P x ↔ Q x) → filter P l = filter Q l.
Proof.
  intros HPQ. induction l as [|x l IH]; [done|].
  destruct (decide (P x)) as [Hx|Hx].
  - rewrite !filter_cons_True by (done || by apply HPQ). by rewrite IH.
  - rewrite !filter_cons_False by (done || by rewrite <- HPQ). done.
Qed.

Section SearchProperties.
Context `{HasTags T}.

Lemma search_blank (memories : list T) (query : str) (getText : T → str) :
  Forall (λ c, Js.isSpace c = true) query →
  searchMemories memories query getText = memories.
Proof.
  intros Hq. unfold searchMemories. rewrite queryWords_blank by done.
  apply filter_all, Forall_forall. done.
Qed.

Lemma combinedText_haystack (getText : T → str) (m : T) :
  combinedText getText m = haystack getText m.
Proof. unfold combinedText, haystack. by rewrite !toLowerCase_app. Qed.

Lemma search_filter (memories : list T) (query : str) (getText : T → str) :
  searchMemories memories query getText
  = filter
      (λ m, Forall (λ w, IsSubstring w (haystack getText m)) (queryWords query))
      memories.
Proof.
  unfold searchMemories. apply filter_ext_in. intros m.
  rewrite forallb_forall, Forall_forall. setoid_rewrite <- list_elem_of_In.
  setoid_rewrite includes_spec. by rewrite combinedText_haystack.
Qed.
End SearchProperties.

(** C3.  A query made of white space only (the empty query and the query of
    three spaces among them) selects every record, in the original order. *)
Theorem searchMemories_blank_query `{HasTags T}
    (memories : list T) (query : str) (getText : T → str) :
  Forall (λ c, Js.isSpace c = true) query →
  searchMemories memories query getText = memories.
Proof. apply search_blank. Qed.

Lemma searchMemories_blank_query_witness :
  searchMemories [Sample.tabsFact] (lit "   ") sem_text = [Sample.tabsFact].
Proof.
  apply (searchMemories_blank_query [Sample.tabsFact] (lit "   ") sem_text).
  repeat constructor.
Defined.

Lemma Tokens_cons_space (c : ascii) (s : str) (ts : list str) :
  Js.isSpace c = true → Tokens s ts → Tokens (c :: s) ts.
Proof.
  intros Hc Hs. inversion Hs as [ws Hws|ws t rest ts' Hws Ht Hns Hrest Htl]; subst.
  - apply Tokens_blank. by constructor.
  - apply (Tokens_word (c :: ws)); try done. by constructor.
Qed.

Lemma splitWsFrom_tokens (s : str) :
  (∀ inRun, Tokens s (filter (λ w, Js.truthy w = true) (Js.splitWsFrom [] inRun s)))
  ∧ (∀ cur, cur ≠ [] →
       ∃ t rest ts,
         s = t ++ rest
         ∧ Forall (λ c, Js.isSpace c = false) t
         ∧ StartsBlank rest
         ∧ Tokens rest ts
         ∧ filter (λ w, Js.truthy w = true) (Js.splitWsFrom cur false s)
           = (rev cur ++ t) :: ts).
Proof.
  assert (Hrev : ∀ cur : str, cur ≠ [] → Js.truthy (rev cur) = true).
  { intros [|c cur] Hcur; [done|]. cbn. by destruct (rev cur). }
  induction s as [|c r [IH1 IH2]].
  - split.
    + intros inRun. cbn [Js.splitWsFrom rev].
      rewrite filter_cons_False by done. by apply Tokens_blank.
    + intros cur Hcur. exists [], [], []. cbn [Js.splitWsFrom].
      rewrite filter_cons_True by auto.
      split_and!; try done; [by apply Tokens_blank|by rewrite app_nil_r].
  - destruct (Js.isSpace c) eqn:Hc.
    + split.
      * intros inRun. cbn [Js.splitWsFrom]. rewrite Hc.
        apply Tokens_cons_space; [done|].
        destruct inRun; [apply IH1|].
        cbv iota. cbn [rev]. rewrite filter_cons_False by done. apply IH1.
      * intros cur Hcur. cbn [Js.splitWsFrom]. rewrite Hc.
        rewrite filter_cons_True by auto.
        eexists [], (c :: r), _.
        split_and!; try done;
          [apply Tokens_cons_space; [done|apply IH1]|by rewrite app_nil_r].
    + split.
      * intros inRun. cbn [Js.splitWsFrom]. rewrite Hc.
        destruct (IH2 [c]) as (t & rest & ts & -> & Ht & Hrest & Hts & ->); [done|].
        cbn [rev app]. apply (Tokens_word [] (c :: t) rest ts); try done.
        by constructor.
      * intros cur Hcur. cbn [Js.splitWsFrom]. rewrite Hc.
        destruct (IH2 (c :: cur)) as (t & rest & ts & -> & Ht & Hrest & Hts & ->);
          [done|].
        exists (c :: t), rest, ts. cbn [rev]. rewrite <- app_assoc.
        split_and!; try done. by constructor.
Qed.

Lemma queryWords_tokens (query : str) :
  Tokens (Js.toLowerCase query) (queryWords query).
Proof. apply splitWsFrom_tokens. Qed.

(** C7.  The tokens are the white-space separated words of the lower-cased
    query; the result is the sub-list, in collection order, of the records
    whose lower-cased text-plus-tags contains every token as a substring.
    The record "deploy the service" tagged "infra" is found by "deploy
    infra" and not by "deploy database". *)
Theorem searchMemories_conjunctive `{HasTags T}
    (memories : list T) (query : str) (getText : T → str) :
  Tokens (Js.toLowerCase query) (queryWords query)
  ∧ searchMemories memories query getText
    = filter
        (λ m, Forall (λ w, IsSubstring w (haystack getText m)) (queryWords query))
        memories
  ∧ searchMemories [(lit "deploy the service", [lit "infra"])]
                   (lit "deploy infra") fst
    = [(lit "deploy the service", [lit "infra"])]
  ∧ searchMemories [(lit "deploy the service", [lit "infra"])]
                   (lit "deploy database") fst
    = [].
Proof.
  split_and!.
  - apply queryWords_tokens.
  - apply search_filter.
  - by vm_compute.
  - by vm_compute.
Qed.

(** ** loadStore *)

(** C2, as stated, fails: a file that holds [{}] is valid JSON and not of
    the shape [{ memories: [...] }], and [loadStore] returns the object
    without a [memories] property, not the empty collection. *)
Lemma loadStore_wrong_shape_not_empty :
  let fs := SampleEnv.oneFile SampleEnv.semanticPath (lit "{}") in
  let path := storePath SampleEnv.homedir SampleEnv.CONFIG_DIR_NAME
                SampleEnv.pathJoin (lit "/work") (lit "semantic.json") global in
  fs path = Some (File (lit "{}"))
  ∧ ¬ parsesAsStore JsonText.parse (fs path)
  ∧ SampleEnv.load fs (lit "/work") (lit "semantic.json") global = JObject []
  ∧ SampleEnv.load fs (lit "/work") (lit "semantic.json") global ≠ emptyStore.
Proof.
  cbv zeta. split_and!.
  - by vm_compute.
  - intros (raw & v & Hnode & Hparse & items & Hshape).
    vm_compute in Hnode. injection Hnode as <-.
    vm_compute in Hparse. injection Hparse as <-.
    vm_compute in Hshape. discriminate.
  - by vm_compute.
  - by vm_compute.
Qed.

(** C2, amended.  [loadStore] returns the empty collection when the file is
    absent, cannot be read, or holds text that [JSON.parse] refuses; text
    that [JSON.parse] accepts is returned as parsed, whatever its shape. *)
Theorem loadStore_tolerant (homedir CONFIG_DIR_NAME : str)
    (pathJoin : list str → str) (JSON_parse : str → option json)
    (fs : FileSystem) (cwd filename : str) (scope : MemoryScope) :
  let path := storePath homedir CONFIG_DIR_NAME pathJoin cwd filename scope in
  let loaded := loadStore homedir CONFIG_DIR_NAME pathJoin JSON_parse fs
                  cwd filename scope in
  (fs path = None
   ∨ fs path = Some Unreadable
   ∨ (∃ raw, fs path = Some (File raw) ∧ JSON_parse raw = None) →
   loaded = emptyStore)
  ∧ (∀ raw v, fs path = Some (File raw) → JSON_parse raw = Some v → loaded = v).
Proof.
  cbv zeta. unfold loadStore. split.
  - intros [->|[->|(raw & -> & ->)]]; done.
  - intros raw v -> ->. done.
Qed.

Lemma loadStore_tolerant_witness :
  SampleEnv.load (λ _, None) (lit "/work") (lit "semantic.json") project = emptyStore
  ∧ SampleEnv.load (SampleEnv.oneFile SampleEnv.semanticPath (lit "{oops"))
      (lit "/work") (lit "semantic.json") global = emptyStore
  ∧ SampleEnv.load (SampleEnv.oneFile SampleEnv.semanticPath (lit "[]"))
      (lit "/work") (lit "semantic.json") global = JArray [].
Proof.
  split_and!.
  - apply (loadStore_tolerant SampleEnv.homedir SampleEnv.CONFIG_DIR_NAME
             SampleEnv.pathJoin JsonText.parse (λ _, None)).
    left. reflexivity.
  - apply (loadStore_tolerant SampleEnv.homedir SampleEnv.CONFIG_DIR_NAME
             SampleEnv.pathJoin JsonText.parse
             (SampleEnv.oneFile SampleEnv.semanticPath (lit "{oops"))).
    right. right. exists (lit "{oops"). split; vm_compute; reflexivity.
  - apply (proj2 (loadStore_tolerant SampleEnv.homedir SampleEnv.CONFIG_DIR_NAME
             SampleEnv.pathJoin JsonText.parse
             (SampleEnv.oneFile SampleEnv.semanticPath (lit "[]"))
             (lit "/work") (lit "semantic.json") global) (lit "[]"));
      vm_compute; reflexivity.
Defined.

(** ** Compaction *)

Lemma splitChar_app_sep (sep : ascii) (p rest : str) :
  sep ∉ p →
  Js.splitChar sep (p ++ sep :: rest) = p :: Js.splitChar sep rest.
Proof.
  induction p as [|c p IH]; intros Hp; cbn.
  - by rewrite bool_decide_eq_true_2.
  - rewrite not_elem_of_cons in Hp. destruct Hp as [Hc Hp].
    rewrite bool_decide_eq_false_2 by done. by rewrite IH.
Qed.

Lemma splitChar_no_sep (sep : ascii) (p : str) :
  sep ∉ p → Js.splitChar sep p = [p].
Proof.
  induction p as [|c p IH]; intros Hp; cbn; [done|].
  rewrite not_elem_of_cons in Hp. destruct Hp as [Hc Hp].
  rewrite bool_decide_eq_false_2 by done. by rewrite IH.
Qed.

(** Splitting undoes joining when no part holds the separator. *)
Lemma splitChar_join (sep : ascii) (parts : list str) :
  parts ≠ [] → Forall (λ p, sep ∉ p) parts →
  Js.splitChar sep (Js.join [sep] parts) = parts.
Proof.
  intros Hne Hparts. induction Hparts as [|p parts Hp Hrest IH]; [done|].
  destruct parts as [|q parts].
  - cbn. by apply splitChar_no_sep.
  - change (Js.join [sep] (p :: q :: parts))
      with (p ++ sep :: Js.join [sep] (q :: parts)).
    rewrite splitChar_app_sep by done. by rewrite IH.
Qed.

Lemma setAdd_fold_prefix `{EqDecision A} (xs acc : list A) :
  ∃ ext, fold_left Js.setAdd xs acc = acc ++ ext.
Proof.
  revert acc. induction xs as [|x xs IH]; intros acc; cbn.
  - exists []. by rewrite app_nil_r.
  - unfold Js.setAdd at 2. case_bool_decide.
    + apply IH.
    + destruct (IH (acc ++ [x])) as [ext ->]. exists (x :: ext).
      by rewrite <- app_assoc.
Qed.

Lemma setAdd_fold_elem_of `{EqDecision A} (xs acc : list A) (y : A) :
  y ∈ fold_left Js.setAdd xs acc ↔ y ∈ acc ∨ y ∈ xs.
Proof.
  revert acc. induction xs as [|x xs IH]; intros acc; cbn.
  - rewrite elem_of_nil. tauto.
  - rewrite IH, elem_of_cons. unfold Js.setAdd. case_bool_decide.
    + split; [tauto|]. intros [?|[->|?]]; tauto.
    + rewrite elem_of_app, list_elem_of_singleton. tauto.
Qed.

Lemma newSet_elem_of `{EqDecision A} (xs : list A) (y : A) :
  y ∈ Js.newSet xs ↔ y ∈ xs.
Proof.
  unfold Js.newSet. rewrite setAdd_fold_elem_of, elem_of_nil. tauto.
Qed.

(** A set built from a list starts with the first element of the list. *)
Lemma newSet_cons `{EqDecision A} (x : A) (xs : list A) :
  ∃ ext, Js.newSet (x :: xs) = x :: ext.
Proof.
  unfold Js.newSet. cbn. unfold Js.setAdd at 2.
  rewrite bool_decide_eq_false_2 by apply not_elem_of_nil.
  apply (setAdd_fold_prefix xs [x]).
Qed.

Lemma newSet_singleton `{EqDecision A} (x : A) : Js.newSet [x] = [x].
Proof.
  unfold Js.newSet, Js.setAdd. cbn.
  by rewrite bool_decide_eq_false_2 by apply not_elem_of_nil.
Qed.

Lemma groupTagsOf_single (t : str) : commaFree t → groupTagsOf t = [t].
Proof.
  intros Ht. unfold groupTagsOf. rewrite splitChar_no_sep by done.
  apply newSet_singleton.
Qed.

Lemma sharesTag_true (m : EpisodicMemory) (key : str) :
  sharesTag m key = true ↔ ∃ t, t ∈ ep_tags m ∧ t ∈ groupTagsOf key.
Proof.
  unfold sharesTag. rewrite existsb_exists.
  setoid_rewrite <- list_elem_of_In. setoid_rewrite bool_decide_eq_true. done.
Qed.

Lemma sharesTag_false (m : EpisodicMemory) (key : str) :
  sharesTag m key = false ↔ ∀ t, t ∈ ep_tags m → t ∉ groupTagsOf key.
Proof.
  rewrite <- not_true_iff_false, sharesTag_true. split.
  - intros Hno t Ht Hin. apply Hno. by exists t.
  - intros Hno (t & Ht & Hin). by apply (Hno t).
Qed.

Lemma placeMemory_open (tagGroups : TagGroups) (m : EpisodicMemory) :
  Forall (λ e, sharesTag m e.1 = false) tagGroups →
  placeMemory tagGroups m = mapSet (openKey m) [m] tagGroups.
Proof.
  intros Hno. unfold placeMemory.
  assert (list_find (λ e, sharesTag m e.1 = true) tagGroups = None) as ->; [|done].
  apply list_find_None. eapply Forall_impl; [exact Hno|]. cbn. congruence.
Qed.

Lemma placeMemory_join (before after : TagGroups) (key : str)
    (group : list EpisodicMemory) (m : EpisodicMemory) :
  Forall (λ e, sharesTag m e.1 = false) before →
  sharesTag m key = true →
  placeMemory (before ++ (key, group) :: after) m
  = mapSet (joinKey key m) (group ++ [m])
      (mapDelete key (before ++ (key, group) :: after)).
Proof.
  intros Hno Hyes. unfold placeMemory.
  assert (list_find (λ e, sharesTag m e.1 = true) (before ++ (key, group) :: after)
          = Some (length before, (key, group))) as ->; [|done].
  apply list_find_Some. split_and!.
  - by rewrite lookup_app_r, Nat.sub_diag.
  - done.
  - intros j e Hj Hlt. rewrite lookup_app_l in Hj by done.
    rewrite Forall_lookup in Hno. specialize (Hno j e Hj). cbn in Hno. congruence.
Qed.

Lemma mapSet_fresh {V} (key : str) (v : V) (m : list (str * V)) :
  key ∉ m.*1 → mapSet key v m = m ++ [(key, v)].
Proof.
  induction m as [|[k x] m IH]; intros Hfresh; cbn; [done|].
  cbn in Hfresh. rewrite not_elem_of_cons in Hfresh. destruct Hfresh as [Hk Hm].
  rewrite bool_decide_eq_false_2 by done. by rewrite IH.
Qed.

Lemma mapDelete_absent {V} (key : str) (m : list (str * V)) :
  key ∉ m.*1 → mapDelete key m = m.
Proof.
  intros Hkey. unfold mapDelete. apply filter_all, Forall_forall.
  intros [k x] Hin Heq. cbn in Heq. subst k.
  apply Hkey. apply list_elem_of_fmap. by exists (key, x).
Qed.

Lemma mapDelete_middle {V} (key : str) (v : V) (before after : list (str * V)) :
  key ∉ before.*1 → key ∉ after.*1 →
  mapDelete key (before ++ (key, v) :: after) = before ++ after.
Proof.
  intros Hb Ha. unfold mapDelete. rewrite filter_app, filter_cons_False by naive_solver.
  fold (mapDelete key before). fold (mapDelete key after).
  by rewrite !mapDelete_absent.
Qed.

Lemma newSet_pair_dup `{EqDecision A} (x y : A) :
  x ≠ y → Js.newSet ([x] ++ x :: y :: []) = [x; y].
Proof.
  intros Hxy. unfold Js.newSet. cbn [app fold_left].
  unfold Js.setAdd at 3. rewrite bool_decide_eq_false_2 by apply not_elem_of_nil.
  unfold Js.setAdd at 2. rewrite bool_decide_eq_true_2 by (cbn; left).
  unfold Js.setAdd. rewrite bool_decide_eq_false_2; [done|].
  cbn. rewrite list_elem_of_singleton. congruence.
Qed.

(** C1, as stated, fails: the three records with tags a / b / a,b come out
    as two records, the second one alone and then the first and third
    merged. *)
Lemma three_tagged_episodes_give_two_records :
  let e1 := Sample.episode (lit "ep_001") [lit "a"] in
  let e2 := Sample.episode (lit "ep_002") [lit "b"] in
  let e3 := Sample.episode (lit "ep_003") [lit "a"; lit "b"] in
  compactEpisodicMemories [e1; e2; e3] = e2 :: consolidate [e1; e3]
  ∧ length (compactEpisodicMemories [e1; e2; e3]) = 2
  ∧ compactEpisodicMemories [e1; e2; e3] ≠ consolidate [e1; e2; e3]
  ∧ ¬ ∃ merged, compactEpisodicMemories [e1; e2; e3] = [merged].
Proof.
  cbv zeta. split_and!.
  - by vm_compute.
  - by vm_compute.
  - by vm_compute.
  - intros [merged Heq]. vm_compute in Heq. discriminate.
Qed.

(** C1, amended.  Three records with the tags [a], [b] and [a, b], in
    that order, compact into two records: the second record as it is,
    followed by the consolidation of the first and the third.  The third
    record joins the first group whose key shares a tag with it, the group
    of the first record, and that group, renamed, moves behind the group of
    the second record. *)
Theorem compact_a_b_ab (m1 m2 m3 : EpisodicMemory) (a b : str) :
  a ≠ b → a ≠ [] → b ≠ [] → commaFree a → commaFree b →
  ep_tags m1 = [a] → ep_tags m2 = [b] → ep_tags m3 = [a; b] →
  compactEpisodicMemories [m1; m2; m3]
  = [ m2;
      {| ep_id := ep_id m1;
         ep_summary := lit "Consolidated: " ++ ep_summary m1 ++ lit "; "
                         ++ ep_summary m3;
         ep_details := Js.newSet (ep_details m1 ++ ep_details m3);
         ep_reflection :=
           let allMistakes := reflectionMistakes m1 ++ reflectionMistakes m3 in
           let allLessons := reflectionLessons m1 ++ reflectionLessons m3 in
           if (0 <? length allMistakes) || (0 <? length allLessons)
           then Some {| mistakes := Js.newSet allMistakes;
                        lessons := Js.newSet allLessons |}
           else None;
         ep_tags := [a; b];
         ep_date := ep_date m3;
         ep_sourceSession := ep_sourceSession m3 |} ].
Proof.
  intros Hab Ha Hb Hca Hcb H1 H2 H3.
  assert (Hk1 : openKey m1 = a).
  { unfold openKey. rewrite H1. cbn. by destruct a. }
  assert (Hk2 : openKey m2 = b).
  { unfold openKey. rewrite H2. cbn. by destruct b. }
  assert (Hk3 : joinKey a m3 = a ++ lit "," ++ b).
  { unfold joinKey. rewrite H3, groupTagsOf_single by done.
    by rewrite (newSet_pair_dup a b). }
  unfold compactEpisodicMemories, buildTagGroups. cbn [length Nat.leb fold_left].
  rewrite (placeMemory_open [] m1) by constructor. rewrite Hk1. cbn [mapSet].
  rewrite (placeMemory_open [(a, [m1])] m2).
  2:{ constructor; [|constructor]. cbn. apply sharesTag_false. intros t.
      rewrite H2, groupTagsOf_single, !list_elem_of_singleton by done. congruence. }
  rewrite Hk2, mapSet_fresh.
  2:{ cbn. rewrite list_elem_of_singleton. congruence. }
  cbn [app].
  pose proof (placeMemory_join [] [(b, [m2])] a [m1] m3) as Hjoin.
  cbn [app] in Hjoin. rewrite Hjoin; clear Hjoin.
  2:{ constructor. }
  2:{ apply sharesTag_true. exists a. rewrite H3, groupTagsOf_single by done.
      split; left. }
  rewrite Hk3.
  pose proof (mapDelete_middle a [m1] [] [(b, [m2])]) as Hdel.
  cbn [app] in Hdel. rewrite Hdel; clear Hdel.
  2:{ apply not_elem_of_nil. }
  2:{ cbn. rewrite list_elem_of_singleton. done. }
  rewrite mapSet_fresh.
  2:{ cbn. rewrite list_elem_of_singleton. intros Heq.
      apply (f_equal length) in Heq. rewrite !length_app in Heq. cbn in Heq. lia. }
  cbn. rewrite H1, H3. cbn [app]. rewrite !app_nil_r.
  pose proof (newSet_pair_dup a b Hab) as Hset.
  unfold Js.newSet in Hset. cbn [app] in Hset. by rewrite Hset.
Qed.

Lemma compact_a_b_ab_witness :
  let e1 := Sample.episode (lit "ep_001") [lit "a"] in
  let e2 := Sample.episode (lit "ep_002") [lit "b"] in
  let e3 := Sample.episode (lit "ep_003") [lit "a"; lit "b"] in
  compactEpisodicMemories [e1; e2; e3]
  = [ e2;
      {| ep_id := lit "ep_001";
         ep_summary := lit "Consolidated: summary of ep_001; summary of ep_003";
         ep_details := [lit "detail of ep_001"; lit "detail of ep_003"];
         ep_reflection := None;
         ep_tags := [lit "a"; lit "b"];
         ep_date := lit "2025-01-03";
         ep_sourceSession := lit "session_3" |} ].
Proof.
  cbv zeta.
  apply (compact_a_b_ab (Sample.episode (lit "ep_001") [lit "a"])
           (Sample.episode (lit "ep_002") [lit "b"])
           (Sample.episode (lit "ep_003") [lit "a"; lit "b"])
           (lit "a") (lit "b"));
    try reflexivity; try discriminate; by_decide.
Defined.

(** ** The prompt section *)

Lemma replaceAll_app (c : ascii) (rep s t : str) :
  replaceAll c rep (s ++ t) = replaceAll c rep s ++ replaceAll c rep t.
Proof. apply flat_map_app. Qed.

Lemma escapeXml_app (s t : str) : escapeXml (s ++ t) = escapeXml s ++ escapeXml t.
Proof. unfold escapeXml. by rewrite !replaceAll_app. Qed.

Lemma escapeXml_one (c : ascii) : escapeXml [c] = entityOf c.
Proof. destruct c as [[] [] [] [] [] [] [] []]; by vm_compute. Qed.

(** The five passes of [escapeXml] amount to one pass that maps each code
    unit to its entity: no pass rewrites what an earlier one produced. *)
Lemma escapeXml_xmlEscaped (s : str) : escapeXml s = xmlEscaped s.
Proof.
  induction s as [|c s IH]; [done|].
  change (c :: s) with ([c] ++ s).
  rewrite escapeXml_app, escapeXml_one, IH. done.
Qed.

Lemma entityOf_safe (c : ascii) :
  Forall (λ x, x ∉ ["<"%char; ">"%char; JsonText.dquote; "'"%char]) (entityOf c).
Proof.
  destruct c as [[] [] [] [] [] [] [] []];
    apply (bool_decide_unpack _); by vm_compute.
Qed.

Lemma xmlEscaped_safe (s : str) :
  Forall (λ x, x ∉ ["<"%char; ">"%char; JsonText.dquote; "'"%char]) (xmlEscaped s).
Proof.
  induction s as [|c s IH]; [constructor|].
  cbn. apply Forall_app. split; [apply entityOf_safe|apply IH].
Qed.

Lemma sliceLast_suffix {A} (n : nat) (xs : list A) :
  ∃ older, xs = older ++ sliceLast n xs
           ∧ length (sliceLast n xs) = Nat.min n (length xs).
Proof.
  exists (take (length xs - n) xs). unfold sliceLast. split.
  - by rewrite take_drop.
  - rewrite length_drop. lia.
Qed.

(** C9, as stated, fails: with one fact stored and no episode the store is
    not empty, and the block has no episodic section at all. *)
Lemma prompt_without_episodes_has_no_episodic_section :
  let d := {| procedural_json := []; episodic_json := [];
              semantic_json := [Sample.tabsFact] |} in
  length (procedural_json d) + length (episodic_json d)
    + length (semantic_json d) = 1
  ∧ ¬ IsSubstring (lit "recent_episodic_memories") (buildMemoryPromptSection d)
  ∧ IsSubstring (lit "<semantic_memories>") (buildMemoryPromptSection d).
Proof.
  cbv zeta. split_and!.
  - reflexivity.
  - rewrite <- includes_spec. by vm_compute.
  - rewrite <- includes_spec. by vm_compute.
Qed.

(** C9, amended.  When the store is not empty, the block is the preamble,
    the section of all facts, the section of all procedures and the
    episodic section, each one present exactly when its collection is not
    empty, and the closing tag.  The episodic section holds the last ten
    episodes (all of them if there are fewer), in collection order.  In
    every line the free-text fields (text; name, trigger, steps; summary,
    details and lessons) go through the escape, which replaces each of the
    five reserved code units by its entity. *)
Theorem prompt_episodic_section_and_escaping (d : Disk) :
  0 < length (semantic_json d) + length (procedural_json d)
      + length (episodic_json d) →
  ∃ older recent,
    episodic_json d = older ++ recent
    ∧ length recent = Nat.min 10 (length (episodic_json d))
    ∧ buildMemoryPromptSection d
      = Js.join nl
          ([memoryPreamble]
           ++ match semantic_json d with
              | [] => []
              | facts => [nl ++ lit "<semantic_memories>"]
                         ++ map semanticLine facts
                         ++ [lit "</semantic_memories>"]
              end
           ++ match procedural_json d with
              | [] => []
              | procedures => [nl ++ lit "<procedural_memories>"]
                              ++ map proceduralLine procedures
                              ++ [lit "</procedural_memories>"]
              end
           ++ match recent with
              | [] => []
              | episodes => [nl ++ lit "<recent_episodic_memories>"]
                            ++ map episodeLine episodes
                            ++ [lit "</recent_episodic_memories>"]
              end
           ++ [nl ++ lit "</memory_system>"])
    ∧ (∀ m, semanticLine m
            = lit "  <memory id=" ++ dq ++ sem_id m ++ dq ++ lit " category=" ++ dq
                ++ categoryName (sem_category m) ++ dq ++ lit ">"
                ++ xmlEscaped (sem_text m) ++ lit "</memory>")
    ∧ (∀ m, proceduralLine m
            = lit "  <procedure id=" ++ dq ++ proc_id m ++ dq ++ lit " name=" ++ dq
                ++ xmlEscaped (proc_name m) ++ dq ++ lit " trigger=" ++ dq
                ++ xmlEscaped (proc_trigger m) ++ dq ++ lit ">"
                ++ xmlEscaped (Js.join (lit "; ") (numberedSteps (proc_steps m)))
                ++ lit "</procedure>")
    ∧ (∀ m, episodeLine m
            = lit "  <episode id=" ++ dq ++ ep_id m ++ dq ++ lit " date=" ++ dq
                ++ ep_date m ++ dq ++ lit " summary=" ++ dq
                ++ xmlEscaped (ep_summary m) ++ dq ++ lit ">"
                ++ xmlEscaped (episodeText m) ++ lit "</episode>")
    ∧ (∀ s, Forall (λ x, x ∉ ["<"%char; ">"%char; JsonText.dquote; "'"%char])
              (xmlEscaped s)).
Proof.
  intros Hsome.
  destruct (sliceLast_suffix 10 (episodic_json d)) as (older & Hsplit & Hlen).
  exists older, (sliceLast 10 (episodic_json d)). split_and!.
  - done.
  - done.
  - unfold buildMemoryPromptSection, promptParts. cbv zeta.
    destruct (sliceLast 10 (episodic_json d)) as [|r recent] eqn:Hrecent.
    + assert (episodic_json d = []) as Heps.
      { destruct (episodic_json d); [done|]. cbn in Hlen. lia. }
      rewrite Heps in *.
      destruct (semantic_json d), (procedural_json d);
        cbn [length Nat.ltb Nat.leb Nat.eqb andb] in *; [lia|..];
        cbv iota; rewrite <- ?app_assoc; reflexivity.
    + destruct (episodic_json d) as [|e eps]; [done|].
      rewrite !andb_false_r. cbn [length Nat.ltb Nat.leb].
      destruct (semantic_json d), (procedural_json d);
        cbn [length Nat.ltb Nat.leb]; cbv iota;
        rewrite <- ?app_assoc; reflexivity.
  - intros m. unfold semanticLine. by rewrite escapeXml_xmlEscaped.
  - intros m. unfold proceduralLine. by rewrite !escapeXml_xmlEscaped.
  - intros m. unfold episodeLine. by rewrite !escapeXml_xmlEscaped.
  - apply xmlEscaped_safe.
Qed.

Lemma prompt_episodic_section_and_escaping_witness :
  let d := {| procedural_json := [Sample.markupProc]; episodic_json := [];
              semantic_json := [Sample.markupFact] |} in
  buildMemoryPromptSection d
  = Js.join nl
      [ memoryPreamble;
        nl ++ lit "<semantic_memories>";
        semanticLine Sample.markupFact;
        lit "</semantic_memories>";
        nl ++ lit "<procedural_memories>";
        proceduralLine Sample.markupProc;
        lit "</procedural_memories>";
        nl ++ lit "</memory_system>" ]
  ∧ semanticLine Sample.markupFact
    = lit "  <memory id=" ++ dq ++ lit "sem_001" ++ dq ++ lit " category=" ++ dq
        ++ lit "convention" ++ dq ++ lit ">"
        ++ lit "a&lt;b &amp;&amp; c&gt;d, &quot;quoted&quot;, it&apos;s"
        ++ lit "</memory>"
  ∧ proceduralLine Sample.markupProc
    = lit "  <procedure id=" ++ dq ++ lit "proc_001" ++ dq ++ lit " name=" ++ dq
        ++ lit "build &amp; ship" ++ dq ++ lit " trigger=" ++ dq
        ++ lit "user says &lt;ship&gt;" ++ dq ++ lit ">"
        ++ lit "1. run &apos;make&apos;; 2. push" ++ lit "</procedure>"
  ∧ ∃ older recent,
      Sample.elevenEpisodes = older ++ recent
      ∧ length older = 1
      ∧ length recent = 10
      ∧ buildMemoryPromptSection
          {| procedural_json := []; episodic_json := Sample.elevenEpisodes;
             semantic_json := [] |}
        = Js.join nl
            ([memoryPreamble]
             ++ [nl ++ lit "<recent_episodic_memories>"]
             ++ map episodeLine recent
             ++ [lit "</recent_episodic_memories>"]
             ++ [nl ++ lit "</memory_system>"]).
Proof.
  cbv zeta.
  destruct (prompt_episodic_section_and_escaping
              {| procedural_json := [Sample.markupProc]; episodic_json := [];
                 semantic_json := [Sample.markupFact] |})
    as (older & recent & Hsplit & _ & Hblock & Hfact & Hproc & _).
  { cbn. lia. }
  cbn [episodic_json] in Hsplit. symmetry in Hsplit.
  apply app_eq_nil in Hsplit as [_ ->].
  destruct (prompt_episodic_section_and_escaping
              {| procedural_json := []; episodic_json := Sample.elevenEpisodes;
                 semantic_json := [] |})
    as (older' & recent' & Hsplit' & Hlen' & Hblock' & _).
  { cbn. lia. }
  cbn [episodic_json semantic_json procedural_json] in Hsplit', Hlen', Hblock'.
  split_and!.
  - exact Hblock.
  - etrans; [apply Hfact|by vm_compute].
  - etrans; [apply Hproc|by vm_compute].
  - exists older', recent'.
    assert (length recent' = 10) as Hten by (rewrite Hlen'; by vm_compute).
    split_and!; [exact Hsplit'| |exact Hten|].
    + apply (f_equal length) in Hsplit'. rewrite length_app, Hten in Hsplit'.
      cbn in Hsplit'. lia.
    + rewrite Hblock'. destruct recent'; [done|]. by rewrite <- !app_assoc.
Defined.

(** ** Identifier allocation *)

(** C4, as stated, fails: a suffix that starts with digits counts for its
    leading number, and so does an identifier under no prefix at all. *)
Lemma generateId_counts_leading_digits :
  generateId (lit "proc") {| memories := [lit "proc_12ab"] |} = lit "proc_013"
  ∧ specNextId (lit "proc") [lit "proc_12ab"] = lit "proc_001"
  ∧ generateId (lit "proc") {| memories := [lit "7_up"] |} = lit "proc_008"
  ∧ specNextId (lit "proc") [lit "7_up"] = lit "proc_001".
Proof. split_and!; by vm_compute. Qed.

Lemma isLetter_plain (c : ascii) :
  isLetter c = true →
  c ≠ "_"%char ∧ Num.isDigit c = false ∧ Js.isSpace c = false
  ∧ c ≠ "-"%char ∧ c ≠ "+"%char.
Proof.
  destruct c as [[] [] [] [] [] [] [] []]; vm_compute; intros; split_and!; congruence.
Qed.

Lemma isDigit_plain (c : ascii) :
  Num.isDigit c = true →
  Js.isSpace c = false ∧ c ≠ "-"%char ∧ c ≠ "+"%char.
Proof.
  destruct c as [[] [] [] [] [] [] [] []]; vm_compute; intros; split_and!; congruence.
Qed.

Lemma underscore_plain :
  Num.isDigit "_"%char = false ∧ Js.isSpace "_"%char = false.
Proof. by vm_compute. Qed.

(** [prefix_] starts [kind_digits] only when the kind is the prefix. *)
Lemma startsWith_kind (prefix kind rest : str) :
  Forall (λ c, isLetter c = true) prefix →
  Forall (λ c, isLetter c = true) kind →
  Js.startsWith (kind ++ lit "_" ++ rest) (prefix ++ lit "_") = true →
  kind = prefix.
Proof.
  intros Hp. revert kind. induction Hp as [|b prefix Hb _ IH]; intros kind Hk.
  - destruct Hk as [|c kind Hc _]; [done|].
    cbn. rewrite andb_true_iff, bool_decide_eq_true. intros [-> _].
    by apply isLetter_plain in Hc as [? _].
  - destruct Hk as [|c kind Hc Hk].
    + cbn. rewrite andb_true_iff, bool_decide_eq_true. intros [<- _].
      by apply isLetter_plain in Hb as [? _].
    + cbn. rewrite andb_true_iff, bool_decide_eq_true. intros [-> Hrest].
      f_equal. by apply IH.
Qed.

Lemma startsWith_refl_app (s t : str) : Js.startsWith (s ++ t) s = true.
Proof. apply startsWith_spec. by exists t. Qed.

Lemma parseInt_numeral (digits : str) :
  digits ≠ [] → Forall (λ c, Num.isDigit c = true) digits →
  Num.parseIntExact digits = Some (Num.readDigits 0 digits).
Proof.
  intros Hne Hd. destruct Hd as [|d digits Hd _]; [done|].
  destruct (isDigit_plain d Hd) as (Hs & Hm & Hp).
  unfold Num.parseIntExact. cbn [Num.trimStart]. rewrite Hs.
  rewrite !bool_decide_eq_false_2 by done. rewrite Hd.
  f_equal. lia.
Qed.

Lemma parseInt_plain_head (c : ascii) (rest : str) :
  Num.isDigit c = false → Js.isSpace c = false → c ≠ "-"%char → c ≠ "+"%char →
  Num.parseIntExact (c :: rest) = None.
Proof.
  intros Hd Hs Hm Hp. unfold Num.parseIntExact. cbn [Num.trimStart]. rewrite Hs.
  rewrite !bool_decide_eq_false_2 by done. by rewrite Hd.
Qed.

Lemma replaceFirst_head (pat rep : str) (c : ascii) (rest : str) :
  Js.startsWith (c :: rest) pat = false →
  replaceFirst pat rep (c :: rest) = c :: replaceFirst pat rep rest.
Proof. intros Hno. cbn [replaceFirst]. by rewrite Hno. Qed.

Lemma replaceFirst_at_start (pat rep s : str) :
  Js.startsWith s pat = true →
  replaceFirst pat rep s = rep ++ drop (length pat) s.
Proof. intros Hst. destruct s; cbn [replaceFirst]; by rewrite Hst. Qed.

Lemma readDigits_nonneg (s : str) (acc : Z) :
  (0 ≤ acc)%Z → (0 ≤ Num.readDigits acc s)%Z.
Proof.
  revert acc. induction s as [|c s IH]; intros acc Hacc; cbn; [done|].
  destruct (Num.isDigit c) eqn:Hc; [|done].
  apply IH. unfold Num.digitVal. unfold Num.isDigit in Hc.
  apply andb_true_iff in Hc as [H1%Nat.leb_le _]. lia.
Qed.

Lemma numeralValue_numeral (digits : str) :
  digits ≠ [] → Forall (λ c, Num.isDigit c = true) digits →
  numeralValue digits = Some (Num.readDigits 0 digits).
Proof.
  intros Hne Hd. unfold numeralValue.
  assert (forallb Num.isDigit digits = true) as ->.
  { apply forallb_forall. intros c Hc%list_elem_of_In.
    rewrite Forall_forall in Hd. by apply Hd. }
  by destruct digits.
Qed.

(** What the loop of [generateId] reads from a canonical identifier is its
    number under the prefix, when it has one. *)
Lemma parse_canonical (prefix id : str) :
  Forall (λ c, isLetter c = true) prefix → canonicalId id →
  (0 ≤ suffixNumber prefix id)%Z
  ∧ (Num.parseIntExact (replaceFirst (prefix ++ lit "_") [] id)
       = Some (suffixNumber prefix id)
     ∨ (Num.parseIntExact (replaceFirst (prefix ++ lit "_") [] id) = None
        ∧ suffixNumber prefix id = 0%Z)).
Proof.
  intros Hp (kind & digits & -> & Hk & Hne & Hd).
  unfold suffixNumber, underPrefix.
  destruct (Js.startsWith (kind ++ lit "_" ++ digits) (prefix ++ lit "_")) eqn:Hst.
  - apply startsWith_kind in Hst as ->; [|done..].
    assert (Hdrop : drop (length prefix + 1) (prefix ++ lit "_" ++ digits) = digits).
    { rewrite app_assoc, drop_app_length'; [done|]. by rewrite length_app. }
    assert (Hrep : replaceFirst (prefix ++ lit "_") [] (prefix ++ lit "_" ++ digits)
                   = digits).
    { rewrite replaceFirst_at_start.
      - rewrite length_app. apply Hdrop.
      - rewrite app_assoc. apply startsWith_refl_app. }
    rewrite Hrep, Hdrop. cbn. rewrite numeralValue_numeral by done. cbn.
    split; [by apply readDigits_nonneg|]. left. by apply parseInt_numeral.
  - cbn. split; [done|]. right. split; [|done].
    destruct kind as [|c kind].
    + cbn [app lit list_ascii_of_string] in *.
      rewrite replaceFirst_head by done.
      destruct underscore_plain. by apply parseInt_plain_head.
    + cbn [app] in *. rewrite replaceFirst_head by done.
      apply Forall_cons in Hk as [Hc _].
      apply isLetter_plain in Hc as (? & ? & ? & ? & ?).
      by apply parseInt_plain_head.
Qed.

Lemma suffixNumbers_nonneg (prefix : str) (ids : list str) :
  (0 ≤ foldr Z.max 0 (map (suffixNumber prefix) ids))%Z.
Proof. induction ids as [|id ids IH]; cbn; lia. Qed.

(** *** Arithmetic of doubles below 2^53 *)

Lemma maxSafeInteger_value : Num.maxSafeInteger = 9007199254740991%Z.
Proof. reflexivity. Qed.

Lemma two_pow_53_value : (2 ^ 53 = 9007199254740992)%Z.
Proof. reflexivity. Qed.

Lemma two_pow_1024_large : (9007199254740992 < 2 ^ 1024)%Z.
Proof. rewrite <- two_pow_53_value. by apply Z.pow_lt_mono_r. Qed.

Lemma roundToDouble_nonneg (z : Z) : (0 ≤ z)%Z → (0 ≤ Num.roundToDouble z)%Z.
Proof.
  intros Hz. unfold Num.roundToDouble. case_match; [done|].
  apply Z.shiftl_nonneg.
  assert (0 ≤ Z.shiftr z (Z.log2 z - 52))%Z by by apply Z.shiftr_nonneg.
  case_match; lia.
Qed.

(** An integer of magnitude below 2^53 is a number as it stands. *)
Lemma toNumber_safe (z : Z) :
  (- 2 ^ 53 < z < 2 ^ 53)%Z → Num.toNumber z = Num.Finite z.
Proof.
  rewrite two_pow_53_value. intros Hz. unfold Num.toNumber, Num.roundToDouble.
  rewrite two_pow_53_value.
  destruct (Z.ltb_spec (Z.abs z) 9007199254740992); [|lia].
  pose proof two_pow_1024_large.
  destruct (Z.leb_spec (2 ^ 1024) (Z.abs z)); [lia|].
  f_equal. lia.
Qed.

(** Comparing what [parseInt] made of a small integer with the running
    maximum is comparing the integers; a negative integer, however large,
    never wins. *)
Lemma gt_toNumber (z acc : Z) :
  (0 ≤ acc)%Z → (z < Num.maxSafeInteger)%Z →
  Num.gt (Num.toNumber z) (Num.Finite acc) = (acc <? z)%Z
  ∧ ((acc < z)%Z → Num.toNumber z = Num.Finite z).
Proof.
  rewrite maxSafeInteger_value. intros Hacc Hz.
  destruct (Z.le_gt_cases 0 z) as [Hpos|Hneg].
  - rewrite toNumber_safe by (rewrite two_pow_53_value; lia). done.
  - split; [|lia]. unfold Num.toNumber.
    pose proof (roundToDouble_nonneg (Z.abs z) (Z.abs_nonneg z)) as Hm.
    destruct (Z.ltb_spec z 0); [|lia].
    destruct (2 ^ 1024 <=? Num.roundToDouble (Z.abs z))%Z; cbn [Num.gt].
    + symmetry. apply Z.ltb_ge. lia.
    + replace (Z.sgn z) with (-1)%Z by lia.
      destruct (Z.ltb_spec acc (-1 * Num.roundToDouble (Z.abs z)));
        destruct (Z.ltb_spec acc z); lia.
Qed.

Lemma readNumbers_nonneg (prefix : str) (ids : list str) :
  (0 ≤ foldr Z.max 0 (map (readNumber prefix) ids))%Z.
Proof. induction ids as [|id ids IH]; cbn; lia. Qed.

Lemma readNumbers_safe (prefix : str) (ids : list str) :
  safeIds prefix ids →
  (foldr Z.max 0 (map (readNumber prefix) ids) < Num.maxSafeInteger)%Z.
Proof.
  rewrite maxSafeInteger_value.
  induction 1 as [|id ids Hid _ IH]; cbn; [done|].
  rewrite maxSafeInteger_value in Hid. lia.
Qed.

(** What the loop of [generateId] computes, while the numbers are safe. *)
Lemma generateId_loop_safe `{HasId T} (prefix : str) (l : list T) (acc : Z) :
  safeIds prefix (map getId l) → (0 ≤ acc)%Z →
  fold_left
    (λ (max : Num.number) (m : T),
       match Num.parseInt (replaceFirst (prefix ++ lit "_") [] (getId m)) with
       | Some num => if Num.gt num max then num else max
       | None => max
       end) l (Num.Finite acc)
  = Num.Finite (Z.max acc (foldr Z.max 0%Z (map (readNumber prefix) (map getId l)))).
Proof.
  revert acc. induction l as [|m l IH]; intros acc Hsafe Hacc.
  - cbn. f_equal. lia.
  - apply Forall_cons in Hsafe as [Hm Hsafe].
    pose proof (readNumbers_nonneg prefix (map getId l)) as Hnonneg.
    cbn [fold_left map foldr]. unfold readNumber in Hm. unfold readNumber at 1.
    unfold Num.parseInt.
    destruct (Num.parseIntExact _) as [num|]; cbn [fmap option_fmap option_map
      default from_option Datatypes.id] in *.
    + destruct (gt_toNumber num acc Hacc Hm) as [-> Hfinite].
      destruct (Z.ltb_spec acc num).
      * rewrite Hfinite, IH by (done || lia). f_equal. lia.
      * rewrite IH by done. f_equal. lia.
    + rewrite IH by done. f_equal. lia.
Qed.

(** While the numbers are safe, [generateId] counts exactly. *)
Lemma generateId_safe `{HasId T} (prefix : str) (store : MemoryStore T) :
  safeIds prefix (map getId (memories store)) →
  generateId prefix store
  = prefix ++ lit "_"
      ++ Num.padStart0 3
           (Num.toString
              (1 + foldr Z.max 0%Z
                     (map (readNumber prefix) (map getId (memories store))))).
Proof.
  intros Hsafe. unfold generateId. rewrite generateId_loop_safe by done.
  pose proof (readNumbers_nonneg prefix (map getId (memories store))) as Hnonneg.
  pose proof (readNumbers_safe prefix _ Hsafe) as Hmax.
  rewrite maxSafeInteger_value in Hmax.
  set (top := foldr Z.max 0%Z _) in *.
  rewrite Z.max_r by done. cbn [Num.add1].
  rewrite toNumber_safe by (rewrite two_pow_53_value; lia).
  cbn [Num.numberToString]. unfold Num.positiveToString.
  rewrite two_pow_53_value.
  destruct (Z.ltb_spec (top + 1) 0); [lia|].
  destruct (Z.ltb_spec (top + 1) 9007199254740992); [|lia].
  by rewrite (Z.add_comm top 1).
Qed.

Lemma readNumber_canonical (prefix id : str) :
  Forall (λ c, isLetter c = true) prefix → canonicalId id →
  readNumber prefix id = suffixNumber prefix id.
Proof.
  intros Hp Hid. unfold readNumber.
  by destruct (parse_canonical prefix id Hp Hid) as [_ [->|[-> ->]]].
Qed.

Lemma generateId_canonical `{HasId T} (prefix : str) (store : MemoryStore T) :
  Forall (λ c, isLetter c = true) prefix →
  Forall (λ m, canonicalId (getId m)) (memories store) →
  safeIds prefix (map getId (memories store)) →
  generateId prefix store = specNextId prefix (map getId (memories store)).
Proof.
  intros Hp Hl Hsafe. rewrite generateId_safe by done. unfold specNextId.
  do 5 f_equal. induction Hl as [|m l Hm _ IH]; [done|].
  apply Forall_cons in Hsafe as [_ Hsafe].
  cbn [map foldr]. by rewrite readNumber_canonical, IH.
Qed.

(** Beyond the safe integers the program stops counting: one more than
    2^53 is 2^53 again, so the identifier of a stored record is returned,
    and from 10^21 on the number is written with an exponent. *)
Example generateId_beyond_safe_integers :
  generateId (lit "proc") {| memories := [lit "proc_9007199254740992"] |}
  = lit "proc_9007199254740992"
  ∧ generateId (lit "proc") {| memories := [lit "proc_1000000000000000000000"] |}
    = lit "proc_1e+21"
  ∧ ¬ safeIds (lit "proc") [lit "proc_9007199254740992"].
Proof. split_and!; [by vm_compute..|]. by_decide. Qed.

(** C4, amended.  While the numbers read from the identifiers are below
    [Number.MAX_SAFE_INTEGER], [generateId] returns the prefix, an
    underscore and one more than the greatest number read, padded with
    zeros to three digits, where the number read from an identifier is
    what [parseInt] makes of it once the first occurrence of [prefix_] is
    taken out (zero when it is [NaN] or negative).  For a prefix made of
    letters and a collection whose identifiers all have the form letters,
    underscore, digits, that is one more than the greatest numeric suffix
    under the prefix: identifiers under another prefix count for nothing.
    A valid procedure write under a name not yet stored, into such a
    collection, answers [created] with that identifier for the prefix
    [proc]. *)
Theorem generateId_next_number `{HasId T} (prefix : str) (store : MemoryStore T)
    (timeline : nat → str) (ctx : MemoryToolContext) (params : MemoryWriteInput)
    (w : World) (name trigger : str) (steps : list str) :
  (safeIds prefix (map getId (memories store)) →
   generateId prefix store
   = prefix ++ lit "_"
       ++ Num.padStart0 3
            (Num.toString
               (1 + foldr Z.max 0%Z
                      (map (readNumber prefix) (map getId (memories store))))))
  ∧ (Forall (λ c, isLetter c = true) prefix →
     Forall (λ m, canonicalId (getId m)) (memories store) →
     safeIds prefix (map getId (memories store)) →
     generateId prefix store = specNextId prefix (map getId (memories store)))
  ∧ (w_type params = procedural →
     w_name params = Some name → name ≠ [] →
     w_trigger params = Some trigger → trigger ≠ [] →
     w_steps params = Some steps → steps ≠ [] →
     Forall (λ m, proc_name m ≠ name) (procedural_json (disk w)) →
     Forall (λ m, canonicalId (proc_id m)) (procedural_json (disk w)) →
     safeIds (lit "proc") (map proc_id (procedural_json (disk w))) →
     details (memoryWrite timeline ctx params w).1
     = Written created
         (specNextId (lit "proc") (map proc_id (procedural_json (disk w))))).
Proof.
  split_and!.
  - apply generateId_safe.
  - apply generateId_canonical.
  - intros Hty Hname Hne Htrig Htne Hsteps Hsne Hfresh Hids Hsafe.
    unfold memoryWrite, writeProcedural. rewrite Hty, Hname, Htrig, Hsteps.
    rewrite !present_nonempty by done.
    destruct steps as [|step more]; [done|].
    unfold mbind, M_bind, loadStoreOf. cbn [memories readFile].
    assert (list_find (λ m, proc_name m = name) (procedural_json (disk w)) = None)
      as -> by by apply list_find_None.
    cbn. f_equal.
    apply (generateId_canonical (lit "proc")
             {| memories := procedural_json (disk w) |}); [|done..].
    repeat constructor.
Qed.

Lemma generateId_next_number_witness :
  generateId (lit "proc")
    {| memories := [lit "proc_001"; lit "ep_007"; lit "proc_012"] |}
  = lit "proc_013"
  ∧ details (memoryWrite Sample.timeline Sample.ctx
               (Sample.writeProc (lit "lint") (lit "before a commit")
                  [lit "run the linter"] [])
               Sample.world).1
    = Written created (lit "proc_003").
Proof.
  pose proof (generateId_next_number (lit "proc")
                {| memories := [lit "proc_001"; lit "ep_007"; lit "proc_012"] |}
                Sample.timeline Sample.ctx
                (Sample.writeProc (lit "lint") (lit "before a commit")
                   [lit "run the linter"] [])
                Sample.world (lit "lint") (lit "before a commit")
                [lit "run the linter"]) as (_ & Hnext & Hwrite).
  split.
  - etrans; [apply Hnext|by vm_compute].
    + repeat constructor.
    + repeat constructor;
        [canonical (lit "proc") (lit "001")|canonical (lit "ep") (lit "007")
        |canonical (lit "proc") (lit "012")].
    + by_decide.
  - etrans; [apply Hwrite|by vm_compute]; try reflexivity; try discriminate.
    + repeat constructor; discriminate.
    + repeat constructor;
        [canonical (lit "proc") (lit "001")|canonical (lit "proc") (lit "002")].
    + by_decide.
Defined.

(** ** Order of the compacted records *)

Lemma split_join_comma (parts : list str) :
  parts ≠ [] → Forall commaFree parts →
  Js.splitChar ","%char (Js.join (lit ",") parts) = parts.
Proof. apply (splitChar_join ","%char). Qed.

Lemma splitChar_nonempty (sep : ascii) (s : str) : Js.splitChar sep s ≠ [].
Proof.
  induction s as [|c s IH]; cbn; [done|].
  case_bool_decide; [done|]. by destruct (Js.splitChar sep s).
Qed.

Lemma keyHead_in_groupTags (key : str) : keyHead key ∈ groupTagsOf key.
Proof.
  unfold keyHead, groupTagsOf. apply newSet_elem_of.
  pose proof (splitChar_nonempty ","%char key).
  destruct (Js.splitChar ","%char key); [done|]. left.
Qed.

Lemma GoodKey_head (pool : list str) (key : str) :
  GoodKey pool key → keyHead key ∈ pool.
Proof.
  intros (t & ts & Hfree & -> & Hin). unfold keyHead.
  by rewrite split_join_comma.
Qed.

Lemma GoodKey_mono (pool pool' : list str) (key : str) :
  pool ⊆ pool' → GoodKey pool key → GoodKey pool' key.
Proof. intros Hsub (t & ts & ? & ? & ?). exists t, ts. split_and!; [done..|]. by apply Hsub. Qed.

Lemma openKey_keyTags (m : EpisodicMemory) :
  openKey m = Js.join (lit ",") (keyTags m) ∧ keyTags m ≠ [].
Proof.
  unfold openKey, keyTags.
  destruct (Js.truthy (Js.join (lit ",") (ep_tags m))) eqn:Htr.
  - split; [done|]. intros Hnil. by rewrite Hnil in Htr.
  - done.
Qed.

Lemma joinKey_good (pool : list str) (key : str) (m : EpisodicMemory) :
  GoodKey pool key → Forall commaFree (ep_tags m) →
  GoodKey pool (joinKey key m) ∧ keyHead (joinKey key m) = keyHead key.
Proof.
  intros (t & ts & Hfree & -> & Hin) Htags.
  unfold joinKey, groupTagsOf. rewrite split_join_comma by done.
  destruct (newSet_cons t ts) as [ext1 Hext1].
  destruct (newSet_cons t (ext1 ++ ep_tags m)) as [ext2 Hext2].
  assert (Hfree2 : Forall commaFree (Js.newSet (t :: ext1 ++ ep_tags m))).
  { apply Forall_forall. intros x Hx.
    apply (proj1 (newSet_elem_of _ _)) in Hx.
    apply elem_of_cons in Hx as [->|Hx%elem_of_app].
    - by apply Forall_cons in Hfree as [? _].
    - destruct Hx as [Hx|Hx].
      + assert (x ∈ Js.newSet (t :: ts)) as Hx' by (rewrite Hext1; by right).
        apply (proj1 (newSet_elem_of _ _)) in Hx'.
        rewrite Forall_forall in Hfree. by apply Hfree.
      + rewrite Forall_forall in Htags. by apply Htags. }
  rewrite Hext1. cbn [app]. rewrite Hext2 in Hfree2 |- *.
  split.
  - by exists t, ext2.
  - unfold keyHead. by rewrite !split_join_comma.
Qed.

(** Keys with different heads are different keys. *)
Lemma key_fresh_by_head (key : str) (keys : list str) :
  keyHead key ∉ keyHead <$> keys → key ∉ keys.
Proof. intros Hhead Hin. apply Hhead. by apply list_elem_of_fmap_2. Qed.

Lemma GroupsInv_nil : GroupsInv [] [] [].
Proof. split; cbn; try constructor; done. Qed.

Lemma keyPool_snoc (seen : list EpisodicMemory) (m : EpisodicMemory) :
  keyPool seen ⊆ keyPool (seen ++ [m])
  ∧ (∀ t, t ∈ ep_tags m → t ∈ keyPool (seen ++ [m]))
  ∧ (untagged m → ep_id m ∈ keyPool (seen ++ [m])).
Proof.
  unfold keyPool, allTags, ownKeys.
  rewrite flat_map_app, filter_app, fmap_app. cbn [flat_map]. rewrite app_nil_r.
  split_and!.
  - intros x. rewrite !elem_of_app. tauto.
  - intros t Ht. rewrite !elem_of_app. tauto.
  - intros Hm. rewrite filter_cons_True, filter_nil by done.
    rewrite !elem_of_app. right. right. cbn. left.
Qed.

Lemma list_find_split {A} (P : A → Prop) `{∀ x, Decision (P x)}
    (l : list A) (i : nat) (x : A) :
  list_find P l = Some (i, x) →
  ∃ before after, l = before ++ x :: after ∧ Forall (λ y, ¬ P y) before ∧ P x.
Proof.
  intros (Hi & Hx & Hfirst)%list_find_Some.
  exists (take i l), (drop (S i) l). split_and!.
  - by rewrite take_drop_middle.
  - apply Forall_forall. intros y [j Hj]%list_elem_of_lookup.
    apply lookup_take_Some in Hj as [Hj Hlt]. by eapply Hfirst.
  - done.
Qed.

(** A record that shares no tag with any group opens a group at the end. *)
Lemma placeMemory_inv_open (seen : list EpisodicMemory)
    (tagGroups : list (str * list EpisodicMemory))
    (lasts : list EpisodicMemory) (m : EpisodicMemory) :
  GroupsInv seen tagGroups lasts →
  commaFree (ep_id m) → Forall commaFree (ep_tags m) →
  (untagged m → ep_id m ∉ keyPool seen) →
  Forall (λ e, sharesTag m e.1 = false) tagGroups →
  placeMemory tagGroups m = tagGroups ++ [(openKey m, [m])]
  ∧ GroupsInv (seen ++ [m]) (tagGroups ++ [(openKey m, [m])]) (lasts ++ [m]).
Proof.
  intros [Hkeys Hheads Hlasts Horder Hmembers Hpart] Hid Htags Hown Hno.
  destruct (keyPool_snoc seen m) as (Hpool & Hpooltags & Hpoolid).
  destruct (openKey_keyTags m) as [Hopen Hne].
  assert (Hfree : Forall commaFree (keyTags m)).
  { unfold keyTags. destruct (Js.truthy _); [done|]. by constructor. }
  destruct (keyTags m) as [|t ts] eqn:Hkt; [done|].
  assert (Hhead : keyHead (openKey m) = t).
  { unfold keyHead. by rewrite Hopen, split_join_comma. }
  assert (Hin : t ∈ keyPool (seen ++ [m])).
  { unfold keyTags in Hkt. destruct (Js.truthy _) eqn:Htr.
    - apply Hpooltags. rewrite Hkt. left.
    - injection Hkt as <- <-. by apply Hpoolid. }
  assert (Hnew : t ∉ keyHead <$> tagGroups.*1).
  { intros (key & Ht & Hkey)%list_elem_of_fmap.
    apply list_elem_of_fmap in Hkey as ([k g] & -> & He). cbn [fst] in *.
    unfold keyTags in Hkt. destruct (Js.truthy _) eqn:Htr.
    - rewrite Forall_forall in Hno. specialize (Hno _ He). cbn in Hno.
      rewrite sharesTag_false in Hno. apply (Hno (keyHead k)).
      + rewrite Hkt, <- Ht. left.
      + apply keyHead_in_groupTags.
    - injection Hkt as Hid' <-. apply Hown; [done|].
      rewrite Hid', Ht. apply (GoodKey_head _ k).
      rewrite Forall_forall in Hkeys. apply Hkeys.
      apply list_elem_of_fmap. by exists (k, g). }
  split.
  - rewrite placeMemory_open by done. apply mapSet_fresh.
    apply key_fresh_by_head. by rewrite Hhead.
  - split.
    + rewrite fmap_app, Forall_app. split.
      * eapply Forall_impl; [exact Hkeys|]. intros k. by apply GoodKey_mono.
      * repeat constructor. exists t, ts. by rewrite Hopen.
    + rewrite !fmap_app. cbn. rewrite Hhead. apply NoDup_app. split_and!.
      * done.
      * intros x Hx ->%list_elem_of_singleton. done.
      * apply NoDup_singleton.
    + rewrite !fmap_app, Hlasts. done.
    + by apply sublist_app.
    + rewrite fmap_app, Forall_app. split.
      * eapply Forall_impl; [exact Hmembers|]. intros g Hg.
        by apply sublist_inserts_r.
      * repeat constructor. by apply sublist_inserts_l.
    + rewrite fmap_app, concat_app. cbn. by rewrite Hpart.
Qed.

(** A record that joins a group moves that group, renamed, to the end. *)
Lemma placeMemory_inv_join (seen : list EpisodicMemory)
    (before after : list (str * list EpisodicMemory)) (key : str)
    (group lasts : list EpisodicMemory) (m : EpisodicMemory) :
  GroupsInv seen (before ++ (key, group) :: after) lasts →
  Forall commaFree (ep_tags m) →
  Forall (λ e, sharesTag m e.1 = false) before →
  sharesTag m key = true →
  ∃ lasts',
    placeMemory (before ++ (key, group) :: after) m
    = before ++ after ++ [(joinKey key m, group ++ [m])]
    ∧ GroupsInv (seen ++ [m])
        (before ++ after ++ [(joinKey key m, group ++ [m])]) lasts'.
Proof.
  intros [Hkeys Hheads Hlasts Horder Hmembers Hpart] Htags Hno Hyes.
  destruct (keyPool_snoc seen m) as (Hpool & _ & _).
  rewrite !fmap_app, !fmap_cons in *. cbn [fst snd] in *.
  apply Forall_app in Hkeys as [Hkb Hkeys]. apply Forall_cons in Hkeys as [Hk Hka].
  apply Forall_app in Hmembers as [Hmb Hmembers].
  apply Forall_cons in Hmembers as [Hg Hma].
  destruct (joinKey_good _ key m Hk Htags) as [Hgood Hhead].
  apply NoDup_app in Hheads as (Hnb & Hdisj & Hheads).
  apply NoDup_cons in Hheads as [Hnotin Hna].
  symmetry in Hlasts.
  apply fmap_app_inv in Hlasts as (lb & rest & Hlb & Hrest & ->).
  symmetry in Hrest. apply fmap_cons_inv in Hrest as (x & la & Hx & Hla & ->).
  assert (Hkey_b : key ∉ before.*1).
  { apply key_fresh_by_head. intros Hin. by apply (Hdisj _ Hin); left. }
  assert (Hkey_a : key ∉ after.*1) by by apply key_fresh_by_head.
  exists (lb ++ la ++ [m]). split.
  - rewrite placeMemory_join, mapDelete_middle by done.
    rewrite mapSet_fresh; [by rewrite <- app_assoc|].
    apply key_fresh_by_head. rewrite Hhead, fmap_app, fmap_app, elem_of_app.
    intros [Hin|Hin]; [by apply (Hdisj _ Hin); left|done].
  - split.
    + rewrite !fmap_app, !Forall_app. cbn. split_and!.
      * eapply Forall_impl; [exact Hkb|]. intros k. by apply GoodKey_mono.
      * eapply Forall_impl; [exact Hka|]. intros k. by apply GoodKey_mono.
      * repeat constructor. by eapply GoodKey_mono.
    + rewrite !fmap_app. cbn. rewrite Hhead.
      rewrite app_assoc. apply NoDup_app. split_and!.
      * apply NoDup_app. split_and!; [done| |done].
        intros y Hy Hy'. apply (Hdisj _ Hy). by right.
      * intros y [Hy|Hy]%elem_of_app ->%list_elem_of_singleton.
        -- by apply (Hdisj _ Hy); left.
        -- done.
      * apply NoDup_singleton.
    + rewrite !fmap_app. cbn. by rewrite last_snoc, Hlb, Hla.
    + rewrite app_assoc. apply sublist_app; [|done].
      etrans; [|exact Horder]. apply sublist_app; [done|]. by apply sublist_cons.
    + rewrite !fmap_app, !Forall_app. cbn. split_and!.
      * eapply Forall_impl; [exact Hmb|]. intros g' Hg'. by apply sublist_inserts_r.
      * eapply Forall_impl; [exact Hma|]. intros g' Hg'. by apply sublist_inserts_r.
      * repeat constructor. by apply sublist_app.
    + rewrite <- Hpart. rewrite !fmap_app, !concat_app. cbn.
      rewrite app_nil_r. solve_Permutation.
Qed.

(** One turn of the first loop keeps the invariant. *)
Lemma placeMemory_inv (seen : list EpisodicMemory)
    (tagGroups : list (str * list EpisodicMemory))
    (lasts : list EpisodicMemory) (m : EpisodicMemory) :
  GroupsInv seen tagGroups lasts →
  commaFree (ep_id m) → Forall commaFree (ep_tags m) →
  (untagged m → ep_id m ∉ keyPool seen) →
  ∃ lasts', GroupsInv (seen ++ [m]) (placeMemory tagGroups m) lasts'.
Proof.
  intros Hinv Hid Htags Hown.
  destruct (list_find (λ e, sharesTag m e.1 = true) tagGroups)
    as [[i [key group]]|] eqn:Hfind.
  - apply list_find_split in Hfind as (before & after & -> & Hno & Hyes).
    destruct (placeMemory_inv_join seen before after key group lasts m)
      as (lasts' & -> & Hinv'); try done.
    + eapply Forall_impl; [exact Hno|]. cbn. intros e. by destruct (sharesTag m e.1).
    + by exists lasts'.
  - apply list_find_None in Hfind.
    destruct (placeMemory_inv_open seen tagGroups lasts m) as [-> Hinv']; try done.
    + eapply Forall_impl; [exact Hfind|]. cbn. intros e. by destruct (sharesTag m e.1).
    + by exists (lasts ++ [m]).
Qed.

Lemma WellKeyed_next (seen rest : list EpisodicMemory) (m : EpisodicMemory) :
  WellKeyed (seen ++ m :: rest) →
  commaFree (ep_id m) ∧ Forall commaFree (ep_tags m)
  ∧ (untagged m → ep_id m ∉ keyPool seen).
Proof.
  intros (Hfree & Hnodup & Htags).
  apply Forall_app in Hfree as [_ Hfree]. apply Forall_cons in Hfree as [[? ?] _].
  split_and!; [done..|]. intros Hm.
  unfold ownKeys in Hnodup, Htags.
  rewrite filter_app, filter_cons_True, fmap_app, fmap_cons in Hnodup, Htags by done.
  unfold keyPool. rewrite elem_of_app. intros [Hin|Hin].
  - apply Forall_app in Htags as [_ Htags]. apply Forall_cons in Htags as [Hid _].
    apply Hid. unfold allTags in *. rewrite flat_map_app, elem_of_app. by left.
  - apply NoDup_app in Hnodup as (_ & Hdisj & _). apply (Hdisj _ Hin). left.
Qed.

Lemma buildTagGroups_inv (rest seen : list EpisodicMemory)
    (tagGroups : list (str * list EpisodicMemory)) (lasts : list EpisodicMemory) :
  GroupsInv seen tagGroups lasts →
  WellKeyed (seen ++ rest) →
  ∃ lasts', GroupsInv (seen ++ rest) (fold_left placeMemory rest tagGroups) lasts'.
Proof.
  revert seen tagGroups lasts.
  induction rest as [|m rest IH]; intros seen tagGroups lasts Hinv Hwk.
  - rewrite app_nil_r. by exists lasts.
  - destruct (WellKeyed_next seen rest m Hwk) as (Hid & Htags & Hown).
    destruct (placeMemory_inv seen tagGroups lasts m) as [lasts' Hinv']; [done..|].
    cbn [fold_left]. replace (seen ++ m :: rest) with ((seen ++ [m]) ++ rest) in *
      by by rewrite <- app_assoc.
    by apply (IH _ _ lasts').
Qed.

Lemma consolidate_one_record (groups : list (list EpisodicMemory)) :
  Forall (λ g, g ≠ []) groups →
  Forall2 (λ g r, consolidate g = [r]) groups (flat_map consolidate groups).
Proof.
  induction 1 as [|g groups Hg _ IH]; [constructor|].
  destruct g as [|a [|b g]]; [done|..]; cbn [flat_map]; by constructor.
Qed.

Lemma compact_flat_map (memories : list EpisodicMemory) :
  compactEpisodicMemories memories
  = flat_map consolidate (buildTagGroups memories).*2.
Proof.
  unfold compactEpisodicMemories.
  destruct memories as [|m [|m' memories]]; done.
Qed.

(** C6, as stated, fails: the group of the first record was opened first,
    and after the third record joins it, it stands behind the group of the
    second record.  An output record carries the identifier of the record
    that opened its group, so the identifiers show the order. *)
Lemma compact_not_in_creation_order :
  let e1 := Sample.episode (lit "ep_001") [lit "a"] in
  let e2 := Sample.episode (lit "ep_002") [lit "b"] in
  let e3 := Sample.episode (lit "ep_003") [lit "a"] in
  ep_id <$> compactEpisodicMemories [e1; e2; e3] = [lit "ep_002"; lit "ep_001"]
  ∧ compactEpisodicMemories [e1; e2; e3] = e2 :: consolidate [e1; e3]
  ∧ ¬ (ep_id <$> compactEpisodicMemories [e1; e2; e3])
        `sublist_of` (ep_id <$> [e1; e2; e3]).
Proof.
  cbv zeta. split_and!.
  - by vm_compute.
  - by vm_compute.
  - assert (ep_id <$> compactEpisodicMemories
              [Sample.episode (lit "ep_001") [lit "a"];
               Sample.episode (lit "ep_002") [lit "b"];
               Sample.episode (lit "ep_003") [lit "a"]]
            = [lit "ep_002"; lit "ep_001"]) as -> by by vm_compute.
    intros Hsub. vm_compute in Hsub.
    repeat match goal with
           | H : sublist _ _ |- _ => inversion H; clear H; subst
           end.
Qed.

(** C6, amended.  Every group of the first loop gives one output record,
    in the order the groups have in the map at the end of the loop, and a
    group of one record gives that record unchanged.  That order is the
    order of the last members of the groups in the input: a group moves
    behind all others each time a record joins it.  Inside a group the
    records are in input order, and the groups partition the input.  (The
    group keys must not clash: no comma in a tag or an identifier, and the
    identifiers of records without tags differ from each other and from
    every tag.) *)
Theorem compact_in_order_of_last_members (memories : list EpisodicMemory) :
  WellKeyed memories →
  ∃ lasts,
    Forall2 (λ g r, consolidate g = [r])
      (buildTagGroups memories).*2 (compactEpisodicMemories memories)
    ∧ (∀ m, consolidate [m] = [m])
    ∧ last <$> (buildTagGroups memories).*2 = Some <$> lasts
    ∧ lasts `sublist_of` memories
    ∧ Forall (λ g, g `sublist_of` memories) (buildTagGroups memories).*2
    ∧ concat (buildTagGroups memories).*2 ≡ₚ memories.
Proof.
  intros Hwk.
  destruct (buildTagGroups_inv memories [] [] [] GroupsInv_nil Hwk)
    as [lasts [_ _ Hlasts Horder Hmembers Hpart]].
  cbn [app] in *. fold (buildTagGroups memories) in *.
  exists lasts. split_and!; try done.
  rewrite compact_flat_map. apply consolidate_one_record.
  apply Forall_forall. intros g Hg ->.
  apply (list_elem_of_fmap_2 last) in Hg. rewrite Hlasts in Hg.
  by apply list_elem_of_fmap in Hg as (? & ? & _).
Qed.

Lemma compact_in_order_of_last_members_witness :
  let e1 := Sample.episode (lit "ep_001") [lit "a"] in
  let e2 := Sample.episode (lit "ep_002") [lit "b"] in
  let e3 := Sample.episode (lit "ep_003") [lit "a"] in
  let e4 := Sample.episode (lit "ep_004") [] in
  ∃ lasts,
    Forall2 (λ g r, consolidate g = [r])
      (buildTagGroups [e1; e2; e3; e4]).*2 (compactEpisodicMemories [e1; e2; e3; e4])
    ∧ (∀ m, consolidate [m] = [m])
    ∧ last <$> (buildTagGroups [e1; e2; e3; e4]).*2 = Some <$> lasts
    ∧ lasts `sublist_of` [e1; e2; e3; e4]
    ∧ Forall (λ g, g `sublist_of` [e1; e2; e3; e4]) (buildTagGroups [e1; e2; e3; e4]).*2
    ∧ concat (buildTagGroups [e1; e2; e3; e4]).*2 ≡ₚ [e1; e2; e3; e4].
Proof.
  cbv zeta. apply compact_in_order_of_last_members.
  unfold WellKeyed. split_and!; by_decide.
Defined.

(** Without the condition on the keys the loop can lose records: two
    records whose only tag is the same string with a comma in it open
    their groups under the same key, and the second [Map.set] replaces the
    group of the first. *)
Lemma compact_key_clash_drops_record :
  let e1 := Sample.episode (lit "ep_001") [lit "a,b"] in
  let e2 := Sample.episode (lit "ep_002") [lit "a,b"] in
  ¬ WellKeyed [e1; e2] ∧ compactEpisodicMemories [e1; e2] = [e2].
Proof.
  cbv zeta. split; [|by vm_compute].
  intros (Hfree & _). apply Forall_cons in Hfree as [[_ Htags] _].
  apply Forall_cons in Htags as [Hcomma _]. apply Hcomma.
  by_decide.
Qed.

(** * Further properties *)

(** ** Identifier allocation: the decimal text of a number *)

Lemma digit_chars (d : Decimal.uint) :
  Forall (λ c, Num.isDigit c = true)
    (list_ascii_of_string (NilEmpty.string_of_uint d)).
Proof. induction d; cbn; constructor; done. Qed.

Lemma readDigits_uint_acc (d : Decimal.uint) (acc : positive) :
  Num.readDigits (Z.pos acc) (list_ascii_of_string (NilEmpty.string_of_uint d))
  = Z.pos (Pos.of_uint_acc d acc).
Proof.
  revert acc. induction d as [|d IH|d IH|d IH|d IH|d IH|d IH|d IH|d IH|d IH|d IH];
    intros acc; cbn [NilEmpty.string_of_uint list_ascii_of_string Num.readDigits
                     Pos.of_uint_acc]; [done|..];
    (replace (Num.isDigit _) with true by (by vm_compute));
    cbv iota; rewrite <- IH; f_equal;
    match goal with
    | |- context [Num.digitVal ?c] =>
        let v := eval vm_compute in (Num.digitVal c) in
        change (Num.digitVal c) with v
    end; lia.
Qed.

Lemma readDigits_uint (d : Decimal.uint) :
  Num.readDigits 0 (list_ascii_of_string (NilEmpty.string_of_uint d))
  = Z.of_N (Pos.of_uint d).
Proof.
  induction d as [|d IH|d IH|d IH|d IH|d IH|d IH|d IH|d IH|d IH|d IH];
    cbn [NilEmpty.string_of_uint list_ascii_of_string Num.readDigits Pos.of_uint];
    [done|..];
    (replace (Num.isDigit _) with true by (by vm_compute)); cbv iota;
    [exact IH|..];
    match goal with
    | |- _ = Z.of_N (N.pos (Pos.of_uint_acc _ ?k)) => exact (readDigits_uint_acc d k)
    end.
Qed.

(** [String(n)] of a number that is not negative is a numeral, and reading
    it gives the number back. *)
Lemma toString_numeral (n : Z) :
  (0 ≤ n)%Z →
  Num.toString n ≠ []
  ∧ Forall (λ c, Num.isDigit c = true) (Num.toString n)
  ∧ Num.readDigits 0 (Num.toString n) = n.
Proof.
  intros Hn. unfold Num.toString.
  destruct n as [|p|p]; [|clear Hn|lia].
  { split_and!; [by vm_compute|repeat constructor|by vm_compute]. }
  cbn [Z.to_int NilZero.string_of_int]. unfold NilZero.string_of_uint.
  pose proof (DecimalPos.Unsigned.to_uint_nonnil p) as Hnil.
  destruct (Pos.to_uint p) as [|d|d|d|d|d|d|d|d|d|d] eqn:Hd; [done|..];
    rewrite <- Hd; (split_and!;
      [rewrite Hd; done
      |apply digit_chars
      |rewrite readDigits_uint, DecimalPos.Unsigned.of_to; done]).
Qed.

Lemma readDigits_leading_zeros (k : nat) (s : str) :
  Num.readDigits 0 (replicate k "0"%char ++ s) = Num.readDigits 0 s.
Proof. induction k as [|k IH]; [done|]. cbn. exact IH. Qed.

Lemma padStart0_numeral (width : nat) (s : str) :
  s ≠ [] → Forall (λ c, Num.isDigit c = true) s →
  Num.padStart0 width s ≠ []
  ∧ Forall (λ c, Num.isDigit c = true) (Num.padStart0 width s)
  ∧ Num.readDigits 0 (Num.padStart0 width s) = Num.readDigits 0 s
  ∧ width ≤ length (Num.padStart0 width s).
Proof.
  intros Hne Hd. unfold Num.padStart0. split_and!.
  - intros [_ ?]%app_eq_nil. done.
  - apply Forall_app. split; [|done]. by apply Forall_replicate.
  - apply readDigits_leading_zeros.
  - rewrite length_app, length_replicate. lia.
Qed.

Lemma foldr_max_bound {A} (f : A → Z) (l : list A) (x : A) :
  x ∈ l → (f x ≤ foldr Z.max 0 (map f l))%Z.
Proof.
  induction l as [|y l IH]; intros Hx; [by apply elem_of_nil in Hx|].
  cbn. apply elem_of_cons in Hx as [->|Hx]; [lia|]. specialize (IH Hx). lia.
Qed.

Lemma foldr_max_lt {A} (f : A → Z) (l : list A) (b : Z) :
  (0 < b)%Z → Forall (λ x, (f x < b)%Z) l → (foldr Z.max 0 (map f l) < b)%Z.
Proof. intros Hb. induction 1 as [|x l Hx _ IH]; cbn; lia. Qed.

Lemma foldr_max_nonneg {A} (f : A → Z) (l : list A) :
  (0 ≤ foldr Z.max 0 (map f l))%Z.
Proof. induction l; cbn; lia. Qed.

(** The parts of the identifier [generateId] returns while the numbers are
    safe. *)
Lemma generateId_unfold `{HasId T} (prefix : str) (store : MemoryStore T) :
  safeIds prefix (map getId (memories store)) →
  ∃ digits,
    generateId prefix store = prefix ++ lit "_" ++ digits
    ∧ digits ≠ []
    ∧ 3 ≤ length digits
    ∧ Forall (λ c, Num.isDigit c = true) digits
    ∧ Num.readDigits 0 digits
      = (1 + foldr Z.max 0 (map (readNumber prefix) (map getId (memories store))))%Z.
Proof.
  intros Hsafe. rewrite generateId_safe by done.
  set (top := foldr Z.max 0%Z (map (readNumber prefix) (map getId (memories store)))).
  assert (Htop : (0 ≤ top)%Z) by apply readNumbers_nonneg.
  destruct (toString_numeral (1 + top)) as (Hne & Hd & Hval); [lia|].
  destruct (padStart0_numeral 3 _ Hne Hd) as (Hne' & Hd' & Hval' & Hlen).
  eexists. split_and!; [done..|]. by rewrite Hval', Hval.
Qed.

(** The number of the identifier [generateId] returns is one more than
    the greatest number in the store. *)
Lemma readNumber_generateId `{HasId T} (prefix : str) (store : MemoryStore T) :
  safeIds prefix (map getId (memories store)) →
  readNumber prefix (generateId prefix store)
  = (1 + foldr Z.max 0 (map (readNumber prefix) (map getId (memories store))))%Z.
Proof.
  intros Hsafe.
  destruct (generateId_unfold prefix store Hsafe)
    as (digits & -> & Hne & _ & Hd & Hval).
  unfold readNumber.
  rewrite replaceFirst_at_start by (rewrite app_assoc; apply startsWith_refl_app).
  rewrite app_assoc, drop_app_length. cbn [app].
  rewrite parseInt_numeral by done. cbn. exact Hval.
Qed.

Lemma generateId_not_stored `{HasId T} (prefix : str) (store : MemoryStore T) :
  safeIds prefix (map getId (memories store)) →
  Forall (λ m, getId m ≠ generateId prefix store) (memories store).
Proof.
  intros Hsafe. apply Forall_forall. intros m Hm Heq.
  pose proof (foldr_max_bound (readNumber prefix) (map getId (memories store))
                (getId m)) as Hbound.
  rewrite Heq, readNumber_generateId in Hbound by done.
  assert (generateId prefix store ∈ map getId (memories store)) as Hin.
  { rewrite <- Heq. apply list_elem_of_fmap. by exists m. }
  specialize (Hbound Hin). lia.
Qed.

Lemma generateId_canonicalId `{HasId T} (prefix : str) (store : MemoryStore T) :
  safeIds prefix (map getId (memories store)) →
  Forall (λ c, isLetter c = true) prefix → canonicalId (generateId prefix store).
Proof.
  intros Hsafe Hp.
  destruct (generateId_unfold prefix store Hsafe) as (digits & Hid & Hne & _ & Hd & _).
  by exists prefix, digits.
Qed.

(** X1.  While the numbers read from the stored identifiers are below
    [Number.MAX_SAFE_INTEGER], the identifier [generateId] returns is the
    identifier of no record of the store, whatever the prefix and the form
    of the identifiers. *)
Theorem generateId_fresh `{HasId T} (prefix : str) (store : MemoryStore T) :
  safeIds prefix (map getId (memories store)) →
  Forall (λ m, getId m ≠ generateId prefix store) (memories store).
Proof. apply generateId_not_stored. Qed.

Lemma generateId_fresh_witness :
  Forall (λ m, getId m ≠ generateId (lit "proc")
                           {| memories := [lit "proc_12ab"; lit "7_up"; lit "x"] |})
    [lit "proc_12ab"; lit "7_up"; lit "x"].
Proof.
  apply (generateId_fresh (lit "proc")
           {| memories := [lit "proc_12ab"; lit "7_up"; lit "x"] |}).
  by_decide.
Defined.

(** X2.  While the numbers read from the stored identifiers are below
    [Number.MAX_SAFE_INTEGER], the identifier [generateId] returns is the
    prefix, an underscore and a numeral of at least three digits whose
    value is positive; for a prefix made of letters it has the form
    letters, underscore, digits. *)
Theorem generateId_shape `{HasId T} (prefix : str) (store : MemoryStore T) :
  safeIds prefix (map getId (memories store)) →
  (∃ digits,
     generateId prefix store = prefix ++ lit "_" ++ digits
     ∧ 3 ≤ length digits
     ∧ Forall (λ c, Num.isDigit c = true) digits
     ∧ (0 < Num.readDigits 0 digits)%Z)
  ∧ (Forall (λ c, isLetter c = true) prefix →
     canonicalId (generateId prefix store)).
Proof.
  intros Hsafe.
  destruct (generateId_unfold prefix store Hsafe)
    as (digits & Hid & Hne & Hlen & Hd & Hval).
  pose proof (foldr_max_nonneg (readNumber prefix) (map getId (memories store))).
  split.
  - exists digits. split_and!; [done..|lia].
  - intros Hp. exists prefix, digits. done.
Qed.

Lemma generateId_shape_witness :
  canonicalId (generateId (lit "sem") {| memories := [Sample.tabsFact] |}).
Proof.
  apply (generateId_shape (lit "sem") {| memories := [Sample.tabsFact] |}).
  - by_decide.
  - repeat constructor.
Defined.

(** ** memory_write: what a write can and cannot change *)

(** Unfolds a call of [memory_write] into its paths. *)
Ltac write_paths :=
  unfold memoryWrite, writeProcedural, writeEpisodic, writeSemantic, errorResult,
    mbind, M_bind, mret, M_ret, loadStoreOf, saveStore, nowISO;
  cbn [memories readFile writeFile fst snd disk saves ticks];
  repeat case_match; simplify_eq;
  cbn [memories readFile writeFile fst snd disk saves ticks details
       procedural_json episodic_json semantic_json].

(** X3.  A write answers with an identifier exactly when it carries the
    fields its kind requires; a write that does not leaves the world as it
    is: nothing is loaded into a new state, nothing saved, no clock read. *)
Theorem memoryWrite_validates (timeline : nat → str) (ctx : MemoryToolContext)
    (params : MemoryWriteInput) (w : World) :
  (validWrite params
   ↔ ∃ action id, details (memoryWrite timeline ctx params w).1 = Written action id)
  ∧ (validWrite params
     ∨ (details (memoryWrite timeline ctx params w).1 = NoDetails
        ∧ (memoryWrite timeline ctx params w).2 = w)).
Proof.
  unfold validWrite, hasItems. write_paths.
  all: repeat match goal with H : _ = _ |- _ => rewrite H end.
  all: split; [split|].
  all: try (intros (? & ? & ?); first [discriminate|by repeat split; eauto]).
  all: try (first [left; by repeat split; eauto|right; done]).
  all: intros Hvalid; first [by eauto|exfalso].
  all: repeat match goal with
         | H : _ ∧ _ |- _ => destruct H
         | H : is_Some None |- _ => by destruct H
         end; done.
Qed.

Lemma fmap_insert_same {A B} (f : A → B) (l : list A) (i : nat) (old new : A) :
  l !! i = Some old → f new = f old → f <$> <[i := new]> l = f <$> l.
Proof.
  intros Hi Hf. rewrite list_fmap_insert, Hf. apply list_insert_id.
  by rewrite list_lookup_fmap, Hi.
Qed.

Lemma list_find_lookup {A} (P : A → Prop) `{∀ x, Decision (P x)}
    (l : list A) (i : nat) (x : A) :
  list_find P l = Some (i, x) → l !! i = Some x ∧ P x.
Proof. intros (? & ? & _)%list_find_Some. done. Qed.

(** The identifiers a write leaves in a store file: the ones before, and
    on a creation the new one behind them. *)
Lemma memoryWrite_ids (timeline : nat → str) (ctx : MemoryToolContext)
    (params : MemoryWriteInput) (w : World) (k : MemoryType) :
  idsOf k (disk (memoryWrite timeline ctx params w).2) = idsOf k (disk w)
  ∨ idsOf k (disk (memoryWrite timeline ctx params w).2)
    = idsOf k (disk w)
        ++ [generateId (idPrefix k) {| memories := readFile k (disk w) |}].
Proof.
  unfold idsOf. write_paths.
  all: destruct k; cbn [readFile procedural_json episodic_json semantic_json];
    try (by left).
  all: try (right; by rewrite fmap_app).
  left. match goal with H : list_find _ _ = Some _ |- _ =>
          apply list_find_lookup in H as [Hi _] end.
  by eapply fmap_insert_same.
Qed.

(** X4.  A write touches only the store file of its kind; there it keeps
    the identifiers it finds, in their order, and adds at most one behind
    them, the one [generateId] gives for the prefix of the kind; it calls
    [saveStore] at most once, for that file. *)
Theorem memoryWrite_frame (timeline : nat → str) (ctx : MemoryToolContext)
    (params : MemoryWriteInput) (w : World) :
  let w' := (memoryWrite timeline ctx params w).2 in
  (∀ k, k = w_type params ∨ readFile k (disk w') = readFile k (disk w))
  ∧ (∀ k, idsOf k (disk w') = idsOf k (disk w)
          ∨ idsOf k (disk w')
            = idsOf k (disk w)
                ++ [generateId (idPrefix k) {| memories := readFile k (disk w) |}])
  ∧ (saves w' = saves w ∨ saves w' = saves w ++ [w_type params]).
Proof.
  cbv zeta. split_and!.
  - intros k. write_paths.
    all: destruct k; first [by right|left; congruence].
  - apply memoryWrite_ids.
  - write_paths.
    all: first [by left|right; congruence].
Qed.

(** X5.  A write keeps the identifiers of a store file pairwise
    different, while the numbers read from them are below
    [Number.MAX_SAFE_INTEGER]. *)
Theorem memoryWrite_keeps_ids_unique (timeline : nat → str)
    (ctx : MemoryToolContext) (params : MemoryWriteInput) (w : World)
    (k : MemoryType) :
  NoDup (idsOf k (disk w)) →
  safeIds (idPrefix k) (idsOf k (disk w)) →
  NoDup (idsOf k (disk (memoryWrite timeline ctx params w).2)).
Proof.
  intros Hnd Hsafe. destruct (memoryWrite_ids timeline ctx params w k) as [->| ->]; [done|].
  apply NoDup_app. split_and!; [done| |apply NoDup_singleton].
  intros id Hin ->%list_elem_of_singleton.
  apply list_elem_of_fmap in Hin as (m & Hid & Hm).
  pose proof (generateId_not_stored (idPrefix k)
                {| memories := readFile k (disk w) |} Hsafe) as Hfresh.
  rewrite Forall_forall in Hfresh. by apply (Hfresh m).
Qed.

Lemma memoryWrite_keeps_ids_unique_witness :
  NoDup (idsOf procedural
           (disk (memoryWrite Sample.timeline Sample.ctx
                    (Sample.writeProc (lit "lint") (lit "before a commit")
                       [lit "run the linter"] [])
                    Sample.world).2)).
Proof.
  apply (memoryWrite_keeps_ids_unique Sample.timeline Sample.ctx
           (Sample.writeProc (lit "lint") (lit "before a commit")
              [lit "run the linter"] [])
           Sample.world procedural); by_decide.
Defined.

(** X6.  A write keeps the identifiers of a store file of the form
    letters, underscore, digits, while the numbers read from them are
    below [Number.MAX_SAFE_INTEGER]. *)
Theorem memoryWrite_keeps_ids_canonical (timeline : nat → str)
    (ctx : MemoryToolContext) (params : MemoryWriteInput) (w : World)
    (k : MemoryType) :
  Forall canonicalId (idsOf k (disk w)) →
  safeIds (idPrefix k) (idsOf k (disk w)) →
  Forall canonicalId (idsOf k (disk (memoryWrite timeline ctx params w).2)).
Proof.
  intros Hc Hsafe.
  destruct (memoryWrite_ids timeline ctx params w k) as [->| ->]; [done|].
  apply Forall_app. split; [done|]. constructor; [|constructor].
  apply generateId_canonicalId; [exact Hsafe|]. destruct k; repeat constructor.
Qed.

Lemma memoryWrite_keeps_ids_canonical_witness :
  Forall canonicalId
    (idsOf semantic
       (disk (memoryWrite Sample.timeline Sample.ctx
                (Sample.writeFact convention (lit "Use Spaces")) Sample.world).2)).
Proof.
  apply (memoryWrite_keeps_ids_canonical Sample.timeline Sample.ctx
           (Sample.writeFact convention (lit "Use Spaces")) Sample.world semantic).
  - repeat constructor. canonical (lit "sem") (lit "001").
  - by_decide.
Defined.

(** X7.  A write keeps the facts pairwise different in category and
    lower-case text: the duplicate check of the semantic path maintains
    the invariant it tests. *)
Theorem memoryWrite_keeps_facts_distinct (timeline : nat → str)
    (ctx : MemoryToolContext) (params : MemoryWriteInput) (w : World) :
  NoDup (factKey <$> semantic_json (disk w)) →
  NoDup (factKey <$> semantic_json (disk (memoryWrite timeline ctx params w).2)).
Proof.
  intros Hnd. write_paths.
  all: try done.
  rewrite fmap_app. apply NoDup_app. split_and!; [done| |apply NoDup_singleton].
  intros key Hin ->%list_elem_of_singleton.
  apply list_elem_of_fmap in Hin as (m & Hkey & Hm).
  match goal with H : list_find _ _ = None |- _ => apply list_find_None in H;
    rewrite Forall_forall in H; apply (H m Hm) end.
  unfold factKey in Hkey. cbn in Hkey. by injection Hkey as <- <-.
Qed.

Lemma memoryWrite_keeps_facts_distinct_witness :
  NoDup (factKey <$> semantic_json
           (disk (memoryWrite Sample.timeline Sample.ctx
                    (Sample.writeFact preference (lit "USE TABS")) Sample.world).2)).
Proof.
  apply (memoryWrite_keeps_facts_distinct Sample.timeline Sample.ctx
           (Sample.writeFact preference (lit "USE TABS")) Sample.world).
  by_decide.
Defined.

(** X8.  A write keeps the names of the procedures pairwise different: a
    name already stored is updated in place, never stored a second time. *)
Theorem memoryWrite_keeps_names_unique (timeline : nat → str)
    (ctx : MemoryToolContext) (params : MemoryWriteInput) (w : World) :
  NoDup (proc_name <$> procedural_json (disk w)) →
  NoDup (proc_name <$> procedural_json (disk (memoryWrite timeline ctx params w).2)).
Proof.
  intros Hnd. write_paths.
  all: try done.
  - match goal with H : list_find _ _ = Some _ |- _ =>
      apply list_find_lookup in H as [Hi _] end.
    by erewrite fmap_insert_same.
  - rewrite fmap_app. apply NoDup_app. split_and!; [done| |apply NoDup_singleton].
    intros name Hin ->%list_elem_of_singleton.
    apply list_elem_of_fmap in Hin as (m & Hname & Hm).
    match goal with H : list_find _ _ = None |- _ => apply list_find_None in H;
      rewrite Forall_forall in H; apply (H m Hm) end.
    done.
Qed.

Lemma memoryWrite_keeps_names_unique_witness :
  NoDup (proc_name <$> procedural_json
           (disk (memoryWrite Sample.timeline Sample.ctx
                    (Sample.writeProc (lit "release") (lit "before a release")
                       [lit "tag"; lit "publish"] [lit "ship"])
                    Sample.world).2)).
Proof.
  apply (memoryWrite_keeps_names_unique Sample.timeline Sample.ctx
           (Sample.writeProc (lit "release") (lit "before a release")
              [lit "tag"; lit "publish"] [lit "ship"])
           Sample.world).
  by_decide.
Defined.

(** X9.  Episodes are never merged on write: two episodic writes with a
    summary, the same one or not, add two records at the end of the
    collection, in the order of the calls, under two different
    identifiers, while the numbers read from the stored identifiers leave
    room for two more below [Number.MAX_SAFE_INTEGER]. *)
Theorem writeEpisodic_twice_adds_two (timeline : nat → str)
    (ctx : MemoryToolContext) (p1 p2 : MemoryWriteInput) (w : World)
    (summary1 summary2 : str) :
  w_type p1 = episodic → w_type p2 = episodic →
  w_summary p1 = Some summary1 → summary1 ≠ [] →
  w_summary p2 = Some summary2 → summary2 ≠ [] →
  Forall (λ id, (readNumber (lit "ep") id + 1 < Num.maxSafeInteger)%Z)
    (idsOf episodic (disk w)) →
  let '(r1, w1) := memoryWrite timeline ctx p1 w in
  let '(r2, w2) := memoryWrite timeline ctx p2 w1 in
  ∃ e1 e2,
    episodic_json (disk w2) = episodic_json (disk w) ++ [e1; e2]
    ∧ details r1 = Written created (ep_id e1)
    ∧ details r2 = Written created (ep_id e2)
    ∧ ep_id e1 ≠ ep_id e2
    ∧ ep_summary e1 = summary1
    ∧ ep_summary e2 = summary2.
Proof.
  intros Ht1 Ht2 Hs1 Hne1 Hs2 Hne2 Hroom.
  assert (Hsafe : safeIds (lit "ep") (map ep_id (episodic_json (disk w)))).
  { eapply Forall_impl; [exact Hroom|]. cbn. lia. }
  unfold memoryWrite, writeEpisodic. rewrite Ht1, Ht2, Hs1, Hs2.
  rewrite !present_nonempty by done.
  unfold mbind, M_bind, mret, M_ret, loadStoreOf, saveStore, nowISO.
  cbn [memories readFile writeFile fst snd disk saves ticks episodic_json].
  eexists _, _. split_and!.
  - by rewrite <- app_assoc.
  - done.
  - done.
  - cbn [ep_id].
    match goal with |- _ ≠ generateId ?p ?st =>
      pose proof (generateId_not_stored p st) as Hfresh end.
    cbn [memories] in Hfresh. rewrite map_app in Hfresh.
    assert (Hboth : ∀ e : EpisodicMemory,
              ep_id e = generateId (lit "ep") {| memories := episodic_json (disk w) |} →
              safeIds (lit "ep") (map getId (episodic_json (disk w)) ++ map getId [e])).
    { intros e He. apply Forall_app. split; [exact Hsafe|].
      constructor; [|constructor]. unfold getId, ep_HasId. rewrite He.
      rewrite readNumber_generateId by exact Hsafe. cbn [memories].
      pose proof (foldr_max_lt (readNumber (lit "ep"))
                    (map getId (episodic_json (disk w)))
                    (Num.maxSafeInteger - 1)) as Hmax.
      rewrite maxSafeInteger_value in *.
      assert (foldr Z.max 0 (map (readNumber (lit "ep"))
                               (map getId (episodic_json (disk w))))
              < 9007199254740991 - 1)%Z; [|lia].
      apply Hmax; [lia|]. eapply Forall_impl; [exact Hroom|]. cbn beta. lia. }
    lapply Hfresh; [clear Hfresh; intros Hfresh|apply Hboth; reflexivity].
    apply Forall_app in Hfresh as [_ Hfresh].
    apply Forall_cons in Hfresh as [Hfresh _]. exact Hfresh.
  - done.
  - done.
Qed.

Lemma writeEpisodic_twice_adds_two_witness :
  let params :=
    {| w_type := episodic; w_name := None; w_trigger := None; w_steps := None;
       w_summary := Some (lit "shipped the release"); w_details := None;
       w_category := None; w_text := None; w_tags := None;
       w_reflection_mistakes := None; w_reflection_lessons := None |} in
  let '(r1, w1) := memoryWrite Sample.timeline Sample.ctx params Sample.world in
  let '(r2, w2) := memoryWrite Sample.timeline Sample.ctx params w1 in
  ∃ e1 e2,
    episodic_json (disk w2) = episodic_json (disk Sample.world) ++ [e1; e2]
    ∧ details r1 = Written created (ep_id e1)
    ∧ details r2 = Written created (ep_id e2)
    ∧ ep_id e1 ≠ ep_id e2
    ∧ ep_summary e1 = lit "shipped the release"
    ∧ ep_summary e2 = lit "shipped the release".
Proof.
  cbv zeta.
  apply (writeEpisodic_twice_adds_two Sample.timeline Sample.ctx
           {| w_type := episodic; w_name := None; w_trigger := None; w_steps := None;
              w_summary := Some (lit "shipped the release"); w_details := None;
              w_category := None; w_text := None; w_tags := None;
              w_reflection_mistakes := None; w_reflection_lessons := None |}
           {| w_type := episodic; w_name := None; w_trigger := None; w_steps := None;
              w_summary := Some (lit "shipped the release"); w_details := None;
              w_category := None; w_text := None; w_tags := None;
              w_reflection_mistakes := None; w_reflection_lessons := None |}
           Sample.world (lit "shipped the release") (lit "shipped the release"));
    try reflexivity; try discriminate.
  by_decide.
Defined.

(** ** memory_delete of a stored identifier *)

Lemma deleteFrom_skip (k : MemoryType) (files : list MemoryType) (id : str)
    (w : World) :
  id ∉ idsOf k (disk w) →
  deleteFrom (k :: files) id w = deleteFrom files id w.
Proof.
  intros Habs. cbn [deleteFrom]. unfold mbind, M_bind, loadStoreOf. cbn [memories].
  assert (list_find (λ m : RecordOf k, getId m = id) (readFile k (disk w)) = None)
    as ->; [|done].
  apply list_find_None, Forall_forall. intros m Hm Hid. apply Habs.
  apply list_elem_of_fmap. by exists m.
Qed.

Lemma list_find_by_id `{HasId T} (l : list T) (id : str) (i : nat) :
  (getId <$> l) !! i = Some id →
  (∀ j, j < i → (getId <$> l) !! j ≠ Some id) →
  ∃ m, list_find (λ m, getId m = id) l = Some (i, m) ∧ getId m = id.
Proof.
  intros Hi Hfirst. rewrite list_lookup_fmap in Hi.
  destruct (l !! i) as [m|] eqn:Hm; [|done]. injection Hi as Hid.
  exists m. split; [|done]. apply list_find_Some. split_and!; [done..|].
  intros j y Hj Hlt Hy. apply (Hfirst j Hlt).
  by rewrite list_lookup_fmap, Hj, <- Hy.
Qed.

Lemma deleteFrom_found (k : MemoryType) (files : list MemoryType) (id : str)
    (w : World) (i : nat) :
  idsOf k (disk w) !! i = Some id →
  (∀ j, j < i → idsOf k (disk w) !! j ≠ Some id) →
  deleteFrom (k :: files) id w
  = ({| text := lit "Deleted memory [" ++ id ++ lit "] from "
                  ++ replaceFirst (lit ".json") [] (getStoreFile k) ++ lit ".";
        details := Deleted true |},
     {| disk := writeFile k (delete i (readFile k (disk w))) (disk w);
        saves := saves w ++ [k];
        ticks := ticks w |}).
Proof.
  intros Hi Hfirst.
  destruct (list_find_by_id (readFile k (disk w)) id i Hi Hfirst) as (m & Hfind & _).
  cbn [deleteFrom]. unfold mbind, M_bind, loadStoreOf. cbn [memories].
  by rewrite Hfind.
Qed.

Lemma length_delete_lookup {A} (l : list A) (i : nat) (x : A) :
  l !! i = Some x → length (delete i l) + 1 = length l.
Proof. intros Hi. rewrite length_delete by eauto. apply lookup_lt_Some in Hi. lia. Qed.

(** X10.  Deleting an identifier that is stored removes one record, the
    first one with that identifier in the first store file that holds it
    (procedural, then episodic, then semantic): the other records keep
    their order, the other files are untouched, that file is saved once and
    the total count goes down by one. *)
Theorem memoryDelete_removes_first (id : str) (w : World) (k : MemoryType)
    (i : nat) :
  (∀ k', k' ∈ checkedBefore k → id ∉ idsOf k' (disk w)) →
  idsOf k (disk w) !! i = Some id →
  (∀ j, j < i → idsOf k (disk w) !! j ≠ Some id) →
  let '(result, w') := memoryDelete id w in
  details result = Deleted true
  ∧ readFile k (disk w') = delete i (readFile k (disk w))
  ∧ (∀ k', k' = k ∨ readFile k' (disk w') = readFile k' (disk w))
  ∧ saves w' = saves w ++ [k]
  ∧ count_total (getMemoryCounts (disk w')) + 1
    = count_total (getMemoryCounts (disk w)).
Proof.
  intros Hbefore Hi Hfirst. unfold memoryDelete.
  assert (Hlen : length (delete i (readFile k (disk w))) + 1
                 = length (readFile k (disk w))).
  { unfold idsOf in Hi. rewrite list_lookup_fmap in Hi.
    destruct (readFile k (disk w) !! i) eqn:Hm; [|done].
    by eapply length_delete_lookup. }
  destruct k; cbn [checkedBefore] in Hbefore.
  - rewrite (deleteFrom_found procedural _ id w i) by done.
    split_and!; [done..| |done|].
    + intros []; by (left + right).
    + unfold getMemoryCounts. cbn in *. lia.
  - rewrite deleteFrom_skip by (apply Hbefore; left).
    rewrite (deleteFrom_found episodic _ id w i) by done.
    split_and!; [done..| |done|].
    + intros []; by (left + right).
    + unfold getMemoryCounts. cbn in *. lia.
  - rewrite deleteFrom_skip by (apply Hbefore; left).
    rewrite deleteFrom_skip by (apply Hbefore; right; left).
    rewrite (deleteFrom_found semantic _ id w i) by done.
    split_and!; [done..| |done|].
    + intros []; by (left + right).
    + unfold getMemoryCounts. cbn in *. lia.
Qed.

Lemma memoryDelete_removes_first_witness :
  let '(result, w') := memoryDelete (lit "sem_001") Sample.world in
  details result = Deleted true
  ∧ semantic_json (disk w') = []
  ∧ procedural_json (disk w') = procedural_json (disk Sample.world)
  ∧ saves w' = [semantic].
Proof.
  pose proof (memoryDelete_removes_first (lit "sem_001") Sample.world semantic 0)
    as Hdel.
  destruct (memoryDelete (lit "sem_001") Sample.world) as [result w'].
  destruct Hdel as (Hd & Hfile & Hother & Hsaves & _).
  - intros k' Hk'. cbn [checkedBefore] in Hk'.
    rewrite !elem_of_cons, elem_of_nil in Hk'.
    destruct Hk' as [->|[->|[]]]; by_decide.
  - reflexivity.
  - intros j Hj. lia.
  - split_and!; [done|exact Hfile| |exact Hsaves].
    by destruct (Hother procedural).
Defined.

(** ** memory_write followed by memory_delete *)

Lemma writeFile_same (k : MemoryType) (d : Disk) :
  writeFile k (readFile k d) d = d.
Proof. by destruct k, d. Qed.

Lemma writeFile_twice (k : MemoryType) (v v' : list (RecordOf k)) (d : Disk) :
  writeFile k v' (writeFile k v d) = writeFile k v' d.
Proof. by destruct k. Qed.

Lemma readFile_writeFile (k : MemoryType) (v : list (RecordOf k)) (d : Disk) :
  readFile k (writeFile k v d) = v.
Proof. by destruct k. Qed.

Lemma delete_snoc {A} (l : list A) (x : A) : delete (length l) (l ++ [x]) = l.
Proof. induction l as [|y l IH]; [done|]. simpl. f_equal. exact IH. Qed.

Lemma deleteFrom_last_written (k : MemoryType) (files : list MemoryType)
    (new : RecordOf k) (d : Disk) (log : list MemoryType) (t : nat) :
  getId new ∉ idsOf k d →
  details (deleteFrom (k :: files) (getId new)
          {| disk := writeFile k (readFile k d ++ [new]) d;
             saves := log; ticks := t |}).1 = Deleted true
  ∧ disk (deleteFrom (k :: files) (getId new)
          {| disk := writeFile k (readFile k d ++ [new]) d;
             saves := log; ticks := t |}).2 = d.
Proof.
  intros Hfresh.
  rewrite (deleteFrom_found k files (getId new) _ (length (readFile k d))).
  - cbn [disk fst snd details]. rewrite readFile_writeFile, delete_snoc, writeFile_twice.
    by rewrite writeFile_same.
  - cbn [disk]. unfold idsOf. rewrite readFile_writeFile, fmap_app.
    rewrite lookup_app_r by (by rewrite length_fmap).
    by rewrite length_fmap, Nat.sub_diag.
  - intros j Hj. cbn [disk]. unfold idsOf. rewrite readFile_writeFile, fmap_app.
    rewrite lookup_app_l by (by rewrite length_fmap).
    intros Hin. apply Hfresh. by eapply list_elem_of_lookup_2.
Qed.

Lemma generateId_not_in_ids (k : MemoryType) (d : Disk) :
  safeIds (idPrefix k) (idsOf k d) →
  generateId (idPrefix k) {| memories := readFile k d |} ∉ idsOf k d.
Proof.
  intros Hsafe (m & Hid & Hm)%list_elem_of_fmap.
  pose proof (generateId_not_stored (idPrefix k) {| memories := readFile k d |} Hsafe)
    as Hall.
  rewrite Forall_forall in Hall. by apply (Hall m Hm).
Qed.

(** X11.  Deleting the identifier of a record that [memory_write] has just
    created puts every store file back as it was before the write, provided
    the files that [memory_delete] looks into first do not hold that
    identifier and the numbers read from the identifiers of the file
    written are below [Number.MAX_SAFE_INTEGER]. *)
Theorem memoryWrite_then_delete_restores (timeline : nat → str)
    (ctx : MemoryToolContext) (params : MemoryWriteInput) (w : World) (id : str) :
  details (memoryWrite timeline ctx params w).1 = Written created id →
  (∀ k', k' ∈ checkedBefore (w_type params) → id ∉ idsOf k' (disk w)) →
  safeIds (idPrefix (w_type params)) (idsOf (w_type params) (disk w)) →
  let w1 := (memoryWrite timeline ctx params w).2 in
  details (memoryDelete id w1).1 = Deleted true
  ∧ disk (memoryDelete id w1).2 = disk w.
Proof.
  intros Hcreated Hbefore Hsafe. revert Hcreated Hbefore Hsafe. write_paths.
  all: intros Hcreated Hbefore Hsafe; try discriminate.
  all: injection Hcreated as <-; unfold memoryDelete.
  all: cbn [checkedBefore] in Hbefore.
  all: repeat (rewrite deleteFrom_skip
                 by (apply Hbefore; rewrite !elem_of_cons; auto)).
  all: match goal with |- context [ _ ++ [?new] ] =>
         first [ apply (deleteFrom_last_written procedural _ new (disk w))
               | apply (deleteFrom_last_written episodic _ new (disk w))
               | apply (deleteFrom_last_written semantic _ new (disk w)) ]
       end.
  - by apply (generateId_not_in_ids procedural).
  - by apply (generateId_not_in_ids episodic).
  - by apply (generateId_not_in_ids episodic).
  - by apply (generateId_not_in_ids semantic).
Qed.

Lemma memoryWrite_then_delete_restores_witness :
  let w1 := (memoryWrite Sample.timeline Sample.ctx
               (Sample.writeFact convention (lit "two spaces")) Sample.world).2 in
  details (memoryDelete (lit "sem_002") w1).1 = Deleted true
  ∧ disk (memoryDelete (lit "sem_002") w1).2 = disk Sample.world.
Proof.
  apply (memoryWrite_then_delete_restores Sample.timeline Sample.ctx
           (Sample.writeFact convention (lit "two spaces")) Sample.world
           (lit "sem_002")); [reflexivity| |by_decide].
  intros k' Hk'. cbn [checkedBefore Sample.writeFact w_type] in Hk'.
  rewrite !elem_of_cons, elem_of_nil in Hk'.
  destruct Hk' as [->|[->|[]]]; by_decide.
Defined.

(** ** memory_update *)

Ltac update_paths :=
  unfold memoryUpdate, mbind, M_bind, mret, M_ret, loadStoreOf, saveStore, nowISO;
  cbn [memories readFile writeFile fst snd disk saves ticks];
  repeat case_match; simplify_eq;
  cbn [memories readFile writeFile fst snd disk saves ticks update_updated
       procedural_json episodic_json semantic_json].

Lemma list_find_id_None `{HasId T} (l : list T) (id : str) :
  list_find (λ m, getId m = id) l = None ↔ id ∉ getId <$> l.
Proof.
  rewrite list_find_None, Forall_forall. split.
  - intros Hall (m & -> & Hm)%list_elem_of_fmap. by apply (Hall m).
  - intros Hid m Hm <-. apply Hid, list_elem_of_fmap. by exists m.
Qed.

Lemma list_find_id_Some `{HasId T} (l : list T) (id : str) (i : nat) (m : T) :
  list_find (λ m, getId m = id) l = Some (i, m) → id ∈ getId <$> l.
Proof.
  intros (Hi & <- & _)%list_find_Some. apply list_elem_of_fmap. exists m.
  split; [done|]. by eapply list_elem_of_lookup_2.
Qed.


(** X12.  [memory_update] reports an update exactly when some store file
    holds the identifier, and when none does it leaves the world as it was:
    no file is written and the clock is not read. *)
Theorem memoryUpdate_reports_stored (timeline : nat → str)
    (params : MemoryUpdateInput) (w : World) :
  let '(result, w') := memoryUpdate timeline params w in
  update_updated result = bool_decide (u_id params ∈ storedIds (disk w))
  ∧ (update_updated result = false → w' = w).
Proof.
  unfold storedIds. update_paths.
  all: repeat match goal with
       | H : list_find _ _ = None |- _ =>
           apply (list_find_id_None (T := RecordOf procedural)) in H
           || apply (list_find_id_None (T := RecordOf semantic)) in H
           || apply (list_find_id_None (T := RecordOf episodic)) in H
       | H : list_find _ _ = Some _ |- _ =>
           apply (list_find_id_Some (T := RecordOf procedural)) in H
           || apply (list_find_id_Some (T := RecordOf semantic)) in H
           || apply (list_find_id_Some (T := RecordOf episodic)) in H
       end.
  all: split; [|done].
  all: symmetry; first [apply bool_decide_eq_true|apply bool_decide_eq_false].
  all: rewrite !elem_of_app; unfold idsOf in *; cbn [readFile] in *; tauto.
Qed.

(** X13.  [memory_update] changes at most one record of one store file, and
    of that record only fields it has a parameter for: every file keeps its
    records' identifiers, names, categories, summaries, details, dates and
    creation data, in the same order, and at most one file is saved. *)
Theorem memoryUpdate_frame (timeline : nat → str) (params : MemoryUpdateInput)
    (w : World) :
  let w' := (memoryUpdate timeline params w).2 in
  procFixed <$> procedural_json (disk w') = procFixed <$> procedural_json (disk w)
  ∧ semFixed <$> semantic_json (disk w') = semFixed <$> semantic_json (disk w)
  ∧ epFixed <$> episodic_json (disk w') = epFixed <$> episodic_json (disk w)
  ∧ (∃ k i, (∀ k', k' = k ∨ readFile k' (disk w') = readFile k' (disk w))
            ∧ ∀ j, j = i ∨ readFile k (disk w') !! j = readFile k (disk w) !! j)
  ∧ (saves w' = saves w ∨ ∃ k, saves w' = saves w ++ [k]).
Proof.
  update_paths.
  all: repeat match goal with
       | H : list_find _ _ = Some _ |- _ => apply list_find_lookup in H as [? _]
       end.
  all: split_and!; try done.
  all: try (eapply fmap_insert_same; [eassumption|done]).
  all: try (right; by eexists).
  all: try by left.
  - exists procedural, n. split; [intros []; by (left + right)|].
    intros j. destruct (decide (j = n)) as [->|Hj]; [by left|right].
    cbn [readFile procedural_json]. by rewrite list_lookup_insert_ne.
  - exists semantic, n. split; [intros []; by (left + right)|].
    intros j. destruct (decide (j = n)) as [->|Hj]; [by left|right].
    cbn [readFile semantic_json]. by rewrite list_lookup_insert_ne.
  - exists episodic, n. split; [intros []; by (left + right)|].
    intros j. destruct (decide (j = n)) as [->|Hj]; [by left|right].
    cbn [readFile episodic_json]. by rewrite list_lookup_insert_ne.
  - exists procedural, 0. split; intros; by right.
Qed.

(** ** memory_read *)

Lemma readById_world (stores : list MemoryType) (id : str) (w : World) :
  (readById stores id w).2 = w.
Proof.
  induction stores as [|k stores IH]; [done|].
  cbn [readById]. unfold mbind, M_bind, loadStoreOf. cbn [memories].
  by destruct (list_find _ _) as [[i m]|].
Qed.

Lemma readById_found (stores : list MemoryType) (id : str) (w : World) :
  read_details (readById stores id w).1
  = Found (bool_decide (id ∈ stores ≫= λ k, idsOf k (disk w))).
Proof.
  induction stores as [|k stores IH].
  - cbn. by rewrite bool_decide_eq_false_2 by apply not_elem_of_nil.
  - cbn [readById]. unfold mbind at 1, M_bind, loadStoreOf. cbn [memories].
    destruct (list_find _ _) as [[i m]|] eqn:Hfind.
    + apply list_find_id_Some in Hfind. cbn.
      rewrite bool_decide_eq_true_2; [done|]. apply elem_of_app. by left.
    + apply list_find_id_None in Hfind. rewrite IH. f_equal.
      apply bool_decide_ext. cbn. rewrite elem_of_app. unfold idsOf at 2. tauto.
Qed.

(** X15.  [memory_read] changes nothing: whatever its parameters, no store
    file is written and the clock is not read. *)
Theorem memoryRead_changes_nothing (params : MemoryReadInput) (w : World) :
  (memoryRead params w).2 = w.
Proof.
  unfold memoryRead. destruct (present (r_id params)); [apply readById_world|].
  destruct (present (r_query params)).
  - unfold readByQuery, mbind, M_bind, mret, M_ret, loadStoreOf.
    destruct (wants _ procedural), (wants _ episodic), (wants _ semantic);
      cbn [fst snd]; by case_match.
  - unfold readAll, mbind, M_bind, mret, M_ret, loadStoreOf.
    destruct (wants _ procedural), (wants _ episodic), (wants _ semantic);
      cbn [fst snd]; by case_match.
Qed.

(** X16.  Reading by a non-empty identifier finds a record exactly when one
    of the three store files holds that identifier; the type and the query
    given along with it are ignored. *)
Theorem memoryRead_by_id_found (params : MemoryReadInput) (id : str) (w : World) :
  r_id params = Some id → id ≠ [] →
  read_details (memoryRead params w).1
  = Found (bool_decide (id ∈ storedIds (disk w))).
Proof.
  intros Hid Hne. unfold memoryRead. rewrite Hid, present_nonempty by done.
  rewrite readById_found. cbn. by rewrite app_nil_r.
Qed.

Lemma memoryRead_by_id_found_witness :
  read_details (memoryRead (readId (lit "ep_001")) Sample.world).1 = Found true.
Proof.
  etrans.
  - apply (memoryRead_by_id_found (readId (lit "ep_001")) (lit "ep_001")
             Sample.world); [reflexivity|discriminate].
  - by vm_compute.
Defined.

Lemma list_find_insert_found {A} (P : A → Prop) `{∀ x, Decision (P x)}
    (l : list A) (i : nat) (x x' : A) :
  list_find P l = Some (i, x) → P x' → list_find P (<[i := x']> l) = Some (i, x').
Proof.
  intros (Hi & Hx & Hfirst)%list_find_Some Hx'. apply list_find_Some.
  split_and!; [|done|].
  - apply list_lookup_insert_eq. by eapply lookup_lt_Some.
  - intros j y Hj Hlt. rewrite list_lookup_insert_ne in Hj by lia. by eapply Hfirst.
Qed.

Lemma readById_skip (k : MemoryType) (stores : list MemoryType) (id : str)
    (w : World) :
  id ∉ idsOf k (disk w) → readById (k :: stores) id w = readById stores id w.
Proof.
  intros Habs%list_find_id_None. cbn [readById].
  unfold mbind, M_bind, loadStoreOf. cbn [memories]. by rewrite Habs.
Qed.


(** X17.  A record that [memory_write] reports, whether created, updated
    or found as a duplicate, can be read back by the identifier reported. *)
Theorem memoryRead_after_write (timeline : nat → str) (ctx : MemoryToolContext)
    (params : MemoryWriteInput) (w : World) (action : Action) (id : str) :
  details (memoryWrite timeline ctx params w).1 = Written action id →
  id ≠ [] →
  read_details (memoryRead (readId id) (memoryWrite timeline ctx params w).2).1
  = Found true.
Proof.
  intros Hwritten Hne. unfold memoryRead, readId. cbn [r_id].
  rewrite present_nonempty by done. rewrite readById_found. f_equal.
  apply bool_decide_eq_true. revert Hwritten. unfold idsOf. write_paths.
  all: intros [= <- <-] || intros [=].
  all: cbn [mbind list_bind mapM flat_map readFile procedural_json episodic_json
            semantic_json].
  all: rewrite ?fmap_app, !elem_of_app.
  all: repeat match goal with
       | H : list_find _ _ = Some _ |- _ => apply list_find_lookup in H as [? _]
       end.
  - left. erewrite fmap_insert_same by (eassumption || done).
    apply list_elem_of_fmap. eexists. split; [|by eapply list_elem_of_lookup_2]. done.
  - left. right. apply list_elem_of_here.
  - right. left. right. apply list_elem_of_here.
  - right. left. right. apply list_elem_of_here.
  - right. right. left.
    apply list_elem_of_fmap. eexists. split; [|by eapply list_elem_of_lookup_2]. done.
  - right. right. left. right. apply list_elem_of_here.
Qed.

Lemma memoryRead_after_write_witness :
  read_details
    (memoryRead (readId (lit "sem_002"))
       (memoryWrite Sample.timeline Sample.ctx
          (Sample.writeFact convention (lit "two spaces")) Sample.world).2).1
  = Found true.
Proof.
  apply (memoryRead_after_write Sample.timeline Sample.ctx
           (Sample.writeFact convention (lit "two spaces")) Sample.world created
           (lit "sem_002")); [reflexivity|discriminate].
Defined.

(** X14.  A fact whose text [memory_update] has replaced is read back with
    the new text: for an identifier held by the semantic file and by no
    other, updating with a non-empty text and then reading by the identifier
    shows a fact with that identifier and that text. *)
Theorem memoryRead_after_update (timeline : nat → str) (id text_ : str)
    (w : World) :
  id ≠ [] → text_ ≠ [] →
  id ∉ idsOf procedural (disk w) → id ∉ idsOf episodic (disk w) →
  id ∈ idsOf semantic (disk w) →
  let w1 := (memoryUpdate timeline (updateText id text_) w).2 in
  ∃ m, (memoryRead (readId id) w1).1
       = {| read_text := formatSemanticForDisplay m; read_details := Found true |}
     ∧ sem_id m = id ∧ sem_text m = text_.
Proof.
  intros Hid Htext Hproc Hep Hsem. unfold memoryRead, readId. cbn [r_id].
  rewrite present_nonempty by done.
  pose proof (present_nonempty text_ Htext) as Hpresent.
  revert Hproc Hep Hsem Hpresent. unfold idsOf, updateText.
  unfold memoryUpdate, mbind, M_bind, mret, M_ret, loadStoreOf, saveStore, nowISO.
  cbn [memories readFile writeFile fst snd disk saves ticks u_id u_text u_tags
       u_steps u_trigger].
  repeat case_match; simplify_eq.
  all: cbn [memories readFile writeFile fst snd disk saves ticks u_id u_text u_tags
       u_steps u_trigger]; intros Hproc Hep Hsem Hpresent.
  all: repeat match goal with
       | H : list_find _ _ = None |- _ =>
           apply (list_find_id_None (T := RecordOf procedural)) in H
           || apply (list_find_id_None (T := RecordOf semantic)) in H
           || apply (list_find_id_None (T := RecordOf episodic)) in H
       end; try done.
  all: try (match goal with
       | H : list_find _ _ = Some _ |- _ =>
           apply (list_find_id_Some (T := RecordOf procedural)) in H
       end; done).
  rewrite Hpresent. cbn [default from_option Datatypes.id].
  assert (sem_id s = id) as Hsid by (by apply list_find_lookup in H0 as [_ ?]).
  eexists. split.
  - rewrite readById_skip by done. rewrite readById_skip by done.
    cbn [readById]. unfold mbind, M_bind, mret, M_ret, loadStoreOf.
    cbn [memories readFile disk semantic_json].
    erewrite (list_find_insert_found (λ m : SemanticMemory, getId m = id));
      [reflexivity|exact H0|done].
  - done.
Qed.

Lemma memoryRead_after_update_witness :
  ∃ m, (memoryRead (readId (lit "sem_001"))
          (memoryUpdate Sample.timeline
             (updateText (lit "sem_001") (lit "use spaces")) Sample.world).2).1
       = {| read_text := formatSemanticForDisplay m; read_details := Found true |}
     ∧ sem_id m = lit "sem_001" ∧ sem_text m = lit "use spaces".
Proof.
  apply (memoryRead_after_update Sample.timeline (lit "sem_001") (lit "use spaces")
           Sample.world); try discriminate; by_decide.
Defined.

(** X18.  The count a listing reports is not the number of records: each
    wanted kind that has records adds its records and one more, for the
    header line; a kind without records adds nothing. *)
Theorem memoryRead_listing_counts_headers (params : MemoryReadInput) (w : World) :
  present (r_id params) = None → present (r_query params) = None →
  let type := default AllTypes (r_type params) in
  let share k := if wants type k then listed (length (readFile k (disk w))) else 0 in
  read_details (memoryRead params w).1
  = Count (share procedural + share episodic + share semantic).
Proof.
  intros Hid Hquery. unfold memoryRead. rewrite Hid, Hquery.
  unfold readAll, mbind, M_bind, mret, M_ret, loadStoreOf, listing, listed.
  cbn [memories readFile].
  destruct (wants _ procedural), (wants _ episodic), (wants _ semantic),
    (procedural_json (disk w)), (episodic_json (disk w)), (semantic_json (disk w)).
  all: cbn [fst snd map length Nat.ltb Nat.leb app Nat.eqb read_details RecordOf].
  all: rewrite ?length_app; cbn [length]; rewrite ?length_app; cbn [length].
  all: rewrite ?length_map; f_equal; lia.
Qed.

Lemma memoryRead_listing_counts_headers_witness :
  read_details (memoryRead listAll Sample.world).1 = Count 7.
Proof.
  etrans.
  - apply (memoryRead_listing_counts_headers listAll Sample.world); reflexivity.
  - by vm_compute.
Defined.

(** X19.  The count a query reports is the number of matching records of
    the wanted kinds, with nothing added for headers; when no record
    matches, the answer is the text that quotes the query. *)
Theorem memoryRead_query_counts_matches (params : MemoryReadInput) (query : str)
    (w : World) :
  present (r_id params) = None → present (r_query params) = Some query →
  let type := default AllTypes (r_type params) in
  let d := disk w in
  let matches :=
    (if wants type procedural
     then length (searchMemories (procedural_json d) query proceduralText) else 0)
    + (if wants type episodic
       then length (searchMemories (episodic_json d) query episodicText) else 0)
    + (if wants type semantic
       then length (searchMemories (semantic_json d) query semanticText) else 0) in
  read_details (memoryRead params w).1 = Count matches
  ∧ (matches = 0 →
     read_text (memoryRead params w).1
     = lit "No memories found matching " ++ dq ++ query ++ dq ++ lit ".").
Proof.
  intros Hid Hquery. unfold memoryRead. rewrite Hid, Hquery.
  unfold readByQuery, mbind, M_bind, mret, M_ret, loadStoreOf.
  cbn [memories readFile RecordOf].
  destruct (wants _ procedural), (wants _ episodic), (wants _ semantic),
    (searchMemories (procedural_json (disk w)) query proceduralText),
    (searchMemories (episodic_json (disk w)) query episodicText),
    (searchMemories (semantic_json (disk w)) query semanticText).
  all: cbn [fst snd map length app Nat.eqb read_details read_text].
  all: rewrite ?length_app; cbn [length]; rewrite ?length_app; cbn [length].
  all: rewrite ?length_map; split; [f_equal; lia|intros; first [done|lia]].
Qed.

Lemma memoryRead_query_counts_matches_witness :
  read_details (memoryRead (readQuery (lit "deploy")) Sample.world).1 = Count 1.
Proof.
  refine (proj1 (memoryRead_query_counts_matches (readQuery (lit "deploy"))
                   (lit "deploy") Sample.world _ _)); reflexivity.
Defined.

(** X20.  A query that is not empty and consists of white space matches
    everything: reading with it and no type reports as many records as
    [getMemoryCounts] counts in total. *)
Theorem memoryRead_blank_query_counts_all (query : str) (w : World) :
  query ≠ [] → Forall (λ c, Js.isSpace c = true) query →
  read_details (memoryRead (readQuery query) w).1
  = Count (count_total (getMemoryCounts (disk w))).
Proof.
  intros Hne Hblank. unfold memoryRead, readQuery. cbn [r_id r_query r_type].
  change (present None) with (@None str). cbn iota.
  rewrite present_nonempty by done.
  unfold readByQuery, mbind, M_bind, mret, M_ret, loadStoreOf.
  cbn [memories readFile RecordOf default from_option wants fst snd].
  rewrite !search_blank by done. unfold getMemoryCounts. cbn [count_total].
  case_match; cbn [fst read_details].
  - apply Nat.eqb_eq in H. rewrite !length_app, !length_map in H. f_equal. lia.
  - rewrite !length_app, !length_map. f_equal. lia.
Qed.

Lemma memoryRead_blank_query_counts_all_witness :
  read_details (memoryRead (readQuery (lit " ")) Sample.world).1 = Count 4.
Proof.
  etrans.
  - apply (memoryRead_blank_query_counts_all (lit " ") Sample.world);
      [discriminate|repeat constructor].
  - by vm_compute.
Defined.

(** ** searchMemories, further *)

Lemma splitWs_run_start (s : str) :
  filter (λ w, Js.truthy w = true) (Js.splitWsFrom [] true s)
  = filter (λ w, Js.truthy w = true) (Js.splitWsFrom [] false s).
Proof.
  destruct s as [|c r]; [done|]. cbn [Js.splitWsFrom].
  destruct (Js.isSpace c); [|done]. cbn [rev]. by rewrite filter_cons_False by done.
Qed.

Lemma splitWs_app_space (a b : str) (sp : ascii) (cur : str) (inRun : bool) :
  Js.isSpace sp = true → (inRun = true → cur = []) →
  filter (λ w, Js.truthy w = true) (Js.splitWsFrom cur inRun (a ++ sp :: b))
  = filter (λ w, Js.truthy w = true) (Js.splitWsFrom cur inRun a)
    ++ filter (λ w, Js.truthy w = true) (Js.splitWsFrom [] false b).
Proof.
  intros Hsp. revert cur inRun. induction a as [|c a IH]; intros cur inRun Hcur.
  - cbn [app Js.splitWsFrom]. rewrite Hsp, <- splitWs_run_start.
    destruct inRun.
    + rewrite Hcur by done. cbn [rev]. by rewrite filter_cons_False by done.
    + destruct (decide (Js.truthy (rev cur) = true)).
      * by rewrite !filter_cons_True by done.
      * by rewrite !filter_cons_False by done.
  - cbn [app Js.splitWsFrom]. destruct (Js.isSpace c).
    + destruct inRun; [by apply IH|].
      destruct (decide (Js.truthy (rev cur) = true)).
      * rewrite !filter_cons_True by done. cbn [app]. f_equal. by apply IH.
      * rewrite !filter_cons_False by done. by apply IH.
    + by apply IH.
Qed.

Lemma queryWords_app_space (q1 q2 : str) :
  queryWords (q1 ++ lit " " ++ q2) = queryWords q1 ++ queryWords q2.
Proof.
  unfold queryWords, Js.splitWs. rewrite !toLowerCase_app.
  change (Js.toLowerCase (lit " ")) with (lit " "). cbn [lit list_ascii_of_string app].
  by apply splitWs_app_space.
Qed.

(** X21.  Searching for two queries joined by a space is searching the
    results of the first query for the second: every further word can only
    narrow the result. *)
Theorem searchMemories_narrows `{HasTags T} (memories : list T) (q1 q2 : str)
    (getText : T → str) :
  searchMemories memories (q1 ++ lit " " ++ q2) getText
  = searchMemories (searchMemories memories q1 getText) q2 getText.
Proof.
  rewrite !search_filter, queryWords_app_space, list_filter_filter.
  apply filter_ext_in. intros m. rewrite Forall_app. tauto.
Qed.

Lemma isSpace_lowerChar_eq (c : ascii) : Js.isSpace (Js.lowerChar c) = Js.isSpace c.
Proof. destruct c as [[] [] [] [] [] [] [] []]; by vm_compute. Qed.

Lemma splitWsFrom_word (s cur : str) :
  Forall (λ c, Js.isSpace c = false) s →
  Js.splitWsFrom cur false s = [rev cur ++ s].
Proof.
  intros Hs. revert cur. induction Hs as [|c s Hc _ IH]; intros cur.
  - cbn. by rewrite app_nil_r.
  - cbn [Js.splitWsFrom]. rewrite Hc, IH. cbn [rev]. by rewrite <- app_assoc.
Qed.

Lemma queryWords_word (q : str) :
  q ≠ [] → Forall (λ c, Js.isSpace c = false) q → queryWords q = [Js.toLowerCase q].
Proof.
  intros Hne Hq. unfold queryWords, Js.splitWs. rewrite splitWsFrom_word.
  - cbn [rev app]. rewrite filter_cons_True; [done|]. by destruct q.
  - unfold Js.toLowerCase. rewrite Forall_map. eapply Forall_impl; [exact Hq|].
    intros c Hc. cbn. by rewrite isSpace_lowerChar_eq.
Qed.

Lemma join_elem_substring (sep t : str) (parts : list str) :
  t ∈ parts → IsSubstring t (Js.join sep parts).
Proof.
  induction parts as [|p parts IH]; [by intros ?%elem_of_nil|].
  intros [->|Hin]%elem_of_cons.
  - destruct parts as [|p' parts].
    + exists [], []. cbn. by rewrite app_nil_r.
    + exists [], (sep ++ Js.join sep (p' :: parts)). done.
  - destruct (IH Hin) as (pre & post & Heq). destruct parts as [|p' parts].
    + by apply elem_of_nil in Hin.
    + exists (p ++ sep ++ pre), post. cbn [Js.join] in *. rewrite Heq.
      by rewrite <- !app_assoc.
Qed.

(** X22.  A record is found by any of its tags, in whatever letter case the
    tag is typed: a query that lower-cases to a tag of the record, the tag
    not empty and free of white space, selects the record. *)
Theorem searchMemories_finds_by_tag `{HasTags T} (memories : list T) (m : T)
    (query tag : str) (getText : T → str) :
  m ∈ memories → tag ∈ getTags m →
  query ≠ [] → Forall (λ c, Js.isSpace c = false) query →
  Js.toLowerCase query = Js.toLowerCase tag →
  m ∈ searchMemories memories query getText.
Proof.
  intros Hm Htag Hne Hword Hcase. rewrite search_filter.
  apply list_elem_of_filter. split; [|done].
  rewrite queryWords_word by done. constructor; [|constructor].
  rewrite Hcase. unfold haystack.
  destruct (join_elem_substring (lit " ") tag (getTags m) Htag) as (pre & post & ->).
  exists (Js.toLowerCase (getText m) ++ lit " " ++ Js.toLowerCase pre),
    (Js.toLowerCase post).
  rewrite !toLowerCase_app, <- !app_assoc. done.
Qed.

Lemma searchMemories_finds_by_tag_witness :
  Sample.deployProc
  ∈ searchMemories [Sample.deployProc; Sample.releaseProc] (lit "INFRA") proc_name.
Proof.
  apply (searchMemories_finds_by_tag [Sample.deployProc; Sample.releaseProc]
           Sample.deployProc (lit "INFRA") (lit "infra") proc_name).
  - by_decide.
  - by_decide.
  - discriminate.
  - repeat constructor.
  - reflexivity.
Defined.

(** ** compactEpisodicMemories, further *)

Lemma mapDelete_cons {V} (key k : str) (x : V) (m : list (str * V)) :
  mapDelete key ((k, x) :: m)
  = if decide (k = key) then mapDelete key m else (k, x) :: mapDelete key m.
Proof.
  unfold mapDelete. destruct (decide (k = key)) as [->|Hk].
  - by rewrite filter_cons_False by (cbn; auto).
  - by rewrite filter_cons_True by done.
Qed.

Lemma mapDelete_members (key : str) (tagGroups : list (str * list EpisodicMemory)) :
  length (groupMembers (mapDelete key tagGroups)) ≤ length (groupMembers tagGroups)
  ∧ groupMembers (mapDelete key tagGroups) ⊆ groupMembers tagGroups.
Proof.
  unfold groupMembers. induction tagGroups as [|[k x] r [IHlen IHin]]; [done|].
  rewrite mapDelete_cons. destruct (decide (k = key)); cbn; rewrite ?length_app.
  - split; [lia|]. intros y Hy. apply elem_of_app. right. by apply IHin.
  - split; [lia|]. intros y [Hy|Hy]%elem_of_app; apply elem_of_app; auto.
Qed.

Lemma mapDelete_members_found (key : str) (group : list EpisodicMemory)
    (tagGroups : list (str * list EpisodicMemory)) :
  (key, group) ∈ tagGroups →
  length (groupMembers (mapDelete key tagGroups)) + length group
  ≤ length (groupMembers tagGroups).
Proof.
  unfold groupMembers. induction tagGroups as [|[k x] r IH]; [by intros ?%elem_of_nil|].
  intros Hin. rewrite mapDelete_cons.
  pose proof (proj1 (mapDelete_members key r)) as Hle. unfold groupMembers in Hle.
  apply elem_of_cons in Hin as [[= <- <-]|Hin].
  - rewrite decide_True by done. cbn. rewrite length_app. lia.
  - specialize (IH Hin). destruct (decide (k = key)); cbn; rewrite ?length_app; lia.
Qed.

Lemma mapSet_members (key : str) (group : list EpisodicMemory)
    (tagGroups : list (str * list EpisodicMemory)) :
  length (groupMembers (mapSet key group tagGroups))
  ≤ length (groupMembers tagGroups) + length group
  ∧ groupMembers (mapSet key group tagGroups) ⊆ group ++ groupMembers tagGroups.
Proof.
  unfold groupMembers. induction tagGroups as [|[k x] r [IHlen IHin]].
  - cbn. rewrite !app_nil_r. split; [lia|done].
  - cbn [mapSet]. destruct (bool_decide (k = key)); cbn; rewrite ?length_app.
    + split; [lia|]. intros y. rewrite !elem_of_app. tauto.
    + split; [lia|]. intros y [Hy|Hy%IHin]%elem_of_app; revert Hy;
        rewrite !elem_of_app; tauto.
Qed.

Lemma group_in_members (key : str) (group : list EpisodicMemory)
    (tagGroups : list (str * list EpisodicMemory)) :
  (key, group) ∈ tagGroups → group ⊆ groupMembers tagGroups.
Proof.
  unfold groupMembers. induction tagGroups as [|[k x] r IH]; [by intros ?%elem_of_nil|].
  intros [[= <- <-]|Hin]%elem_of_cons y Hy; cbn; apply elem_of_app; [by left|].
  right. by apply IH.
Qed.

Lemma placeMemory_members (tagGroups : list (str * list EpisodicMemory))
    (m : EpisodicMemory) :
  length (groupMembers (placeMemory tagGroups m))
  ≤ length (groupMembers tagGroups) + 1
  ∧ groupMembers (placeMemory tagGroups m) ⊆ m :: groupMembers tagGroups.
Proof.
  unfold placeMemory.
  destruct (list_find _ tagGroups) as [[i [key group]]|] eqn:Hfind.
  - apply list_find_Some in Hfind as (Hi%list_elem_of_lookup_2 & _ & _).
    pose proof (mapDelete_members_found key group tagGroups Hi) as Hfound.
    destruct (mapDelete_members key tagGroups) as [_ Hsub].
    destruct (mapSet_members
                (Js.join (lit ",") (Js.newSet (groupTagsOf key ++ ep_tags m)))
                (group ++ [m]) (mapDelete key tagGroups)) as [Hlen Hin].
    rewrite length_app in Hlen. cbn [length] in Hlen. split; [lia|].
    intros y Hy%Hin. revert Hy. rewrite !elem_of_app, !elem_of_cons, elem_of_nil.
    intros [[Hy|[->|[]]]|Hy%Hsub]; auto. right.
    by eapply group_in_members.
  - match goal with |- context [mapSet ?k _ _] =>
      destruct (mapSet_members k [m] tagGroups) as [Hlen Hin] end.
    cbn [length] in Hlen. split; [lia|]. intros y Hy%Hin. done.
Qed.

Lemma buildTagGroups_members (memories : list EpisodicMemory)
    (tagGroups : list (str * list EpisodicMemory)) :
  length (groupMembers (fold_left placeMemory memories tagGroups))
  ≤ length (groupMembers tagGroups) + length memories
  ∧ groupMembers (fold_left placeMemory memories tagGroups)
    ⊆ groupMembers tagGroups ++ memories.
Proof.
  revert tagGroups. induction memories as [|m memories IH]; intros tagGroups.
  - cbn [fold_left length]. rewrite app_nil_r. split; [lia|done].
  - cbn [fold_left length]. destruct (IH (placeMemory tagGroups m)) as [Hlen Hin].
    destruct (placeMemory_members tagGroups m) as [Hlen' Hin'].
    split; [lia|]. intros y [Hy%Hin'|Hy]%Hin%elem_of_app; revert Hy;
      rewrite ?elem_of_app, !elem_of_cons; tauto.
Qed.

Lemma in_flat_map_elem_of {A B} (f : A → list B) (l : list A) (y : B) :
  y ∈ flat_map f l ↔ ∃ x, x ∈ l ∧ y ∈ f x.
Proof.
  rewrite list_elem_of_In, in_flat_map. setoid_rewrite list_elem_of_In. done.
Qed.

Lemma consolidate_members (group : list EpisodicMemory) :
  length (consolidate group) ≤ length group
  ∧ Forall (λ r, ep_id r ∈ ep_id <$> group
                 ∧ ep_tags r ⊆ flat_map ep_tags group
                 ∧ ep_details r ⊆ flat_map ep_details group)
      (consolidate group).
Proof.
  destruct group as [|a [|b group]].
  - done.
  - split; [done|]. constructor; [|done]. cbn. rewrite !app_nil_r.
    split_and!; [left|done..].
  - split; [cbn; lia|]. cbn [consolidate]. constructor; [|done].
    cbn [ep_id ep_tags ep_details]. split_and!.
    + left.
    + intros t. by rewrite newSet_elem_of.
    + intros t. by rewrite newSet_elem_of.
Qed.

Lemma consolidate_groups_members (groups : list (list EpisodicMemory)) :
  length (flat_map consolidate groups) ≤ length (concat groups)
  ∧ Forall (λ r, ep_id r ∈ ep_id <$> concat groups
                 ∧ ep_tags r ⊆ flat_map ep_tags (concat groups)
                 ∧ ep_details r ⊆ flat_map ep_details (concat groups))
      (flat_map consolidate groups).
Proof.
  induction groups as [|g groups [IHlen IHall]]; [done|].
  cbn [flat_map concat]. rewrite !length_app.
  destruct (consolidate_members g) as [Hg Hall].
  split; [lia|]. apply Forall_app. split.
  - eapply Forall_impl; [exact Hall|]. cbn. intros r (Hid & Htags & Hdet).
    rewrite fmap_app, !flat_map_app. split_and!.
    + apply elem_of_app. by left.
    + intros t Ht. apply elem_of_app. left. by apply Htags.
    + intros t Ht. apply elem_of_app. left. by apply Hdet.
  - eapply Forall_impl; [exact IHall|]. cbn. intros r (Hid & Htags & Hdet).
    rewrite fmap_app, !flat_map_app. split_and!.
    + apply elem_of_app. by right.
    + intros t Ht. apply elem_of_app. right. by apply Htags.
    + intros t Ht. apply elem_of_app. right. by apply Hdet.
Qed.

(** X23.  Compaction invents nothing and never returns more records than
    it was given: every record of the result carries the identifier of an
    input record, and its tags and details come from input records. *)
Theorem compact_never_grows (memories : list EpisodicMemory) :
  length (compactEpisodicMemories memories) ≤ length memories
  ∧ Forall (λ r, ep_id r ∈ ep_id <$> memories
                 ∧ ep_tags r ⊆ allTags memories
                 ∧ ep_details r ⊆ flat_map ep_details memories)
      (compactEpisodicMemories memories).
Proof.
  rewrite compact_flat_map.
  destruct (buildTagGroups_members memories []) as [Hlen Hin].
  fold (buildTagGroups memories) in Hlen, Hin. unfold groupMembers in Hlen, Hin.
  cbn [fmap list_fmap concat length app] in Hlen, Hin.
  destruct (consolidate_groups_members (buildTagGroups memories).*2) as [Hlen' Hall].
  split; [lia|]. eapply Forall_impl; [exact Hall|]. cbn.
  intros r (Hid & Htags & Hdet). split_and!.
  - apply list_elem_of_fmap in Hid as (m & -> & Hm).
    apply list_elem_of_fmap. exists m. split; [done|]. by apply Hin.
  - intros t (m & Hm & Ht)%Htags%in_flat_map_elem_of.
    apply in_flat_map_elem_of. exists m. split; [by apply Hin|done].
  - intros t (m & Hm & Ht)%Hdet%in_flat_map_elem_of.
    apply in_flat_map_elem_of. exists m. split; [by apply Hin|done].
Qed.

Lemma groupTagsOf_openKey (m : EpisodicMemory) (t : str) :
  commaFree (ep_id m) → Forall commaFree (ep_tags m) →
  t ∈ groupTagsOf (openKey m) → t ∈ keyTags m.
Proof.
  intros Hid Htags. destruct (openKey_keyTags m) as [-> Hne].
  unfold groupTagsOf. rewrite split_join_comma; [by rewrite newSet_elem_of|done|].
  unfold keyTags. destruct (Js.truthy _); [done|]. by constructor.
Qed.

Lemma distinct_tags_share_nothing (seen rest : list EpisodicMemory)
    (m : EpisodicMemory) :
  WellKeyed (seen ++ m :: rest) → NoDup (allTags (seen ++ m :: rest)) →
  Forall (λ e, sharesTag m e.1 = false) (ownGroups seen).
Proof.
  intros (Hfree & Hown & Hsep) Hdistinct. unfold ownGroups.
  rewrite Forall_fmap. apply Forall_forall. intros m' Hm'. cbn.
  apply sharesTag_false. intros t Ht Hin.
  assert (Hfree' : commaFree (ep_id m') ∧ Forall commaFree (ep_tags m')).
  { rewrite Forall_forall in Hfree. apply Hfree, elem_of_app. by left. }
  apply groupTagsOf_openKey in Hin; [|apply Hfree'..].
  unfold keyTags in Hin. destruct (Js.truthy _) eqn:Htr.
  - unfold allTags in Hdistinct. rewrite flat_map_app in Hdistinct.
    apply NoDup_app in Hdistinct as (_ & Hdisj & _).
    apply (Hdisj t).
    + apply in_flat_map_elem_of. by exists m'.
    + cbn [flat_map]. apply elem_of_app. by left.
  - apply list_elem_of_singleton in Hin as ->.
    rewrite Forall_forall in Hsep. apply (Hsep (ep_id m')).
    + unfold ownKeys. apply list_elem_of_fmap. exists m'. split; [done|].
      apply list_elem_of_filter. split; [exact Htr|]. apply elem_of_app. by left.
    + unfold allTags. apply in_flat_map_elem_of. exists m. split; [|done].
      apply elem_of_app. right. left.
Qed.

Lemma buildTagGroups_distinct_tags (rest seen lasts : list EpisodicMemory) :
  GroupsInv seen (ownGroups seen) lasts →
  WellKeyed (seen ++ rest) → NoDup (allTags (seen ++ rest)) →
  fold_left placeMemory rest (ownGroups seen) = ownGroups (seen ++ rest).
Proof.
  revert seen lasts. induction rest as [|m rest IH]; intros seen lasts Hinv Hwk Hdistinct.
  - by rewrite app_nil_r.
  - destruct (WellKeyed_next seen rest m Hwk) as (Hid & Htags & Hown).
    destruct (placeMemory_inv_open seen (ownGroups seen) lasts m) as [Heq Hinv'];
      [done..|by eapply distinct_tags_share_nothing|].
    cbn [fold_left]. rewrite Heq.
    replace (seen ++ m :: rest) with ((seen ++ [m]) ++ rest) in *
      by by rewrite <- app_assoc.
    assert (Hgroups : ownGroups seen ++ [(openKey m, [m])] = ownGroups (seen ++ [m])).
    { unfold ownGroups. by rewrite fmap_app. }
    rewrite Hgroups in *. by apply (IH _ (lasts ++ [m])).
Qed.

Lemma consolidate_ownGroups (memories : list EpisodicMemory) :
  flat_map consolidate (ownGroups memories).*2 = memories.
Proof. induction memories as [|m memories IH]; [done|]. cbn. by f_equal. Qed.

(** X24.  Records that have no tag in common are left as they are: when
    the group keys cannot clash and no tag occurs twice among the records,
    compaction returns its input. *)
Theorem compact_distinct_tags_unchanged (memories : list EpisodicMemory) :
  WellKeyed memories → NoDup (allTags memories) →
  compactEpisodicMemories memories = memories.
Proof.
  intros Hwk Hdistinct. rewrite compact_flat_map. unfold buildTagGroups.
  change (@nil (str * list EpisodicMemory)) with (ownGroups []).
  rewrite (buildTagGroups_distinct_tags memories [] []); [|apply GroupsInv_nil|done..].
  apply consolidate_ownGroups.
Qed.

Lemma compact_distinct_tags_unchanged_witness :
  let e1 := Sample.episode (lit "ep_001") [lit "a"] in
  let e2 := Sample.episode (lit "ep_002") [] in
  let e3 := Sample.episode (lit "ep_003") [lit "b"; lit "c"] in
  compactEpisodicMemories [e1; e2; e3] = [e1; e2; e3].
Proof.
  apply (compact_distinct_tags_unchanged
           [Sample.episode (lit "ep_001") [lit "a"];
            Sample.episode (lit "ep_002") [];
            Sample.episode (lit "ep_003") [lit "b"; lit "c"]]).
  - split_and!; by_decide.
  - by_decide.
Defined.

Lemma setAdd_fold_NoDup `{EqDecision A} (xs acc : list A) :
  NoDup acc → NoDup (fold_left Js.setAdd xs acc).
Proof.
  revert acc. induction xs as [|x xs IH]; intros acc Hacc; [done|].
  cbn [fold_left]. apply IH. unfold Js.setAdd. case_bool_decide; [done|].
  apply NoDup_app. split_and!; [done| |apply NoDup_singleton].
  intros y Hy ->%list_elem_of_singleton. done.
Qed.

Lemma newSet_NoDup `{EqDecision A} (xs : list A) : NoDup (Js.newSet xs).
Proof. apply setAdd_fold_NoDup. constructor. Qed.

Lemma flat_map_nil_iff {A B} (f : A → list B) (l : list A) :
  flat_map f l = [] ↔ Forall (λ x, f x = []) l.
Proof.
  induction l as [|x l IH]; cbn; [by split; [constructor|]|].
  rewrite Forall_cons, <- IH. split.
  - by intros [? ?]%app_eq_nil.
  - by intros [-> ->].
Qed.

(** X25.  A group of two or more episodes becomes one record: it has the
    identifier of the first episode and the date and session of the last,
    its tags and its details are those of all the members with every
    duplicate removed, and it has a reflection exactly when some member has
    a mistake or a lesson. *)
Theorem consolidate_merges (first second : EpisodicMemory)
    (more : list EpisodicMemory) :
  let group := first :: second :: more in
  ∃ r, consolidate group = [r]
       ∧ ep_id r = ep_id first
       ∧ ep_date r = ep_date (List.last group first)
       ∧ ep_sourceSession r = ep_sourceSession (List.last group first)
       ∧ NoDup (ep_tags r) ∧ (∀ t, t ∈ ep_tags r ↔ t ∈ allTags group)
       ∧ NoDup (ep_details r)
       ∧ (∀ x, x ∈ ep_details r ↔ x ∈ flat_map ep_details group)
       ∧ (ep_reflection r = None
          ↔ Forall (λ m, reflectionMistakes m = [] ∧ reflectionLessons m = []) group).
Proof.
  intros group. eexists. split; [reflexivity|].
  cbn [ep_id ep_date ep_sourceSession ep_tags ep_details ep_reflection].
  split_and!; try done.
  - apply newSet_NoDup.
  - intros t. apply newSet_elem_of.
  - apply newSet_NoDup.
  - intros x. apply newSet_elem_of.
  - fold group.
    assert (Hnone : Forall (λ m, reflectionMistakes m = [] ∧ reflectionLessons m = [])
                      group
                    ↔ flat_map reflectionMistakes group = []
                      ∧ flat_map reflectionLessons group = []).
    { rewrite !flat_map_nil_iff, <- Forall_and. done. }
    rewrite Hnone.
    destruct (flat_map reflectionMistakes group), (flat_map reflectionLessons group);
      cbn; split; (done || by intros []).
Qed.

(** ** escapeXml and the prompt section, further *)

Lemma entityOf_decode (c c' : ascii) (s t : str) :
  entityOf c ++ s = entityOf c' ++ t → c = c' ∧ s = t.
Proof.
  unfold entityOf. repeat case_bool_decide; subst; cbn; intros [=]; by subst.
Qed.

Lemma xmlEscaped_inj (s t : str) : xmlEscaped s = xmlEscaped t → s = t.
Proof.
  revert t. induction s as [|c s IH]; intros [|c' t]; cbn; try done.
  - unfold entityOf. by repeat case_bool_decide.
  - unfold entityOf. by repeat case_bool_decide.
  - intros [-> Heq]%entityOf_decode. f_equal. by apply IH.
Qed.

(** X26.  Escaping loses nothing: two texts with the same escaped form are
    the same text. *)
Theorem escapeXml_injective (s t : str) : escapeXml s = escapeXml t → s = t.
Proof. rewrite !escapeXml_xmlEscaped. apply xmlEscaped_inj. Qed.

Lemma escapeXml_injective_witness :
  lit "a<b" ++ lit "&c" = lit "a<b&c".
Proof.
  apply (escapeXml_injective (lit "a<b" ++ lit "&c") (lit "a<b&c")).
  reflexivity.
Defined.

Lemma join_snoc_suffix (sep : str) (parts : list str) (y : str) :
  ∃ pre, Js.join sep (parts ++ [y]) = pre ++ y.
Proof.
  induction parts as [|p parts [pre IH]]; [by exists []|].
  destruct parts as [|q parts].
  - exists (p ++ sep). cbn. by rewrite <- app_assoc.
  - exists (p ++ sep ++ pre). cbn [app Js.join] in *. rewrite IH.
    by rewrite <- !app_assoc.
Qed.

Lemma join_cons_snoc (sep x y : str) (parts : list str) :
  ∃ pre, Js.join sep (x :: parts ++ [y]) = x ++ sep ++ pre ++ y.
Proof.
  destruct (join_snoc_suffix sep parts y) as [pre Hpre]. exists pre.
  rewrite <- Hpre. by destruct parts.
Qed.

(** X27.  The prompt section is always one [memory_system] element that
    opens after two line breaks, and it is the block that says nothing is
    stored exactly when [getMemoryCounts] counts no record. *)
Theorem prompt_block_shape (d : Disk) :
  (∃ body, buildMemoryPromptSection d
           = nl ++ nl ++ lit "<memory_system>" ++ nl ++ body ++ nl
               ++ lit "</memory_system>")
  ∧ (buildMemoryPromptSection d = emptyMemoryPrompt
     ↔ count_total (getMemoryCounts d) = 0).
Proof.
  unfold buildMemoryPromptSection, getMemoryCounts. cbn [count_total].
  destruct ((length (semantic_json d) =? 0) && (length (procedural_json d) =? 0)
            && (length (episodic_json d) =? 0)) eqn:Hempty.
  - apply andb_true_iff in Hempty as [[Hs Hp]%andb_true_iff He].
    apply Nat.eqb_eq in Hs, Hp, He. split; [|split; [lia|done]].
    exists (take (length emptyMemoryPrompt - 35) (drop 18 emptyMemoryPrompt)).
    by vm_compute.
  - assert (Hsome : length (semantic_json d) + length (procedural_json d)
                    + length (episodic_json d) ≠ 0).
    { intros Hzero. assert (length (semantic_json d) = 0) as Hs by lia.
      assert (length (procedural_json d) = 0) as Hp by lia.
      assert (length (episodic_json d) = 0) as He by lia.
      by rewrite Hs, Hp, He in Hempty. }
    unfold promptParts. cbv zeta.
    match goal with
    | |- context [Js.join nl ([memoryPreamble] ++ ?a ++ ?b ++ ?c ++ [?last])] =>
        replace ([memoryPreamble] ++ a ++ b ++ c ++ [last])
          with (memoryPreamble :: (a ++ b ++ c) ++ [last])
          by (by rewrite <- !app_assoc);
        destruct (join_cons_snoc nl memoryPreamble last (a ++ b ++ c)) as [pre ->]
    end.
    split.
    + exists (drop 18 memoryPreamble ++ nl ++ pre).
      rewrite <- !app_assoc.
      change memoryPreamble
        with (nl ++ nl ++ lit "<memory_system>" ++ nl ++ drop 18 memoryPreamble) at 1.
      by rewrite <- !app_assoc.
    + split; [|done]. intros Heq.
      apply (f_equal (take 120)) in Heq. rewrite take_app_le in Heq by (by vm_compute).
      by vm_compute in Heq.
Qed.

(** ** Scope resolution *)

Lemma scopeValue_truthy (scope : MemoryScope) : jsonTruthy (scopeValue scope) = true.
Proof. by destruct scope. Qed.

(** X28.  A [.zpi] file that is missing, cannot be read or is not JSON
    never makes scope resolution fail: the scope of the settings is the
    result. *)
Theorem resolveMemoryScope_without_config (pathJoin : list str → str)
    (JSON_parse : str → option json) (fs : str → option Node) (cwd : str)
    (settingsScope : MemoryScope) :
  fs (pathJoin [cwd; lit ".zpi"]) = None
  ∨ fs (pathJoin [cwd; lit ".zpi"]) = Some Unreadable
  ∨ (∃ raw, fs (pathJoin [cwd; lit ".zpi"]) = Some (File raw)
            ∧ JSON_parse raw = None) →
  resolveMemoryScope pathJoin JSON_parse fs cwd settingsScope
  = scopeValue settingsScope.
Proof.
  unfold resolveMemoryScope, readZpiConfig.
  intros [-> |[-> |(raw & -> & ->)]]; done.
Qed.

(** X29.  What [.zpi] declares under [memory.scope] wins over the settings
    and is not checked against the two scope names: any value that is not
    falsy is the result, and every such value other than the string
    [global] selects the project directory. *)
Theorem resolveMemoryScope_declared_wins (homedir CONFIG_DIR_NAME : str)
    (pathJoin : list str → str) (JSON_parse : str → option json) (fs : str → option Node) (cwd raw : str)
    (config declared : json) (settingsScope : MemoryScope) :
  fs (pathJoin [cwd; lit ".zpi"]) = Some (File raw) →
  JSON_parse raw = Some config →
  declaredScope (Some config) = Some declared →
  jsonTruthy declared = true →
  resolveMemoryScope pathJoin JSON_parse fs cwd settingsScope = declared
  ∧ (declared ≠ JString (lit "global") →
     getMemoryDir homedir CONFIG_DIR_NAME pathJoin cwd (scopeOfValue declared)
     = getProjectMemoryDir CONFIG_DIR_NAME pathJoin cwd).
Proof.
  intros Hfile Hparse Hdeclared Htruthy.
  unfold resolveMemoryScope, readZpiConfig. rewrite Hfile, Hparse, Hdeclared, Htruthy.
  split; [done|]. intros Hother. unfold scopeOfValue.
  destruct declared; try done. case_bool_decide; [by subst|done].
Qed.

(** X30.  The resolved scope is never a falsy value: it is the scope of the
    settings, or the value declared in [.zpi], and a declaration that is
    falsy (null, false, zero, the empty string) is passed over. *)
Theorem resolveMemoryScope_never_falsy (pathJoin : list str → str)
    (JSON_parse : str → option json) (fs : str → option Node) (cwd : str)
    (settingsScope : MemoryScope) :
  let resolved := resolveMemoryScope pathJoin JSON_parse fs cwd settingsScope in
  jsonTruthy resolved = true
  ∧ (resolved = scopeValue settingsScope
     ∨ declaredScope (readZpiConfig pathJoin JSON_parse fs cwd) = Some resolved).
Proof.
  unfold resolveMemoryScope.
  destruct (declaredScope _) as [declared|]; [|by split; [apply scopeValue_truthy|left]].
  destruct (jsonTruthy declared) eqn:Htruthy.
  - by split; [|right].
  - by split; [apply scopeValue_truthy|left].
Qed.
Lemma resolveMemoryScope_without_config_witness :
  resolveMemoryScope SampleEnv.pathJoin JsonText.parse
    (SampleEnv.oneFile (lit "/work/.zpi") (lit "{oops")) (lit "/work") global
  = JString (lit "global").
Proof.
  apply (resolveMemoryScope_without_config SampleEnv.pathJoin JsonText.parse
           (SampleEnv.oneFile (lit "/work/.zpi") (lit "{oops")) (lit "/work") global).
  right. right. exists (lit "{oops"). split; vm_compute; reflexivity.
Defined.

Lemma resolveMemoryScope_declared_wins_witness :
  let fs := SampleEnv.oneFile (lit "/work/.zpi") (zpiFile (lit "team")) in
  resolveMemoryScope SampleEnv.pathJoin JsonText.parse fs (lit "/work") global
  = JString (lit "team")
  ∧ getMemoryDir SampleEnv.homedir SampleEnv.CONFIG_DIR_NAME SampleEnv.pathJoin
      (lit "/work") (scopeOfValue (JString (lit "team")))
    = lit "/work/.pi/memory".
Proof.
  destruct (resolveMemoryScope_declared_wins SampleEnv.homedir
              SampleEnv.CONFIG_DIR_NAME SampleEnv.pathJoin JsonText.parse
              (SampleEnv.oneFile (lit "/work/.zpi") (zpiFile (lit "team")))
              (lit "/work") (zpiFile (lit "team"))
              (JObject [(lit "memory", JObject [(lit "scope", JString (lit "team"))])])
              (JString (lit "team")) global) as [Hresolved Hdir];
    [vm_compute; reflexivity..|].
  split; [exact Hresolved|]. etrans; [apply Hdir; discriminate|by vm_compute].
Defined.
